(** * bpq.c: the data path of the BPQ chat client

    A shallow embedding of [src/bpq.c]: the Telnet filter, the newline
    normaliser, the RX line accumulator, the logical/visual text buffer with
    its wrap and reflow, the input row, the two autologin machines and the
    session loop of [main] (Part I), the notions the properties are stated
    with (Part II) and the properties proved about the program (Parts III
    and IV).

    Conventions of the embedding.
    - An [unsigned char], a [wchar_t], an [int], a [long] and a [size_t] are
      all [Z]; the counters of the program stay far below the range of their
      C types (buffers of at most 65536 bytes, rings of at most 200000
      entries, millisecond clocks), so no wrap-around is written out.
    - A buffer is the [list Z] of its bytes; a C string is the list of the
      bytes before its terminating NUL, and [cstr] reads a buffer that way.
    - Every [write] to the socket appends to a transmit log [tx]; the
      allocation failures and write failures that end the process through
      [die_cleanup] are not modelled (the allocator and the transport are
      taken to succeed); [write_all] is modelled on its own, on the outcomes
      of the successive calls of [write].
    - The functions of the C library that depend on the locale ([wcwidth],
      [iswpunct], [iswprint], [towupper], [mbrtowc], [wcrtomb]) are the fields
      of the class [Locale]; the conversion state of [mbrtowc] and [wcrtomb]
      is taken to be the initial one at every character boundary, as in
      UTF-8 and in the single-byte locales.
    - The monotonic clock is an input: every [clock_gettime] of an iteration
      of the loop is a field of the [wake] the iteration is run on. *)

From Stdlib Require Import String Ascii.
From Stdlib Require Import ZArith List Bool Lia Arith.
From Equations Require Import Equations.
Import ListNotations.
Local Open Scope Z_scope.

(* ===================================================================== *)
(** * Part I. The program                                                 *)
(* ===================================================================== *)

(** ** Buffers and C strings *)

Definition zlen {A} (l : list A) : Z := Z.of_nat (length l).

(** [strlen]-style view of a byte buffer: the bytes before the first NUL. *)
Fixpoint cstr (buf : list Z) : list Z :=
  match buf with
  | [] => []
  | c :: rest => if c =? 0 then [] else c :: cstr rest
  end.

(** [if (o<outcap) out[o++]=ch;] *)
Definition put (outcap : Z) (out : list Z) (ch : Z) : list Z :=
  if zlen out <? outcap then out ++ [ch] else out.

(** ** Telnet filter *)

Definition IAC : Z := 255.
Definition DONT : Z := 254.
Definition DO_ : Z := 253.
Definition WONT : Z := 252.
Definition WILL : Z := 251.
Definition SB : Z := 250.
Definition SE : Z := 240.

Record telnet_parser_t := { tp_state : Z; tp_cmd : Z }.

(** The parser of [main]: [telnet_parser_t tp={0};] *)
Definition tp_init : telnet_parser_t := {| tp_state := 0; tp_cmd := 0 |}.

(** [telnet_send3]: three bytes written to the socket. *)
Definition telnet_send3 (a b c : Z) (tx : list Z) : list Z := tx ++ [a; b; c].

(** The running state of one call of [telnet_filter_and_reply]: the parser,
    the output buffer [out[0..o)] and the bytes sent so far. *)
Record filter_run := { f_tp : telnet_parser_t; f_out : list Z; f_tx : list Z }.

(** One turn of the [for] loop: the [switch (tp->state)] on byte [ch]. *)
Definition telnet_byte (outcap : Z) (r : filter_run) (ch : Z) : filter_run :=
  let tp := f_tp r in
  match tp_state tp with
  | 0 =>
      if ch =? IAC
      then {| f_tp := {| tp_state := 1; tp_cmd := tp_cmd tp |};
              f_out := f_out r; f_tx := f_tx r |}
      else {| f_tp := tp; f_out := put outcap (f_out r) ch; f_tx := f_tx r |}
  | 1 =>
      if ch =? IAC
      then {| f_tp := {| tp_state := 0; tp_cmd := ch |};
              f_out := put outcap (f_out r) IAC; f_tx := f_tx r |}
      else if (ch =? DO_) || (ch =? DONT) || (ch =? WILL) || (ch =? WONT)
      then {| f_tp := {| tp_state := 2; tp_cmd := ch |};
              f_out := f_out r; f_tx := f_tx r |}
      else if ch =? SB
      then {| f_tp := {| tp_state := 3; tp_cmd := ch |};
              f_out := f_out r; f_tx := f_tx r |}
      else {| f_tp := {| tp_state := 0; tp_cmd := ch |};
              f_out := f_out r; f_tx := f_tx r |}
  | 2 =>
      let opt := ch in
      let tx' :=
        if tp_cmd tp =? DO_ then telnet_send3 IAC WONT opt (f_tx r)
        else if tp_cmd tp =? WILL then telnet_send3 IAC DONT opt (f_tx r)
        else f_tx r in
      {| f_tp := {| tp_state := 0; tp_cmd := tp_cmd tp |};
         f_out := f_out r; f_tx := tx' |}
  | 3 =>
      if ch =? IAC
      then {| f_tp := {| tp_state := 4; tp_cmd := tp_cmd tp |};
              f_out := f_out r; f_tx := f_tx r |}
      else r
  | 4 =>
      if ch =? SE
      then {| f_tp := {| tp_state := 0; tp_cmd := tp_cmd tp |};
              f_out := f_out r; f_tx := f_tx r |}
      else {| f_tp := {| tp_state := 3; tp_cmd := tp_cmd tp |};
              f_out := f_out r; f_tx := f_tx r |}
  | _ => r
  end.

(** [telnet_filter_and_reply(tp, in, len, out, outcap)]: the parser after the
    call, the data bytes [out[0..o)] and the replies written to the socket
    during the call. *)
Definition telnet_filter_and_reply
  (tp : telnet_parser_t) (input : list Z) (outcap : Z) : filter_run :=
  fold_left (telnet_byte outcap) input {| f_tp := tp; f_out := []; f_tx := [] |}.

(** ** Newline normaliser *)

(** [normalize_incoming]: the loop from index [i] on, [out] being [out[0..o)].
    A CR swallows the LF that follows it in the same buffer. *)
Fixpoint normalize_loop (outcap : Z) (input : list Z) (out : list Z) : list Z :=
  match input with
  | [] => out
  | ch :: rest =>
      if ch =? 13 then
        match rest with
        | nxt :: rest' =>
            if nxt =? 10
            then normalize_loop outcap rest' (put outcap out 10)
            else normalize_loop outcap rest (put outcap out 10)
        | [] => normalize_loop outcap rest (put outcap out 10)
        end
      else if ch =? 10 then normalize_loop outcap rest (put outcap out 10)
      else normalize_loop outcap rest (put outcap out ch)
  end.

Definition normalize_incoming (input : list Z) (outcap : Z) : list Z :=
  normalize_loop outcap input [].

(** ** RX accumulator *)

(** [memchr(s, c, n)] over the [n] bytes of [s]: the offset of the first [c]. *)
Fixpoint memchr (s : list Z) (c : Z) : option nat :=
  match s with
  | [] => None
  | b :: rest =>
      if b =? c then Some O
      else match memchr rest c with
           | Some k => Some (S k)
           | None => None
           end
  end.

Lemma memchr_bound (s : list Z) (c : Z) (k : nat) :
  memchr s c = Some k -> (k < length s)%nat.
Proof.
  revert k; induction s as [|b rest IH]; simpl; intros k H; [discriminate|].
  destruct (b =? c); [inversion H; lia|].
  destruct (memchr rest c) as [j|]; [|discriminate].
  inversion H; subst. specialize (IH j eq_refl). lia.
Qed.

(** A value together with the equation that names it, so that a loop can
    use what a test returned in its termination argument. *)
Definition with_eq {A} (a : A) : {b : A | a = b} := exist _ a eq_refl.

(** The extraction loop of [main]: [consumed] bytes of [rx_acc] are already
    split off; every line found ([line8], without its LF) is emitted in
    order. Returns the lines and the final [consumed]. *)
Equations? extract_lines (rx_acc : list Z) (consumed : nat) :
  list (list Z) * nat by wf (length rx_acc - consumed)%nat lt :=
extract_lines rx_acc consumed with with_eq (memchr (skipn consumed rx_acc) 10) := {
  | exist _ None _ => ([], consumed)
  | exist _ (Some linelen) Hpos =>
      let line8 := firstn linelen (skipn consumed rx_acc) in
      let '(lines, fin) := extract_lines rx_acc (consumed + linelen + 1)%nat in
      (line8 :: lines, fin) }.
Proof.
  apply memchr_bound in Hpos. rewrite length_skipn in Hpos. lia.
Qed.

(** One pass of the accumulator on the [m] normalised bytes [out]
    ([if (m) { ... }]): append, extract the complete lines, keep the rest. *)
Definition rx_feed (rx_acc : list Z) (out : list Z) : list (list Z) * list Z :=
  match out with
  | [] => ([], rx_acc)
  | _ :: _ =>
      let acc := rx_acc ++ out in
      let '(lines, consumed) := extract_lines acc 0 in
      (lines, skipn consumed acc)
  end.

(** The sizes of the buffers of [main]:
    [unsigned char in[4096], tmp[65536], out[65536];] *)
Definition IN_SIZE : Z := 4096.
Definition TMP_SIZE : Z := 65536.
Definition OUT_SIZE : Z := 65536.

(** ** The locale-dependent part of the C library *)

(** What [mbrtowc] returns: a character and the number [r] of bytes it took
    ([r = 0] for the null character), [(size_t)-2] or [(size_t)-1]. *)
Inductive mb_result :=
| MbChar (wc : Z) (r : nat)
| MbIncomplete
| MbInvalid.

(** The functions of the C library whose result depends on the locale set
    by [setlocale(LC_ALL, "")]; [mbrtowc] is given the C string at [p] and
    [wcrtomb] returns the bytes of a character, or [None] for
    [(size_t)-1]. *)
Class Locale := {
  wcwidth : Z -> Z;
  iswpunct : Z -> bool;
  iswprint : Z -> bool;
  towupper : Z -> Z;
  mbrtowc : list Z -> mb_result;
  wcrtomb : Z -> option (list Z) }.

(** [tolower] on a byte, as in the C and UTF-8 locales: only A-Z change. *)
Definition tolower (c : Z) : Z :=
  if (65 <=? c) && (c <=? 90) then c + 32 else c.

Section Wide.
Context {L : Locale}.

(** ** Wide helpers *)

(** The bytes skipped by one turn of the loop of [utf8_to_wcs_lossy]. *)
Definition mb_advance (m : mb_result) : nat :=
  match m with
  | MbChar _ r => if (r =? 0)%nat then 2%nat else r
  | MbIncomplete | MbInvalid => 1%nat
  end.

(** The character stored by one turn of the loop of [utf8_to_wcs_lossy]. *)
Definition mb_char (m : mb_result) : Z :=
  match m with
  | MbChar wc r => if (r =? 0)%nat then 0 else wc
  | MbIncomplete | MbInvalid => 63
  end.

(** The loop of [utf8_to_wcs_lossy] (while [*p] is not NUL), [p] being the
    rest of the C string: the characters written to [out]. *)
Equations? utf8_loop (p : list Z) : list Z by wf (length p) lt :=
utf8_loop [] := [];
utf8_loop (b :: rest) :=
  let m := mbrtowc (b :: rest) in
  mb_char m :: utf8_loop (skipn (mb_advance m) (b :: rest)).
Proof.
  assert (H : (1 <= mb_advance m)%nat).
  { unfold mb_advance. destruct m as [wc r| |]; try lia.
    destruct (Nat.eqb_spec r 0); lia. }
  rewrite length_skipn. simpl length. lia.
Qed.

(** [utf8_to_wcs_lossy(s)]: the wide string read back from [out]. *)
Definition utf8_to_wcs_lossy (s : list Z) : list Z := cstr (utf8_loop (cstr s)).

(** [int w = wcwidth(ch); if (w<0) w=1;] *)
Definition cell_width (ch : Z) : Z :=
  let w := wcwidth ch in if w <? 0 then 1 else w.

(** The loop of [expand_tabs_wcs] from the current character on, at visual
    column [col]. *)
Fixpoint expand_tabs_loop (tabstop : Z) (input : list Z) (col : Z) : list Z :=
  match input with
  | [] => []
  | ch :: rest =>
      if ch =? 9 then
        let next := if 0 <? tabstop then (Z.quot col tabstop + 1) * tabstop
                    else col + 1 in
        let spaces := if next - col <? 1 then 1 else next - col in
        repeat 32 (Z.to_nat spaces) ++ expand_tabs_loop tabstop rest next
      else ch :: expand_tabs_loop tabstop rest (col + cell_width ch)
  end.

Definition expand_tabs_wcs (input : list Z) (tabstop : Z) : list Z :=
  expand_tabs_loop tabstop input 0.

Definition TABSTOP : Z := 8.

(** ** Wrap *)

(** [ch==L' ' || iswpunct(ch)] *)
Definition is_break (ch : Z) : bool := (ch =? 32) || iswpunct ch.

(** The variables of the inner loop of [wrap_and_push_wide] when it stops. *)
Record scan := {
  sc_i : nat; sc_col : Z; sc_overflow : bool;
  sc_last_break : Z; sc_col_at_last_break : Z }.

(** The inner [while (i < len)] of [wrap_and_push_wide]; [rest] is the line
    from index [i] on. *)
Fixpoint wrap_scan (width : Z) (rest : list Z) (i : nat) (col : Z)
  (last_break col_at_last_break : Z) : scan :=
  match rest with
  | [] => {| sc_i := i; sc_col := col; sc_overflow := false;
             sc_last_break := last_break;
             sc_col_at_last_break := col_at_last_break |}
  | ch :: rest' =>
      let w := cell_width ch in
      let lb := if is_break ch then Z.of_nat i else last_break in
      let cb := if is_break ch then col + w else col_at_last_break in
      if width <? col + w
      then {| sc_i := i; sc_col := col; sc_overflow := true;
              sc_last_break := lb; sc_col_at_last_break := cb |}
      else if col + w =? width
      then {| sc_i := S i; sc_col := col + w; sc_overflow := false;
              sc_last_break := lb; sc_col_at_last_break := cb |}
      else wrap_scan width rest' (S i) (col + w) lb cb
  end.

(** [size_t end = i; if (overflow) { ... }]: where the segment that starts
    at [start] is cut. *)
Definition segment_end (start : nat) (s : scan) : nat :=
  if sc_overflow s then
    if (Z.of_nat start <=? sc_last_break s) && (0 <? sc_col_at_last_break s)
    then (Z.to_nat (sc_last_break s) + 1)%nat
    else if (sc_i s =? start)%nat then (start + 1)%nat
    else sc_i s
  else sc_i s.

(** [while (end < len && line[end]==L' ') end++;], [rest] being the line
    from index [e] on. *)
Fixpoint skip_spaces (rest : list Z) (e : nat) : nat :=
  match rest with
  | ch :: rest' => if ch =? 32 then skip_spaces rest' (S e) else e
  | [] => e
  end.

(** One turn of the outer loop from [start]: the [end] of the segment and
    the index [i] of the next turn. *)
Definition wrap_cut (width : Z) (line : list Z) (start : nat) : nat * nat :=
  let s := wrap_scan width (skipn start line) start 0 (-1) 0 in
  let e := segment_end start s in
  (e, skip_spaces (skipn e line) e).

Lemma wrap_scan_i_ge (width : Z) (rest : list Z) :
  forall i col lb cb, (i <= sc_i (wrap_scan width rest i col lb cb))%nat.
Proof.
  induction rest as [|ch rest IH]; simpl; intros i col lb cb; [lia|].
  destruct (width <? col + cell_width ch); simpl; [lia|].
  destruct (col + cell_width ch =? width); simpl; [lia|].
  specialize (IH (S i) (col + cell_width ch)
    (if is_break ch then Z.of_nat i else lb)
    (if is_break ch then col + cell_width ch else cb)). lia.
Qed.

Lemma wrap_scan_progress (width : Z) (ch : Z) (rest : list Z) :
  forall i col lb cb,
    sc_overflow (wrap_scan width (ch :: rest) i col lb cb) = false ->
    (i < sc_i (wrap_scan width (ch :: rest) i col lb cb))%nat.
Proof.
  intros i col lb cb. simpl.
  destruct (width <? col + cell_width ch); simpl; [discriminate|].
  destruct (col + cell_width ch =? width); simpl; [lia|].
  intros _.
  pose proof (wrap_scan_i_ge width rest (S i) (col + cell_width ch)
    (if is_break ch then Z.of_nat i else lb)
    (if is_break ch then col + cell_width ch else cb)). lia.
Qed.

Lemma skip_spaces_ge (rest : list Z) : forall e, (e <= skip_spaces rest e)%nat.
Proof.
  induction rest as [|ch rest IH]; simpl; intros e; [lia|].
  destruct (ch =? 32); [|lia]. specialize (IH (S e)). lia.
Qed.

(** Every turn of the outer loop takes at least one character. *)
Lemma wrap_cut_progress (width : Z) (line : list Z) (start : nat) :
  (start < length line)%nat ->
  (start < fst (wrap_cut width line start))%nat /\
  (fst (wrap_cut width line start) <= snd (wrap_cut width line start))%nat.
Proof.
  intros Hlt. unfold wrap_cut. cbn [fst snd]. split; [|apply skip_spaces_ge].
  destruct (skipn start line) as [|ch rest] eqn:Hs.
  { apply (f_equal (@length Z)) in Hs. rewrite length_skipn in Hs.
    simpl in Hs. lia. }
  pose proof (wrap_scan_i_ge width (ch :: rest) start 0 (-1) 0) as Hge.
  pose proof (@wrap_scan_progress width ch rest start 0 (-1) 0) as Hpr.
  set (s := wrap_scan width (ch :: rest) start 0 (-1) 0) in *.
  unfold segment_end.
  destruct (sc_overflow s).
  - destruct (Z.of_nat start <=? sc_last_break s) eqn:Hb; cbn [andb].
    + destruct (0 <? sc_col_at_last_break s).
      * apply Z.leb_le in Hb. lia.
      * destruct (Nat.eqb_spec (sc_i s) start); lia.
    + destruct (Nat.eqb_spec (sc_i s) start); lia.
  - apply Hpr. reflexivity.
Qed.

(** The outer [while (i < len)] of [wrap_and_push_wide]: the segments [seg]
    handed to [push_visual_w], in order. *)
Equations? wrap_from (width : Z) (line : list Z) (i : nat) :
  list (list Z) by wf (length line - i)%nat lt :=
wrap_from width line i with lt_dec i (length line) := {
  | left Hlt =>
      firstn (fst (wrap_cut width line i) - i) (skipn i line)
        :: wrap_from width line (snd (wrap_cut width line i))
  | right _ => [] }.
Proof.
  pose proof (wrap_cut_progress width line i Hlt) as H.
  unfold wrap_cut in H. cbn [fst snd] in H. lia.
Qed.

(** [if (width < 1) width = 1;] *)
Definition clamp_width (width : Z) : Z := if width <? 1 then 1 else width.

(** The visual lines of one logical line, as [wrap_and_push_wide] pushes
    them. *)
Definition wrap_segments (line : list Z) (width : Z) : list (list Z) :=
  wrap_from (clamp_width width) line 0.

(** ** Store and visual ring *)

Definition STORE_MAX : Z := 20000.
Definition VIS_MAX : Z := 200000.

(** The globals of the output pane: [store[0..store_count)],
    [visual[0..vis_count)], [view_top], and the terminal size [rows], [cols]. *)
Record display := {
  store : list (list Z);
  visual : list (list Z);
  view_top : Z;
  rows : Z;
  cols : Z }.

Definition store_count (d : display) : Z := zlen (store d).
Definition vis_count (d : display) : Z := zlen (visual d).

(** [int visible = rows-2; if (visible<1) visible=1;] *)
Definition visible_rows (d : display) : Z :=
  if rows d - 2 <? 1 then 1 else rows d - 2.

(** [int max_top = vis_count - visible; if (max_top<0) max_top=0;] *)
Definition max_top (d : display) : Z :=
  if vis_count d - visible_rows d <? 0 then 0 else vis_count d - visible_rows d.

Definition set_view_top (d : display) (v : Z) : display :=
  {| store := store d; visual := visual d; view_top := v;
     rows := rows d; cols := cols d |}.

Definition push_visual_w (d : display) (s : list Z) : display :=
  if vis_count d <? VIS_MAX
  then {| store := store d; visual := visual d ++ [s];
          view_top := view_top d; rows := rows d; cols := cols d |}
  else {| store := store d; visual := tl (visual d) ++ [s];
          view_top := if 0 <? view_top d then view_top d - 1 else view_top d;
          rows := rows d; cols := cols d |}.

Definition wrap_and_push_wide (d : display) (line : list Z) (width : Z) : display :=
  fold_left push_visual_w (wrap_segments line width) d.

(** [view_top = vis_count - visible; if (view_top<0) view_top=0;] *)
Definition to_bottom (d : display) : display := set_view_top d (max_top d).

Definition add_logical_line_w (d : display) (line : list Z) (follow : bool) : display :=
  let d1 :=
    if store_count d <? STORE_MAX
    then {| store := store d ++ [line]; visual := visual d;
            view_top := view_top d; rows := rows d; cols := cols d |}
    else {| store := tl (store d) ++ [line]; visual := visual d;
            view_top := view_top d; rows := rows d; cols := cols d |} in
  let d2 := wrap_and_push_wide d1 line (cols d1 - 1) in
  if follow then to_bottom d2 else d2.

Definition free_visual (d : display) : display :=
  {| store := store d; visual := []; view_top := view_top d;
     rows := rows d; cols := cols d |}.

Definition reflow (d : display) (keep_bottom : bool) : display :=
  let d1 := free_visual d in
  let d2 := fold_left (fun a line => wrap_and_push_wide a line (cols d - 1))
                      (store d1) d1 in
  if keep_bottom then to_bottom d2
  else
    let v1 := if max_top d2 <? view_top d2 then max_top d2 else view_top d2 in
    set_view_top d2 (if v1 <? 0 then 0 else v1).

(** What [render_out] does to the state: it clamps [view_top] from above. *)
Definition render_out (d : display) : display :=
  if max_top d <? view_top d then set_view_top d (max_top d) else d.

(** [view_top + visible >= vis_count-1] *)
Definition is_following (d : display) : bool :=
  vis_count d - 1 <=? view_top d + visible_rows d.

(** [local_echo_line(src)] *)
Definition local_echo_line (d : display) (src : list Z) : display :=
  let follow := is_following d in
  render_out (add_logical_line_w d (62 :: 32 :: src) follow).

(** A resize as [main] serves it: [getmaxyx] gives the new size, then
    [reflow(keep_bottom)] and [render_out]. *)
Definition resize (d : display) (new_rows new_cols : Z) : display :=
  let d1 := {| store := store d; visual := visual d; view_top := view_top d;
               rows := new_rows; cols := new_cols |} in
  render_out (reflow d1 (is_following d1)).

(** The scroll keys of [main]. *)
Definition key_ppage (d : display) : display :=
  let v := view_top d - Z.quot (visible_rows d) 2 in
  render_out (set_view_top d (if v <? 0 then 0 else v)).

Definition key_npage (d : display) : display :=
  let v := view_top d + Z.quot (visible_rows d) 2 in
  render_out (set_view_top d (if max_top d <? v then max_top d else v)).

Definition key_home (d : display) : display := render_out (set_view_top d 0).

Definition key_end (d : display) : display := render_out (to_bottom d).

Definition key_up (d : display) : display :=
  render_out (if 0 <? view_top d then set_view_top d (view_top d - 1) else d).

Definition key_down (d : display) : display :=
  render_out (if view_top d <? max_top d then set_view_top d (view_top d + 1)
              else d).

(** The pane before the first line: the rings are empty and [ui_init] has
    read the terminal size. *)
Definition display_init (r c : Z) : display :=
  {| store := []; visual := []; view_top := 0; rows := r; cols := c |}.

(** One received line as [main] shows it: [follow], decode, expand the
    tabs, append. *)
Definition show_line (d : display) (line8 : list Z) : display :=
  let follow := is_following d in
  let w := utf8_to_wcs_lossy line8 in
  let wt := expand_tabs_wcs w TABSTOP in
  add_logical_line_w d wt follow.

(** ** The input row *)

(** The loop of [tail_offset_fit], from the last character down:
    [rev_rest] is [buf[0..i]] read backwards, [col] and [start] are the
    variables of the loop; a character that is taken sets [start] to its
    index, the number of characters before it. *)
Fixpoint tail_scan (maxcols : Z) (rev_rest : list Z) (col : Z) (start : nat)
  : nat :=
  match rev_rest with
  | [] => start
  | ch :: before =>
      let w := cell_width ch in
      if maxcols <? col + w then start
      else tail_scan maxcols before (col + w) (length before)
  end.

(** [tail_offset_fit(buf, maxcols)], [buf] being a wide C string. *)
Definition tail_offset_fit (buf : list Z) (maxcols : Z) : nat :=
  if maxcols <=? 0 then length (cstr buf)
  else tail_scan maxcols (rev (cstr buf)) 0 (length (cstr buf)).

(** [strlen(PROMPT)] *)
Definition PROMPT_LEN : Z := 2.

(** [int room = cols - (int)strlen(PROMPT) - 1; if (room < 0) room = 0;] *)
Definition input_room (d : display) : Z :=
  if cols d - PROMPT_LEN - 1 <? 0 then 0 else cols d - PROMPT_LEN - 1.

(** What [render_input] writes after the prompt: [buf + start]. *)
Definition render_input (d : display) (buf : list Z) : list Z :=
  skipn (tail_offset_fit buf (input_room d)) (cstr buf).

End Wide.

(** ** Low-level output *)

(** What one [write] on the socket does: it takes [w] bytes, is
    interrupted ([EINTR]), or fails. *)
Inductive write_outcome :=
| WBytes (w : nat)
| WEintr
| WFail.

(** [write_all(fd, buf, len)] on the successive outcomes [ws] of [write]:
    the bytes that reached the socket and whether [len] (true) or -1
    (false) is returned; [None] while the loop is still running when the
    outcomes are used up. A [write] takes at most the bytes it is given. *)
Fixpoint write_all (ws : list write_outcome) (buf : list Z) (wire : list Z)
  : option (list Z * bool) :=
  match buf with
  | [] => Some (wire, true)
  | _ :: _ =>
      match ws with
      | [] => None
      | WBytes w :: later =>
          write_all later (skipn w buf) (wire ++ firstn w buf)
      | WEintr :: later => write_all later buf wire
      | WFail :: _ => Some (wire, false)
      end
  end.

(** ** Strings and transmit helpers *)

(** The bytes of a string literal of the source. *)
Fixpoint bytes (s : string) : list Z :=
  match s with
  | EmptyString => []
  | String a rest => Z.of_N (N_of_ascii a) :: bytes rest
  end.

(** [strncasecmp(s1, s2, n) == 0] on two C strings (the byte after the end
    of a string is its NUL). *)
Fixpoint strncasecmp_eq (s1 s2 : list Z) (n : nat) : bool :=
  match n with
  | O => true
  | S n' =>
      let c1 := hd 0 s1 in
      let c2 := hd 0 s2 in
      if tolower c1 =? tolower c2
      then if c1 =? 0 then true else strncasecmp_eq (tl s1) (tl s2) n'
      else false
  end.

(** The [for] loop of [istrstr] from [p] on: the suffix of the haystack at
    the first match, [None] for [NULL]. *)
Fixpoint istrstr_loop (p needle : list Z) : option (list Z) :=
  match p with
  | [] => None
  | c :: rest =>
      if (tolower c =? tolower (hd 0 needle))
         && strncasecmp_eq p needle (length needle)
      then Some p
      else istrstr_loop rest needle
  end.

Definition istrstr (hay needle : list Z) : option (list Z) :=
  match needle with
  | [] => Some hay
  | _ :: _ => istrstr_loop hay needle
  end.

Definition found {A} (o : option A) : bool :=
  match o with Some _ => true | None => false end.

(** [memcmp]-style test that [p] begins with [needle]. *)
Fixpoint starts_with (needle p : list Z) : bool :=
  match needle, p with
  | [], _ => true
  | _ :: _, [] => false
  | n :: ns, c :: cs => (c =? n) && starts_with ns cs
  end.

(** [strstr(hay, needle) != NULL] of the C library. *)
Fixpoint strstr (hay needle : list Z) : bool :=
  starts_with needle hay ||
  match hay with
  | [] => false
  | _ :: rest => strstr rest needle
  end.

(** The options of the command line that the session reads. *)
Record options := {
  opt_cr_only : bool;
  opt_upper : bool;
  opt_auto_help : bool;
  opt_local_echo : bool;
  opt_pass_ctrl_z : bool;
  opt_ctrlz_append_cr : bool;
  unlock_delay_ms : Z;
  unlock_quiet_ms : Z }.

(** The values the globals start with. *)
Definition default_options : options :=
  {| opt_cr_only := false; opt_upper := false; opt_auto_help := true;
     opt_local_echo := true; opt_pass_ctrl_z := true;
     opt_ctrlz_append_cr := false;
     unlock_delay_ms := 1200; unlock_quiet_ms := 300 |}.

Definition send_eol (o : options) (tx : list Z) : list Z :=
  if opt_cr_only o then tx ++ [13] else tx ++ [13; 10].

(** [write_telnet_safe]: every byte is written, an IAC twice. *)
Fixpoint write_telnet_safe (s : list Z) (tx : list Z) : list Z :=
  match s with
  | [] => tx
  | c :: rest =>
      let tx1 := tx ++ [c] in
      write_telnet_safe rest (if c =? IAC then tx1 ++ [c] else tx1)
  end.

Definition send_line_utf8_telnet_safe (o : options) (s : list Z) (tx : list Z)
  : list Z :=
  send_eol o (write_telnet_safe (cstr s) tx).

(** ** Time *)

Record timespec := { tv_sec : Z; tv_nsec : Z }.

(** [since_ms(a, b)]; the division of C truncates towards zero. *)
Definition since_ms (a b : timespec) : Z :=
  (tv_sec b - tv_sec a) * 1000 + Z.quot (tv_nsec b - tv_nsec a) 1000000.

(** ** Autologin *)

Record autologin_prompt_t := {
  alp_enabled : bool; alp_state : Z;
  alp_user : list Z; alp_pass : list Z }.

Record autologin_blind_t := {
  alb_enabled : bool; alb_stage : Z;
  alb_t0 : timespec; alb_t_pass : timespec;
  alb_du_ms : Z; alb_dp_ms : Z;
  alb_user : list Z; alb_pass : list Z }.

Definition alp_set_state (al : autologin_prompt_t) (st : Z) : autologin_prompt_t :=
  {| alp_enabled := alp_enabled al; alp_state := st;
     alp_user := alp_user al; alp_pass := alp_pass al |}.

Definition login_marker (recent : list Z) : bool :=
  found (istrstr recent (bytes "login:"))
  || found (istrstr recent (bytes "user:"))
  || found (istrstr recent (bytes "callsign:")).

Definition password_marker (recent : list Z) : bool :=
  found (istrstr recent (bytes "password:"))
  || found (istrstr recent (bytes "pass:"))
  || found (istrstr recent (bytes "pw:"))
  || found (istrstr recent (bytes "enter password")).

(** [autologin_try_prompt(al, recent)], [recent] being a C string. *)
Definition autologin_try_prompt (o : options) (al : autologin_prompt_t)
  (recent : list Z) (tx : list Z) : autologin_prompt_t * list Z :=
  if negb (alp_enabled al) || (2 <=? alp_state al) then (al, tx)
  else if alp_state al =? 0 then
    if login_marker recent
    then (alp_set_state al 1, send_line_utf8_telnet_safe o (alp_user al) tx)
    else (al, tx)
  else if alp_state al =? 1 then
    if password_marker recent
    then (alp_set_state al 2, send_line_utf8_telnet_safe o (alp_pass al) tx)
    else (al, tx)
  else (al, tx).

(** [autologin_try_blind(ab)]; [now] is what [clock_gettime] returns. *)
Definition autologin_try_blind (o : options) (ab : autologin_blind_t)
  (now : timespec) (tx : list Z) : autologin_blind_t * list Z :=
  if negb (alb_enabled ab) || (2 <=? alb_stage ab) then (ab, tx)
  else
    let ms := since_ms (alb_t0 ab) now in
    if (alb_stage ab =? 0) && (alb_du_ms ab <=? ms)
    then ({| alb_enabled := alb_enabled ab; alb_stage := 1;
             alb_t0 := alb_t0 ab; alb_t_pass := alb_t_pass ab;
             alb_du_ms := alb_du_ms ab; alb_dp_ms := alb_dp_ms ab;
             alb_user := alb_user ab; alb_pass := alb_pass ab |},
          send_line_utf8_telnet_safe o (alb_user ab) tx)
    else if (alb_stage ab =? 1) && (alb_dp_ms ab <=? ms)
    then ({| alb_enabled := alb_enabled ab; alb_stage := 2;
             alb_t0 := alb_t0 ab; alb_t_pass := now;
             alb_du_ms := alb_du_ms ab; alb_dp_ms := alb_dp_ms ab;
             alb_user := alb_user ab; alb_pass := alb_pass ab |},
          send_line_utf8_telnet_safe o (alb_pass ab) tx)
    else (ab, tx).

Definition timespec0 : timespec := {| tv_sec := 0; tv_nsec := 0 |}.

(** The two machines as the argument loop of [main] leaves them: [-u] and
    [-p] fill the credentials of both and enable the prompt machine,
    [--blind-auto] enables the blind one and gets the delays 150 and 1000;
    [None] is the exit when a credential is missing. *)
Definition configure (user pass : option (list Z)) (blind_auto : bool)
  : option (autologin_prompt_t * autologin_blind_t) :=
  let u := match user with Some s => firstn 127 (cstr s) | None => [] end in
  let p := match pass with Some s => firstn 127 (cstr s) | None => [] end in
  let alp_on := match user, pass with None, None => false | _, _ => true end in
  if (alp_on || blind_auto)
     && (match u with [] => true | _ => false end
         || match p with [] => true | _ => false end)
  then None
  else Some ({| alp_enabled := alp_on; alp_state := 0;
                alp_user := u; alp_pass := p |},
             {| alb_enabled := blind_auto; alb_stage := 0;
                alb_t0 := timespec0; alb_t_pass := timespec0;
                alb_du_ms := if blind_auto then 150 else 0;
                alb_dp_ms := if blind_auto then 1000 else 0;
                alb_user := u; alb_pass := p |}).

(** ** The session loop of [main] *)

Section Session.
Context {L : Locale}.

(** The locals of [main] that live across the iterations of the loop,
    together with the globals of the pane and the transmit log. *)
Record session := {
  s_tp : telnet_parser_t;
  s_rx_acc : list Z;
  s_disp : display;
  s_recent : list Z;
  s_alp : autologin_prompt_t;
  s_alb : autologin_blind_t;
  s_last_rx : timespec;
  input_locked : bool;
  login_done_flag : bool;
  t_login_done : timespec;
  auto_help_sent : bool;
  s_ibuf : list Z;
  s_tx : list Z }.

Definition set_disp (s : session) (d : display) : session :=
  {| s_tp := s_tp s; s_rx_acc := s_rx_acc s; s_disp := d;
     s_recent := s_recent s; s_alp := s_alp s; s_alb := s_alb s;
     s_last_rx := s_last_rx s; input_locked := input_locked s;
     login_done_flag := login_done_flag s; t_login_done := t_login_done s;
     auto_help_sent := auto_help_sent s; s_ibuf := s_ibuf s; s_tx := s_tx s |}.

Definition set_tx (s : session) (tx : list Z) : session :=
  {| s_tp := s_tp s; s_rx_acc := s_rx_acc s; s_disp := s_disp s;
     s_recent := s_recent s; s_alp := s_alp s; s_alb := s_alb s;
     s_last_rx := s_last_rx s; input_locked := input_locked s;
     login_done_flag := login_done_flag s; t_login_done := t_login_done s;
     auto_help_sent := auto_help_sent s; s_ibuf := s_ibuf s; s_tx := tx |}.

Definition set_ibuf (s : session) (b : list Z) : session :=
  {| s_tp := s_tp s; s_rx_acc := s_rx_acc s; s_disp := s_disp s;
     s_recent := s_recent s; s_alp := s_alp s; s_alb := s_alb s;
     s_last_rx := s_last_rx s; input_locked := input_locked s;
     login_done_flag := login_done_flag s; t_login_done := t_login_done s;
     auto_help_sent := auto_help_sent s; s_ibuf := b; s_tx := s_tx s |}.

Definition set_locked (s : session) (b : bool) : session :=
  {| s_tp := s_tp s; s_rx_acc := s_rx_acc s; s_disp := s_disp s;
     s_recent := s_recent s; s_alp := s_alp s; s_alb := s_alb s;
     s_last_rx := s_last_rx s; input_locked := b;
     login_done_flag := login_done_flag s; t_login_done := t_login_done s;
     auto_help_sent := auto_help_sent s; s_ibuf := s_ibuf s; s_tx := s_tx s |}.

(** What [select] and [read] hand to one iteration: nothing to read (or
    [EINTR]), a failed [select], the bytes of a [read] (none at end of
    file), a failed [read]. *)
Inductive sock_event :=
| SockIdle
| SockSelectError
| SockRead (data : list Z)
| SockReadError.

(** Everything one iteration takes from outside: a pending resize with the
    new terminal size, the socket, the monotonic clock at each place that
    reads it, a key ([get_wch] not returning [ERR]) and the terminal size
    found after a suspension. *)
Record wake := {
  w_resize : option (Z * Z);
  w_sock : sock_event;
  w_now_blind : timespec;
  w_now_rx : timespec;
  w_now_done : timespec;
  w_now_quiet : timespec;
  w_now_unlock : timespec;
  w_key : option Z;
  w_resume : Z * Z }.

(** [char recent[8192]] *)
Definition RECENT_SIZE : Z := 8192.

(** The update of the window [recent[0..rlen)] with the [m] bytes [out],
    terminator included: when the window is full the NUL replaces its last
    byte. *)
Definition recent_update (recent out : list Z) : list Z :=
  let m := zlen out in
  let rlen := zlen recent in
  let chunk := if RECENT_SIZE <? m then RECENT_SIZE else m in
  let kept :=
    if RECENT_SIZE <? rlen + chunk then
      let sh := rlen + chunk - RECENT_SIZE in
      let sh := if rlen <? sh then rlen else sh in
      skipn (Z.to_nat sh) recent
    else recent in
  let filled := kept ++ skipn (Z.to_nat (m - chunk)) out in
  if zlen filled <? RECENT_SIZE then filled
  else firstn (Z.to_nat (RECENT_SIZE - 1)) filled ++ [0].

(** The markers of the quiet-period rule. *)
Definition prompt_like (recent : list Z) : bool :=
  strstr recent (bytes "} ")
  || strstr recent (bytes "> ")
  || strstr recent (bytes "# ")
  || strstr recent (bytes ": ")
  || found (istrstr recent (bytes "connected to bbs")).

(** [if (alb.enabled && alb.stage<2) autologin_try_blind(&alb);] *)
Definition blind_phase (o : options) (s : session) (w : wake) : session :=
  if alb_enabled (s_alb s) && (alb_stage (s_alb s) <? 2) then
    let '(ab, tx) := autologin_try_blind o (s_alb s) (w_now_blind w) (s_tx s) in
    {| s_tp := s_tp s; s_rx_acc := s_rx_acc s; s_disp := s_disp s;
       s_recent := s_recent s; s_alp := s_alp s; s_alb := ab;
       s_last_rx := s_last_rx s; input_locked := input_locked s;
       login_done_flag := login_done_flag s; t_login_done := t_login_done s;
       auto_help_sent := auto_help_sent s; s_ibuf := s_ibuf s; s_tx := tx |}
  else s.

(** The body of [if (sr>0 && FD_ISSET(sockfd,&rfds))] after a [read] of
    [n > 0] bytes. *)
Definition rx_phase (o : options) (s : session) (w : wake) (data : list Z)
  : session :=
  let fr := telnet_filter_and_reply (s_tp s) data TMP_SIZE in
  let out := normalize_incoming (f_out fr) OUT_SIZE in
  let tx0 := s_tx s ++ f_tx fr in
  match out with
  | [] =>
      {| s_tp := f_tp fr; s_rx_acc := s_rx_acc s; s_disp := s_disp s;
         s_recent := s_recent s; s_alp := s_alp s; s_alb := s_alb s;
         s_last_rx := s_last_rx s; input_locked := input_locked s;
         login_done_flag := login_done_flag s; t_login_done := t_login_done s;
         auto_help_sent := auto_help_sent s; s_ibuf := s_ibuf s; s_tx := tx0 |}
  | _ :: _ =>
      let '(lines, acc) := rx_feed (s_rx_acc s) out in
      let disp := fold_left show_line lines (s_disp s) in
      let last_rx := w_now_rx w in
      let recent := recent_update (s_recent s) out in
      let try_prompt := alp_enabled (s_alp s) && (alp_state (s_alp s) <? 2) in
      let '(al, tx1) :=
        if try_prompt
        then autologin_try_prompt o (s_alp s) (cstr recent) tx0
        else (s_alp s, tx0) in
      let done := try_prompt && (alp_state al =? 2) in
      let locked :=
        if input_locked s && prompt_like (cstr recent)
        then if unlock_quiet_ms o <=? since_ms last_rx (w_now_quiet w)
             then false else input_locked s
        else input_locked s in
      {| s_tp := f_tp fr; s_rx_acc := acc; s_disp := render_out disp;
         s_recent := recent; s_alp := al; s_alb := s_alb s;
         s_last_rx := last_rx; input_locked := locked;
         login_done_flag := if done then true else login_done_flag s;
         t_login_done := if done then w_now_done w else t_login_done s;
         auto_help_sent := auto_help_sent s; s_ibuf := s_ibuf s; s_tx := tx1 |}
  end.

(** The release of the lock after the login:
    [if (input_locked && (login_done_flag || alb.stage==2))]. *)
Definition unlock_phase (o : options) (s : session) (w : wake) : session :=
  if input_locked s && (login_done_flag s || (alb_stage (s_alb s) =? 2)) then
    let t0 := if login_done_flag s then t_login_done s
              else alb_t_pass (s_alb s) in
    if unlock_delay_ms o <=? since_ms t0 (w_now_unlock w)
    then set_locked s false else s
  else s.

(** The question mark sent once the input is free. *)
Definition auto_help_phase (o : options) (s : session) : session :=
  if negb (input_locked s) && negb (auto_help_sent s) && opt_auto_help o then
    {| s_tp := s_tp s; s_rx_acc := s_rx_acc s; s_disp := s_disp s;
       s_recent := s_recent s; s_alp := s_alp s; s_alb := s_alb s;
       s_last_rx := s_last_rx s; input_locked := input_locked s;
       login_done_flag := login_done_flag s; t_login_done := t_login_done s;
       auto_help_sent := true; s_ibuf := s_ibuf s;
       s_tx := send_line_utf8_telnet_safe o (bytes "?") (s_tx s) |}
  else s.

(** The key codes of curses.h that [main] tests. *)
Definition KEY_F10 : Z := 274.
Definition KEY_SUSPEND : Z := 407.
Definition KEY_PPAGE : Z := 339.
Definition KEY_NPAGE : Z := 338.
Definition KEY_HOME : Z := 262.
Definition KEY_END : Z := 360.
Definition KEY_UP : Z := 259.
Definition KEY_DOWN : Z := 258.
Definition KEY_BACKSPACE : Z := 263.
Definition KEY_DC : Z := 330.

(** [wchar_t ibuf[4096]] *)
Definition IBUF_SIZE : Z := 4096.

(** The loop that encodes the submitted line with [wcrtomb], [left] bytes
    being free in [out8]. *)
Fixpoint encode_loop (src : list Z) (left : Z) : list Z :=
  match src with
  | [] => []
  | wc :: rest =>
      let buf := match wcrtomb wc with Some b => b | None => [63] end in
      if left <? zlen buf then []
      else buf ++ encode_loop rest (left - zlen buf)
  end.

(** Enter: the line goes out unless the input is locked; the buffer is
    cleared either way. *)
Definition submit (o : options) (s : session) : session :=
  let s1 :=
    if negb (input_locked s) then
      let src := if opt_upper o then cstr (map towupper (cstr (s_ibuf s)))
                 else cstr (s_ibuf s) in
      let d := if opt_local_echo o then local_echo_line (s_disp s) src
               else s_disp s in
      let out8 := encode_loop src (4 * zlen src + 1) in
      set_tx (set_disp s d)
             (send_eol o (write_telnet_safe (cstr out8) (s_tx s)))
    else s in
  set_ibuf s1 [].

(** Control-Z: the SUB byte to the node, or the suspension of the process
    followed by the redraw at the size found on return. *)
Definition ctrl_z (o : options) (s : session) (w : wake) : session :=
  if opt_pass_ctrl_z o then
    let d := if opt_local_echo o then local_echo_line (s_disp s) [94; 90]
             else s_disp s in
    let tx1 := write_telnet_safe [26] (s_tx s) in
    set_tx (set_disp s d) (if opt_ctrlz_append_cr o then send_eol o tx1 else tx1)
  else
    set_disp s (resize (s_disp s) (fst (w_resume w)) (snd (w_resume w))).

(** The keyboard part of one iteration; [None] when the key ends the
    program. *)
Definition key_phase (o : options) (s : session) (w : wake) : option session :=
  match w_key w with
  | None => Some s
  | Some wch =>
      if (wch =? KEY_F10) || (wch =? 3) then None
      else if (wch =? 26) || (wch =? KEY_SUSPEND) then Some (ctrl_z o s w)
      else if wch =? KEY_PPAGE then Some (set_disp s (key_ppage (s_disp s)))
      else if wch =? KEY_NPAGE then Some (set_disp s (key_npage (s_disp s)))
      else if wch =? KEY_HOME then Some (set_disp s (key_home (s_disp s)))
      else if wch =? KEY_END then Some (set_disp s (key_end (s_disp s)))
      else if wch =? KEY_UP then Some (set_disp s (key_up (s_disp s)))
      else if wch =? KEY_DOWN then Some (set_disp s (key_down (s_disp s)))
      else if (wch =? 10) || (wch =? 13) then Some (submit o s)
      else if (wch =? KEY_BACKSPACE) || (wch =? 127) || (wch =? 8)
      then Some (set_ibuf s (removelast (s_ibuf s)))
      else if wch =? KEY_DC then Some (set_ibuf s (removelast (s_ibuf s)))
      else if iswprint wch then
        Some (if zlen (s_ibuf s) <? IBUF_SIZE - 1
              then set_ibuf s (s_ibuf s ++ [wch]) else s)
      else Some s
  end.

(** One iteration of [for(;;)]; [None] when the program ends in it. *)
Definition step (o : options) (s : session) (w : wake) : option session :=
  let s1 := match w_resize w with
            | Some (r, c) => set_disp s (resize (s_disp s) r c)
            | None => s
            end in
  match w_sock w with
  | SockSelectError => None
  | SockReadError => None
  | SockRead [] => None
  | SockRead (b :: data) =>
      let s2 := blind_phase o s1 w in
      let s3 := rx_phase o s2 w (b :: data) in
      key_phase o (auto_help_phase o (unlock_phase o s3 w)) w
  | SockIdle =>
      let s2 := blind_phase o s1 w in
      key_phase o (auto_help_phase o (unlock_phase o s2 w)) w
  end.

(** The iterations of the loop on a list of wakes, while the program runs. *)
Fixpoint run (o : options) (s : session) (ws : list wake) : option session :=
  match ws with
  | [] => Some s
  | w :: rest =>
      match step o s w with
      | Some s' => run o s' rest
      | None => None
      end
  end.

(** The state in which [main] enters the loop: [now_rx] and [now_t0] are
    the two clock reads before it ([last_rx], [alb.t0]), [r] and [c] the
    size of the terminal. *)
Definition session_init (al : autologin_prompt_t) (ab : autologin_blind_t)
  (now_rx now_t0 : timespec) (r c : Z) : session :=
  {| s_tp := tp_init; s_rx_acc := []; s_disp := render_out (display_init r c);
     s_recent := [];
     s_alp := al;
     s_alb := if alb_enabled ab
              then {| alb_enabled := alb_enabled ab; alb_stage := alb_stage ab;
                      alb_t0 := now_t0; alb_t_pass := alb_t_pass ab;
                      alb_du_ms := alb_du_ms ab; alb_dp_ms := alb_dp_ms ab;
                      alb_user := alb_user ab; alb_pass := alb_pass ab |}
              else ab;
     s_last_rx := now_rx;
     input_locked := alp_enabled al || alb_enabled ab;
     login_done_flag := false; t_login_done := timespec0;
     auto_help_sent := false; s_ibuf := []; s_tx := [] |}.

(** [main] up to the loop: the machines as the options leave them, then
    the first state; [None] when the options are refused. *)
Definition start_session (user pass : option (list Z)) (blind_auto : bool)
  (now_rx now_t0 : timespec) (r c : Z) : option session :=
  match configure user pass blind_auto with
  | Some (al, ab) => Some (session_init al ab now_rx now_t0 r c)
  | None => None
  end.

Definition run_from (o : options) (s0 : option session) (ws : list wake)
  : option session :=
  match s0 with
  | Some s => run o s ws
  | None => None
  end.

(** A wake without resize in which every clock read returns [t]. *)
Definition wake_at (t : timespec) (e : sock_event) (k : option Z) : wake :=
  {| w_resize := None; w_sock := e;
     w_now_blind := t; w_now_rx := t; w_now_done := t;
     w_now_quiet := t; w_now_unlock := t;
     w_key := k; w_resume := (24, 80) |}.

(** The clock at [ms] milliseconds. *)
Definition at_ms (ms : Z) : timespec :=
  {| tv_sec := Z.quot ms 1000; tv_nsec := Z.rem ms 1000 * 1000000 |}.

End Session.

(** ** A locale to run the program on

    ASCII with the control characters unmeasurable, the CJK ideographs and
    the fullwidth forms two cells wide, and UTF-8 sequences of up to three
    bytes. It is only used to evaluate the program on concrete inputs. *)

Definition sample_wcwidth (c : Z) : Z :=
  if c =? 0 then 0
  else if (c <? 32) || ((127 <=? c) && (c <? 160)) then -1
  else if ((12288 <=? c) && (c <=? 40959)) || ((65281 <=? c) && (c <=? 65376))
  then 2
  else 1.

Definition sample_iswpunct (c : Z) : bool :=
  ((33 <=? c) && (c <=? 47)) || ((58 <=? c) && (c <=? 64))
  || ((91 <=? c) && (c <=? 96)) || ((123 <=? c) && (c <=? 126))
  || ((12289 <=? c) && (c <=? 12291)) || ((65281 <=? c) && (c <=? 65295)).

Definition sample_iswprint (c : Z) : bool :=
  (32 <=? c) && negb ((127 <=? c) && (c <? 160)).

Definition sample_towupper (c : Z) : Z :=
  if (97 <=? c) && (c <=? 122) then c - 32 else c.

Definition is_cont (b : Z) : bool := (128 <=? b) && (b <? 192).

Definition sample_mbrtowc (p : list Z) : mb_result :=
  match p with
  | [] => MbChar 0 0
  | b :: rest =>
      if b =? 0 then MbChar 0 0
      else if b <? 128 then MbChar b 1
      else if (194 <=? b) && (b <? 224) then
        match rest with
        | b1 :: _ => if is_cont b1 then MbChar ((b - 192) * 64 + (b1 - 128)) 2
                     else MbInvalid
        | [] => MbIncomplete
        end
      else if (224 <=? b) && (b <? 240) then
        match rest with
        | b1 :: b2 :: _ =>
            if is_cont b1 && is_cont b2
            then MbChar ((b - 224) * 4096 + (b1 - 128) * 64 + (b2 - 128)) 3
            else MbInvalid
        | [b1] => if is_cont b1 then MbIncomplete else MbInvalid
        | [] => MbIncomplete
        end
      else MbInvalid
  end.

Definition sample_wcrtomb (wc : Z) : option (list Z) :=
  if wc <? 0 then None
  else if wc <? 128 then Some [wc]
  else if wc <? 2048 then Some [192 + Z.quot wc 64; 128 + Z.rem wc 64]
  else if wc <? 65536
  then Some [224 + Z.quot wc 4096; 128 + Z.rem (Z.quot wc 64) 64;
             128 + Z.rem wc 64]
  else None.

Definition sample_locale : Locale :=
  {| wcwidth := sample_wcwidth; iswpunct := sample_iswpunct;
     iswprint := sample_iswprint; towupper := sample_towupper;
     mbrtowc := sample_mbrtowc; wcrtomb := sample_wcrtomb |}.

(** ** Successive reads *)

(** The accumulator fed with the normalised chunks of successive reads:
    all the lines emitted, in order, and the unterminated rest. *)
Fixpoint feed_all (rx_acc : list Z) (chunks : list (list Z))
  : list (list Z) * list Z :=
  match chunks with
  | [] => ([], rx_acc)
  | out :: later =>
      let '(lines, acc) := rx_feed rx_acc out in
      let '(lines', acc') := feed_all acc later in
      (lines ++ lines', acc')
  end.

(** The receive path of [main] on successive reads, up to the lines
    [line8]: filter, normalise, accumulate. *)
Fixpoint rx_reads (tp : telnet_parser_t) (rx_acc : list Z)
  (reads : list (list Z)) : list (list Z) * list Z :=
  match reads with
  | [] => ([], rx_acc)
  | data :: later =>
      let fr := telnet_filter_and_reply tp data TMP_SIZE in
      let out := normalize_incoming (f_out fr) OUT_SIZE in
      let '(lines, acc) := rx_feed rx_acc out in
      let '(lines', acc') := rx_reads (f_tp fr) acc later in
      (lines ++ lines', acc')
  end.

(** ** Successive evaluations of the blind machine *)

(** The blind machine along the iterations of the loop, one clock read
    each: the guard of [main], then [autologin_try_blind]. Returns what
    was sent at each evaluation and the machine at the end. *)
Fixpoint blind_ticks (o : options) (ab : autologin_blind_t)
  (nows : list timespec) : list (list Z) * autologin_blind_t :=
  match nows with
  | [] => ([], ab)
  | now :: later =>
      let '(ab1, sent) :=
        if alb_enabled ab && (alb_stage ab <? 2)
        then autologin_try_blind o ab now []
        else (ab, []) in
      let '(sents, ab2) := blind_ticks o ab1 later in
      (sent :: sents, ab2)
  end.

(* ===================================================================== *)
(** * Part II. The notions the properties are stated with                 *)
(* ===================================================================== *)

(** ** Streams *)

(** A run with [o0] already in the output buffer and [t0] already sent. *)
Definition shift_run (o0 t0 : list Z) (r : filter_run) : filter_run :=
  {| f_tp := f_tp r; f_out := o0 ++ f_out r; f_tx := t0 ++ f_tx r |}.

(** The normaliser with an output buffer that never fills. *)
Fixpoint normalize_all (input : list Z) : list Z :=
  match input with
  | [] => []
  | ch :: rest =>
      if ch =? 13 then
        match rest with
        | nxt :: rest' =>
            if nxt =? 10 then 10 :: normalize_all rest'
            else 10 :: normalize_all rest
        | [] => [10]
        end
      else if ch =? 10 then 10 :: normalize_all rest
      else ch :: normalize_all rest
  end.

(** The lines of a byte stream and its unterminated rest, read off the
    stream as a whole. *)
Fixpoint split_lf (s : list Z) : list (list Z) * list Z :=
  match s with
  | [] => ([], [])
  | c :: rest =>
      let '(ls, r) := split_lf rest in
      if c =? 10 then ([] :: ls, r)
      else match ls with
           | [] => ([], c :: r)
           | l :: ls' => ((c :: l) :: ls', r)
           end
  end.

(** ** Wrap and pane *)

Section WrapNotions.
Context {L : Locale}.

(** The display width of a run of characters, in cells. *)
Definition line_width (s : list Z) : Z :=
  fold_right (fun ch acc => cell_width ch + acc) 0 s.

(** What the inner loop of the wrap knows about the last break opportunity
    when [n] characters of [all], the line from [start] on, have been
    taken: none yet, or one among those characters, with the width of the
    segment cut after it, which fits. *)
Definition break_info (width : Z) (start : nat) (all : list Z)
  (lb cb : Z) (n : nat) : Prop :=
  lb = -1 \/
  (Z.of_nat start <= lb /\ (Z.to_nat lb < start + n)%nat /\
   cb = line_width (firstn (Z.to_nat lb + 1 - start) all) /\ cb <= width).

(** The break opportunities of a line are at most one cell wide. *)
Definition narrow_breaks (line : list Z) : Prop :=
  forall ch, In ch line -> is_break ch = true -> cell_width ch <= 1.

(** A visual line fits, or is a single character wider than the pane. *)
Definition fits_or_forced (width : Z) (seg : list Z) : Prop :=
  line_width seg <= width \/ exists ch, seg = [ch] /\ width < cell_width ch.

(** The spaces skipped after the segments are put back. *)
Definition rejoin (segs : list (list Z)) (gaps : list nat) : list Z :=
  concat (map (fun p => fst p ++ repeat 32 (snd p)) (combine segs gaps)).

End WrapNotions.


(** ** Autologin *)

(** Evaluations of the blind machine at which nothing is sent. *)
Definition silent (nows : list timespec) : list (list Z) :=
  map (fun _ => @nil Z) nows.

(** [m] occurs in [hay], letter case aside. *)
Definition ci_occurs (m hay : list Z) : Prop :=
  exists pre w post, hay = pre ++ w ++ post /\ map tolower w = map tolower m.

(** The markers [autologin_try_prompt] looks for, by state. *)
Definition login_markers : list (list Z) :=
  [bytes "login:"; bytes "user:"; bytes "callsign:"].

Definition password_markers : list (list Z) :=
  [bytes "password:"; bytes "pass:"; bytes "pw:"; bytes "enter password"].

(** One of the markers [ms] occurs in [recent], letter case aside. *)
Definition any_marker (ms : list (list Z)) (recent : list Z) : Prop :=
  exists m, In m ms /\ ci_occurs m recent.

(** ** Inputs of the examples *)


(** The machines of a session started with [-u U -p P --blind-auto]. *)
Definition blind_al : autologin_prompt_t :=
  {| alp_enabled := true; alp_state := 0;
     alp_user := bytes "U"; alp_pass := bytes "P" |}.

Definition blind_ab : autologin_blind_t :=
  {| alb_enabled := true; alb_stage := 0;
     alb_t0 := timespec0; alb_t_pass := timespec0;
     alb_du_ms := 150; alb_dp_ms := 1000;
     alb_user := bytes "U"; alb_pass := bytes "P" |}.

(** The session of the failing input of C4: prompt autologin with the
    default options; the two bytes of a prompt arrive 10 ms after the
    start, then the line stays quiet and the loop wakes at 2000 ms with
    nothing to read and no key. *)
Definition quiet_session : option session :=
  run_from (L := sample_locale) default_options
    (start_session (Some (bytes "U")) (Some (bytes "P")) false
                   (at_ms 0) (at_ms 0) 24 80)
    [wake_at (at_ms 10) (SockRead (bytes "> ")) None;
     wake_at (at_ms 2000) SockIdle None].

(** A start time one nanosecond before a full second, and the clock
    149.000001 ms later. *)
Definition blind_t0 : timespec := {| tv_sec := 0; tv_nsec := 999999999 |}.
Definition blind_t1 : timespec := {| tv_sec := 1; tv_nsec := 149000000 |}.

(** A session started with [-u U -p P --blind-auto] at [blind_t0], woken
    once, at [blind_t1], with nothing to read and no key. *)
Definition early_blind_session : option session :=
  run_from (L := sample_locale) default_options
    (start_session (Some (bytes "U")) (Some (bytes "P")) true
                   (at_ms 0) blind_t0 24 80)
    [wake_at blind_t1 SockIdle None].

(** A session started with [-u U -p P --blind-auto] at 0 ms: the node
    prompts login: at 10 ms, the loop wakes at 150 ms and at 1000 ms with
    nothing to read, and the node prompts password: at 1200 ms. The session
    after the first [n] of these wakes. *)
Definition prompted_blind_session (n : nat) : option session :=
  run_from (L := sample_locale) default_options
    (start_session (Some (bytes "U")) (Some (bytes "P")) true
                   (at_ms 0) (at_ms 0) 24 80)
    (firstn n
       [wake_at (at_ms 10) (SockRead (bytes "login:")) None;
        wake_at (at_ms 150) SockIdle None;
        wake_at (at_ms 1000) SockIdle None;
        wake_at (at_ms 1200) (SockRead (bytes "password:")) None]).

(** A session started with [-u N0CALL -p SECRET] that reads the greeting
    Welcome followed by [sep], and then the prompt login: and a space. *)
Definition greeted_session (sep : list Z) : option session :=
  run_from (L := sample_locale) default_options
    (start_session (Some (bytes "N0CALL")) (Some (bytes "SECRET")) false
                   (at_ms 0) (at_ms 0) 24 80)
    [wake_at (at_ms 10) (SockRead (bytes "Welcome" ++ sep)) None;
     wake_at (at_ms 20) (SockRead (bytes "login: ")) None].

(** A pane of forty short lines on a terminal of 24 rows and 80 columns,
    scrolled back to its sixth line. *)
Definition scrolled_pane : display :=
  {| store := repeat [65] 40; visual := repeat [65] 40;
     view_top := 5; rows := 24; cols := 80 |}.

(** A session that starts with both login machines on, its input
    locked. *)
Definition locked_session : session :=
  session_init blind_al blind_ab timespec0 timespec0 24 80.

(** The same session once the input is free, with the word hi typed. *)
Definition typing_session : session :=
  set_ibuf (set_locked locked_session false) (bytes "hi").

(** A session whose prompt machine has answered both prompts: the login
    is done 20 ms after the start and the input is still locked. *)
Definition logged_in_session : option session :=
  run_from (L := sample_locale) default_options
    (start_session (Some (bytes "U")) (Some (bytes "P")) false
                   (at_ms 0) (at_ms 0) 24 80)
    [wake_at (at_ms 10) (SockRead (bytes "login:")) None;
     wake_at (at_ms 20) (SockRead (bytes "password:")) None].

(** ** Further notions *)

(** A transmit log made of refusals only: triples IAC WONT opt and
    IAC DONT opt. *)
Definition refusals (tx : list Z) : Prop :=
  exists l : list (Z * Z),
    tx = concat (map (fun p => [IAC; fst p; snd p]) l) /\
    Forall (fun p => fst p = WONT \/ fst p = DONT) l.

(** The last [n] entries of a list. *)
Definition keep_last {A} (n : Z) (l : list A) : list A :=
  skipn (Z.to_nat (zlen l - n)) l.

(** The session [s'] is not behind [s]: neither login machine has moved
    back, no flag set in [s] is cleared, and the machines are enabled and
    hold the credentials as before. *)
Definition not_behind (s s' : session) : Prop :=
  alp_state (s_alp s) <= alp_state (s_alp s') /\
  alb_stage (s_alb s) <= alb_stage (s_alb s') /\
  (login_done_flag s = true -> login_done_flag s' = true) /\
  (auto_help_sent s = true -> auto_help_sent s' = true) /\
  (alp_enabled (s_alp s'), alp_user (s_alp s'), alp_pass (s_alp s'))
  = (alp_enabled (s_alp s), alp_user (s_alp s), alp_pass (s_alp s)) /\
  (alb_enabled (s_alb s'), alb_user (s_alb s'), alb_pass (s_alb s'))
  = (alb_enabled (s_alb s), alb_user (s_alb s), alb_pass (s_alb s)).

(** The bound of [wchar_t ibuf[4096]], one place being kept for the
    terminator. *)
Definition ibuf_ok (s : session) : Prop := zlen (s_ibuf s) <= IBUF_SIZE - 1.

(** Every character of [src] encoded on its own: the bytes of [wcrtomb],
    a question mark where it fails. *)
Definition encode_all {L : Locale} (src : list Z) : list Z :=
  concat (map (fun wc => match wcrtomb wc with Some b => b | None => [63] end)
              src).

(** A character that survives the wire: it is neither the null character
    nor a tab, [wcrtomb] gives it one to four bytes, none of them NUL, CR
    or LF, and [mbrtowc] reads it back from them. *)
Definition wire_safe {L : Locale} (wc : Z) : Prop :=
  wc <> 0 /\ wc <> 9 /\
  exists bs,
    wcrtomb wc = Some bs /\ bs <> [] /\ zlen bs <= 4 /\
    Forall (fun b => b <> 0 /\ b <> 10 /\ b <> 13) bs /\
    forall rest, mbrtowc (bs ++ rest) = MbChar wc (length bs).

(** The time from [a] to [b] in nanoseconds. *)
Definition ns_between (a b : timespec) : Z :=
  (tv_sec b - tv_sec a) * 1000000000 + (tv_nsec b - tv_nsec a).

(* ===================================================================== *)
(** * Part III. Properties                                                *)
(* ===================================================================== *)

Lemma zlen_app {A} (l1 l2 : list A) : zlen (l1 ++ l2) = zlen l1 + zlen l2.
Proof. unfold zlen. rewrite length_app. lia. Qed.

Lemma zlen_cons {A} (a : A) (l : list A) : zlen (a :: l) = zlen l + 1.
Proof. unfold zlen. simpl length. lia. Qed.

Lemma zlen_nonneg {A} (l : list A) : 0 <= zlen l.
Proof. unfold zlen. lia. Qed.

Lemma zlen_nil {A} : zlen (@nil A) = 0.
Proof. reflexivity. Qed.

(** Lengths of explicit appends and conses, pushed to the leaves. *)
Ltac zlen_norm :=
  repeat first [rewrite zlen_app | rewrite zlen_cons | rewrite zlen_nil].

Lemma put_room (outcap : Z) (out : list Z) (ch : Z) :
  zlen out < outcap -> put outcap out ch = out ++ [ch].
Proof.
  intros H. unfold put. destruct (Z.ltb_spec (zlen out) outcap); [reflexivity|lia].
Qed.

Lemma put_length (outcap : Z) (out : list Z) (ch : Z) :
  zlen (put outcap out ch) <= zlen out + 1.
Proof.
  unfold put. destruct (zlen out <? outcap); [rewrite zlen_app|];
    unfold zlen; simpl; lia.
Qed.

(** ** The Telnet filter *)

Section TelnetFilter.
Variable outcap : Z.

Lemma telnet_byte_out_length (r : filter_run) (ch : Z) :
  zlen (f_out (telnet_byte outcap r ch)) <= zlen (f_out r) + 1.
Proof.
  pose proof (put_length outcap (f_out r) ch).
  pose proof (put_length outcap (f_out r) IAC).
  unfold telnet_byte.
  repeat match goal with
         | |- context [match ?x with _ => _ end] => destruct x
         end; simpl; lia.
Qed.

Lemma telnet_run_out_length (input : list Z) :
  forall r, zlen (f_out (fold_left (telnet_byte outcap) input r))
            <= zlen (f_out r) + zlen input.
Proof.
  induction input as [|ch rest IH]; intros r; simpl fold_left.
  - unfold zlen at 3. simpl. lia.
  - specialize (IH (telnet_byte outcap r ch)).
    pose proof (telnet_byte_out_length r ch). rewrite zlen_cons. lia.
Qed.

(** While there is room, a byte is treated the same whatever the buffer
    already holds. *)
Lemma telnet_byte_shift (tp : telnet_parser_t) (o0 o1 t0 t1 : list Z) (ch : Z) :
  zlen (o0 ++ o1) < outcap ->
  telnet_byte outcap {| f_tp := tp; f_out := o0 ++ o1; f_tx := t0 ++ t1 |} ch
  = shift_run o0 t0
      (telnet_byte outcap {| f_tp := tp; f_out := o1; f_tx := t1 |} ch).
Proof.
  intros Hroom.
  assert (Hroom1 : zlen o1 < outcap).
  { rewrite zlen_app in Hroom. pose proof (zlen_nonneg o0). lia. }
  unfold telnet_byte, shift_run, telnet_send3. cbn [f_tp f_out f_tx].
  rewrite !(put_room outcap (o0 ++ o1) _ Hroom), !(put_room outcap o1 _ Hroom1).
  repeat match goal with
         | |- context [match ?x with _ => _ end] => destruct x
         end; cbn [f_tp f_out f_tx]; rewrite <- ?app_assoc; reflexivity.
Qed.

Lemma telnet_run_shift (input : list Z) :
  forall tp o0 o1 t0 t1,
    zlen (o0 ++ o1) + zlen input <= outcap ->
    fold_left (telnet_byte outcap) input
      {| f_tp := tp; f_out := o0 ++ o1; f_tx := t0 ++ t1 |}
    = shift_run o0 t0
        (fold_left (telnet_byte outcap) input
           {| f_tp := tp; f_out := o1; f_tx := t1 |}).
Proof.
  induction input as [|ch rest IH]; intros tp o0 o1 t0 t1 Hroom.
  - reflexivity.
  - rewrite zlen_cons in Hroom. pose proof (zlen_nonneg rest).
    simpl fold_left. rewrite telnet_byte_shift by lia.
    pose proof (telnet_byte_out_length
                  {| f_tp := tp; f_out := o1; f_tx := t1 |} ch) as Hlen.
    destruct (telnet_byte outcap {| f_tp := tp; f_out := o1; f_tx := t1 |} ch)
      as [tp' o1' t1'].
    unfold shift_run at 1. cbn [f_tp f_out f_tx] in *.
    apply IH. rewrite zlen_app in *. lia.
Qed.

(** The parser state and the replies do not depend on the output buffer. *)
Lemma telnet_byte_control (r r' : filter_run) (t0 : list Z) (ch : Z) :
  f_tp r = f_tp r' -> f_tx r = t0 ++ f_tx r' ->
  f_tp (telnet_byte outcap r ch) = f_tp (telnet_byte outcap r' ch) /\
  f_tx (telnet_byte outcap r ch) = t0 ++ f_tx (telnet_byte outcap r' ch).
Proof.
  destruct r as [tp o t], r' as [tp' o' t']. cbn [f_tp f_tx].
  intros <- ->. unfold telnet_byte, telnet_send3. cbn [f_tp f_out f_tx].
  repeat match goal with
         | |- context [match ?x with _ => _ end] => destruct x
         end; cbn [f_tp f_out f_tx]; rewrite <- ?app_assoc; auto.
Qed.

Lemma telnet_run_control (input : list Z) :
  forall r r' t0,
    f_tp r = f_tp r' -> f_tx r = t0 ++ f_tx r' ->
    f_tp (fold_left (telnet_byte outcap) input r)
      = f_tp (fold_left (telnet_byte outcap) input r') /\
    f_tx (fold_left (telnet_byte outcap) input r)
      = t0 ++ f_tx (fold_left (telnet_byte outcap) input r').
Proof.
  induction input as [|ch rest IH]; intros r r' t0 Htp Htx; cbn [fold_left].
  - auto.
  - destruct (telnet_byte_control r r' t0 ch Htp Htx) as [Htp1 Htx1].
    now apply IH.
Qed.

(** C1. Chunked processing: filtering [B1] and then [B2] with the parser
    state carried over sends the same replies and ends in the same parser
    state as filtering [B1 ++ B2] in one call; and when the output buffer
    has room for the whole stream (as the 65536-byte buffer of [main] has
    for its reads of at most 4096 bytes), it gives the same data bytes. *)
Theorem telnet_filter_chunk_invariance
  (tp : telnet_parser_t) (B1 B2 : list Z) :
  let whole := telnet_filter_and_reply tp (B1 ++ B2) outcap in
  let first := telnet_filter_and_reply tp B1 outcap in
  let second := telnet_filter_and_reply (f_tp first) B2 outcap in
  f_tx whole = f_tx first ++ f_tx second /\
  f_tp whole = f_tp second /\
  (zlen (B1 ++ B2) <= outcap -> f_out whole = f_out first ++ f_out second).
Proof.
  intros whole first second.
  assert (Hctl : f_tp whole = f_tp second /\ f_tx whole = f_tx first ++ f_tx second).
  { unfold whole, second, telnet_filter_and_reply.
    rewrite fold_left_app. fold (telnet_filter_and_reply tp B1 outcap).
    fold first. apply telnet_run_control; [reflexivity|].
    cbn [f_tx]. now rewrite app_nil_r. }
  destruct Hctl as [Htp Htx].
  split; [exact Htx|]. split; [exact Htp|].
  intros Hroom.
  assert (Hw : whole = shift_run (f_out first) (f_tx first) second).
  { unfold whole, second, telnet_filter_and_reply.
    rewrite fold_left_app. fold (telnet_filter_and_reply tp B1 outcap).
    fold first.
    pose proof (telnet_run_out_length B1
                  {| f_tp := tp; f_out := []; f_tx := [] |}) as Hlen.
    fold (telnet_filter_and_reply tp B1 outcap) in Hlen. fold first in Hlen.
    cbn [f_out] in Hlen. change (zlen (@nil Z)) with 0 in Hlen.
    rewrite <- (telnet_run_shift B2 (f_tp first) (f_out first) [] (f_tx first) []).
    - rewrite !app_nil_r. destruct first; reflexivity.
    - rewrite app_nil_r. rewrite zlen_app in Hroom. lia. }
  rewrite Hw. reflexivity.
Qed.

End TelnetFilter.

(** Two reads of [main] always fit its output buffer. *)
Lemma main_buffers_have_room (B1 B2 : list Z) :
  zlen B1 <= IN_SIZE -> zlen B2 <= IN_SIZE -> zlen (B1 ++ B2) <= TMP_SIZE.
Proof. intros H1 H2. rewrite zlen_app. unfold IN_SIZE, TMP_SIZE in *. lia. Qed.

(** A stream cut inside the command IAC DO 42. *)
Lemma telnet_filter_chunk_invariance_witness :
  zlen ([65; 255] ++ [253; 42; 255; 255; 66]) <= TMP_SIZE /\
  f_out (telnet_filter_and_reply tp_init ([65; 255] ++ [253; 42; 255; 255; 66])
           TMP_SIZE) = [65] ++ [255; 66] /\
  f_tx (telnet_filter_and_reply tp_init ([65; 255] ++ [253; 42; 255; 255; 66])
          TMP_SIZE) = [] ++ [255; 252; 42].
Proof.
  assert (H : zlen ([65; 255] ++ [253; 42; 255; 255; 66]) <= TMP_SIZE)
    by (vm_compute; discriminate).
  split; [exact H|].
  destruct (@telnet_filter_chunk_invariance TMP_SIZE tp_init
              [65; 255] [253; 42; 255; 255; 66]) as (Ht & _ & Ho).
  split; [exact (Ho H) | exact Ht].
Defined.

(** C5. From the Data state and with room for one byte: [IAC IAC] gives the
    single data byte 0xFF and no reply; [IAC DO opt] gives the reply
    [IAC WONT opt], [IAC WILL opt] the reply [IAC DONT opt], [IAC DONT opt]
    and [IAC WONT opt] no reply, all four without data; each leaves the
    parser in the Data state. [IAC DO 42] in one read, and then an empty
    later read, send [IAC WONT 42], give no data and end in the Data
    state. *)
Theorem telnet_command_semantics (cmd0 opt outcap : Z) :
  0 < outcap ->
  let data := {| tp_state := 0; tp_cmd := cmd0 |} in
  telnet_filter_and_reply data [IAC; IAC] outcap
    = {| f_tp := {| tp_state := 0; tp_cmd := IAC |};
         f_out := [255]; f_tx := [] |} /\
  telnet_filter_and_reply data [IAC; DO_; opt] outcap
    = {| f_tp := {| tp_state := 0; tp_cmd := DO_ |};
         f_out := []; f_tx := [IAC; WONT; opt] |} /\
  telnet_filter_and_reply data [IAC; WILL; opt] outcap
    = {| f_tp := {| tp_state := 0; tp_cmd := WILL |};
         f_out := []; f_tx := [IAC; DONT; opt] |} /\
  telnet_filter_and_reply data [IAC; DONT; opt] outcap
    = {| f_tp := {| tp_state := 0; tp_cmd := DONT |};
         f_out := []; f_tx := [] |} /\
  telnet_filter_and_reply data [IAC; WONT; opt] outcap
    = {| f_tp := {| tp_state := 0; tp_cmd := WONT |};
         f_out := []; f_tx := [] |} /\
  (let first := telnet_filter_and_reply tp_init [IAC; DO_; 42] TMP_SIZE in
   let later := telnet_filter_and_reply (f_tp first) [] TMP_SIZE in
   f_tx first ++ f_tx later = [IAC; WONT; 42] /\
   f_out first ++ f_out later = [] /\
   tp_state (f_tp later) = 0).
Proof.
  intros Hcap data.
  assert (Hput : put outcap [] IAC = [255]).
  { rewrite put_room by exact Hcap. reflexivity. }
  unfold telnet_filter_and_reply, data. cbn [fold_left].
  unfold telnet_byte at 2 4 6 8 10. cbn.
  repeat split; try reflexivity.
  unfold telnet_byte. cbn. rewrite Hput. reflexivity.
Qed.

Lemma telnet_command_semantics_witness :
  0 < TMP_SIZE /\
  telnet_filter_and_reply tp_init [IAC; DO_; 1] TMP_SIZE
    = {| f_tp := {| tp_state := 0; tp_cmd := DO_ |};
         f_out := []; f_tx := [IAC; WONT; 1] |}.
Proof.
  assert (H : 0 < TMP_SIZE) by reflexivity.
  split; [exact H|].
  exact (proj1 (proj2 (@telnet_command_semantics 0 1 TMP_SIZE H))).
Defined.

(** ** The newline normaliser *)

(** Induction on a list two elements at a time, as the normaliser reads
    it. *)
Lemma list_pair_ind {A} (P : list A -> Prop) :
  P [] -> (forall a, P [a]) ->
  (forall a b l, P l -> P (b :: l) -> P (a :: b :: l)) ->
  forall l, P l.
Proof.
  intros H0 H1 H2 l.
  assert (H : P l /\ forall a, P (a :: l)).
  { induction l as [|b l [IH1 IH2]]; split; auto. }
  exact (proj1 H).
Qed.

Lemma normalize_loop_step (outcap ch : Z) (rest out : list Z) :
  normalize_loop outcap (ch :: rest) out =
  if ch =? 13 then
    match rest with
    | nxt :: rest' =>
        if nxt =? 10
        then normalize_loop outcap rest' (put outcap out 10)
        else normalize_loop outcap rest (put outcap out 10)
    | [] => normalize_loop outcap rest (put outcap out 10)
    end
  else if ch =? 10 then normalize_loop outcap rest (put outcap out 10)
  else normalize_loop outcap rest (put outcap out ch).
Proof. reflexivity. Qed.

Lemma normalize_all_step (ch : Z) (rest : list Z) :
  normalize_all (ch :: rest) =
  if ch =? 13 then
    match rest with
    | nxt :: rest' =>
        if nxt =? 10 then 10 :: normalize_all rest'
        else 10 :: normalize_all rest
    | [] => [10]
    end
  else if ch =? 10 then 10 :: normalize_all rest
  else ch :: normalize_all rest.
Proof. reflexivity. Qed.

Lemma normalize_loop_room (outcap : Z) (input : list Z) :
  forall out, zlen out + zlen input <= outcap ->
              normalize_loop outcap input out = out ++ normalize_all input.
Proof.
  induction input as [|a|a b l IHl IHbl] using list_pair_ind; intros out Hroom.
  - simpl. now rewrite app_nil_r.
  - rewrite zlen_cons in Hroom. change (zlen (@nil Z)) with 0 in Hroom.
    simpl. destruct (a =? 13); [|destruct (a =? 10)];
      rewrite put_room by lia; reflexivity.
  - rewrite !zlen_cons in Hroom. pose proof (zlen_nonneg l).
    assert (Hp : forall c, put outcap out c = out ++ [c])
      by (intros c; apply put_room; lia).
    assert (Hl : forall c, zlen (out ++ [c]) + zlen l <= outcap)
      by (intros c; rewrite zlen_app, zlen_cons; change (zlen (@nil Z)) with 0; lia).
    assert (Hbl : forall c, zlen (out ++ [c]) + zlen (b :: l) <= outcap)
      by (intros c; rewrite zlen_app, !zlen_cons; change (zlen (@nil Z)) with 0; lia).
    rewrite (normalize_loop_step outcap a (b :: l) out).
    rewrite (normalize_all_step a (b :: l)). cbv beta iota.
    destruct (a =? 13).
    + destruct (b =? 10); rewrite Hp.
      * rewrite IHl by apply Hl. now rewrite <- app_assoc.
      * rewrite IHbl by apply Hbl. now rewrite <- app_assoc.
    + destruct (a =? 10); rewrite Hp; rewrite IHbl by apply Hbl;
        now rewrite <- app_assoc.
Qed.

Lemma normalize_incoming_room (outcap : Z) (input : list Z) :
  zlen input <= outcap -> normalize_incoming input outcap = normalize_all input.
Proof.
  intros H. unfold normalize_incoming. rewrite normalize_loop_room; [reflexivity|].
  change (zlen (@nil Z)) with 0. lia.
Qed.

(** A CR is treated the same whatever precedes it. *)
Lemma normalize_all_app_cr (a t : list Z) :
  normalize_all (a ++ 13 :: t) = normalize_all a ++ normalize_all (13 :: t).
Proof.
  induction a as [|x|x y l IHl IHyl] using list_pair_ind.
  - reflexivity.
  - change ([x] ++ 13 :: t) with (x :: 13 :: t).
    cbn [normalize_all]. change (13 =? 10) with false. cbn iota.
    destruct (x =? 13); [|destruct (x =? 10)]; reflexivity.
  - change ((x :: y :: l) ++ 13 :: t) with (x :: y :: (l ++ 13 :: t)).
    rewrite (normalize_all_step x (y :: l ++ 13 :: t)).
    rewrite (normalize_all_step x (y :: l)). cbv beta iota.
    change (y :: l ++ 13 :: t) with ((y :: l) ++ 13 :: t).
    destruct (x =? 13).
    + destruct (y =? 10); [rewrite IHl | rewrite IHyl]; reflexivity.
    + destruct (x =? 10); rewrite IHyl; reflexivity.
Qed.

(** ** The RX accumulator *)

Lemma split_lf_no_lf (s : list Z) : ~ In 10 s -> split_lf s = ([], s).
Proof.
  induction s as [|c rest IH]; intros Hn; [reflexivity|].
  simpl. rewrite IH by (intros H; apply Hn; now right).
  destruct (Z.eqb_spec c 10) as [->|_]; [|reflexivity].
  exfalso. apply Hn. now left.
Qed.

Lemma split_lf_memchr_none (s : list Z) :
  memchr s 10 = None -> split_lf s = ([], s).
Proof.
  induction s as [|c rest IH]; simpl; intros H; [reflexivity|].
  destruct (c =? 10); [discriminate|].
  destruct (memchr rest 10); [discriminate|].
  now rewrite IH.
Qed.

Lemma split_lf_memchr_some (s : list Z) :
  forall k, memchr s 10 = Some k ->
            split_lf s = (firstn k s :: fst (split_lf (skipn (S k) s)),
                          snd (split_lf (skipn (S k) s))).
Proof.
  induction s as [|c rest IH]; simpl; intros k H; [discriminate|].
  destruct (c =? 10).
  - inversion H; subst. simpl. now destruct (split_lf rest).
  - destruct (memchr rest 10) as [j|]; [|discriminate].
    inversion H; subst. rewrite (IH j eq_refl). reflexivity.
Qed.

Lemma split_lf_clean (s : list Z) :
  Forall (fun line => ~ In 10 line) (fst (split_lf s)) /\ ~ In 10 (snd (split_lf s)).
Proof.
  induction s as [|c rest [IHl IHr]]; simpl; [split; [constructor|tauto]|].
  destruct (split_lf rest) as [ls r]. cbn [fst snd] in *.
  destruct (Z.eqb_spec c 10) as [->|Hc].
  - split; [constructor; [tauto|exact IHl]|exact IHr].
  - destruct ls as [|l ls']; cbn [fst snd].
    + split; [constructor|]. simpl. intros [H|H]; [congruence|tauto].
    + inversion IHl; subst. split; [|exact IHr].
      constructor; [|assumption]. simpl. intros [H|H]; [congruence|tauto].
Qed.

Lemma split_lf_concat (s : list Z) :
  concat (map (fun line => line ++ [10]) (fst (split_lf s))) ++ snd (split_lf s) = s.
Proof.
  induction s as [|c rest IH]; simpl; [reflexivity|].
  destruct (split_lf rest) as [ls r]. cbn [fst snd] in *.
  destruct (Z.eqb_spec c 10) as [->|Hc].
  - cbn [fst snd map concat app]. now rewrite IH.
  - destruct ls as [|l ls']; cbn [fst snd map concat app] in *; now rewrite IH.
Qed.

Lemma split_lf_app (a b : list Z) :
  split_lf (a ++ b)
  = (fst (split_lf a) ++ fst (split_lf (snd (split_lf a) ++ b)),
     snd (split_lf (snd (split_lf a) ++ b))).
Proof.
  induction a as [|c rest IH]; cbn [app].
  - simpl. now destruct (split_lf b).
  - cbn [split_lf]. rewrite IH. destruct (split_lf rest) as [ls r].
    cbn [fst snd].
    destruct (c =? 10) eqn:Hc; cbn [fst snd app].
    + reflexivity.
    + destruct ls as [|l ls']; cbn [fst snd app].
      * cbn [split_lf]. rewrite Hc.
        destruct (split_lf (r ++ b)) as [ls2 r2]. cbn [fst snd].
        now destruct ls2.
      * reflexivity.
Qed.

Lemma extract_lines_spec (rx_acc : list Z) (consumed : nat) :
  fst (extract_lines rx_acc consumed) = fst (split_lf (skipn consumed rx_acc)) /\
  skipn (snd (extract_lines rx_acc consumed)) rx_acc
    = snd (split_lf (skipn consumed rx_acc)).
Proof.
  funelim (extract_lines rx_acc consumed).
  - match goal with IH : _ /\ _ |- _ => destruct IH as [IHl IHr] end.
    match goal with
    | Hm : memchr _ 10 = Some _ |- _ => rewrite (split_lf_memchr_some _ _ Hm)
    end.
    cbn [fst snd]. rewrite skipn_skipn.
    replace (S linelen + consumed)%nat with (consumed + linelen + 1)%nat by lia.
    destruct (extract_lines rx_acc (consumed + linelen + 1)) as [lines fin].
    cbn [fst snd] in *. now rewrite IHl, IHr.
  - match goal with
    | Hm : memchr _ 10 = None |- _ => rewrite (split_lf_memchr_none _ Hm)
    end.
    split; reflexivity.
Qed.

Lemma rx_feed_spec (rx_acc out : list Z) :
  ~ In 10 rx_acc -> rx_feed rx_acc out = split_lf (rx_acc ++ out).
Proof.
  intros Hclean. unfold rx_feed. destruct out as [|b out'].
  - rewrite app_nil_r. symmetry. now apply split_lf_no_lf.
  - destruct (extract_lines_spec (rx_acc ++ b :: out') 0) as [Hl Hr].
    destruct (extract_lines (rx_acc ++ b :: out') 0) as [lines fin].
    cbn [fst snd skipn] in *. rewrite Hl, Hr. now destruct (split_lf _).
Qed.

(** Fed chunk by chunk, the accumulator emits the lines of the whole
    stream. *)
Lemma feed_all_spec (chunks : list (list Z)) :
  forall rx_acc, ~ In 10 rx_acc ->
                 feed_all rx_acc chunks = split_lf (rx_acc ++ concat chunks).
Proof.
  induction chunks as [|out later IH]; intros rx_acc Hclean.
  - simpl. rewrite app_nil_r. symmetry. now apply split_lf_no_lf.
  - cbn [feed_all concat]. rewrite rx_feed_spec by exact Hclean.
    rewrite app_assoc, (split_lf_app (rx_acc ++ out) (concat later)).
    pose proof (split_lf_clean (rx_acc ++ out)) as [_ Hrest].
    destruct (split_lf (rx_acc ++ out)) as [lines acc]. cbn [fst snd] in *.
    rewrite (IH acc Hrest). now destruct (split_lf (acc ++ concat later)).
Qed.

(** C2. Whatever chunks are fed to the accumulator, starting empty: no
    emitted line holds a line feed; the rest it keeps holds none either, so
    that every line that is complete has been emitted; and the emitted
    lines, each followed by a line feed, followed by the unterminated rest,
    are the concatenation of the chunks. The reads AB CR LF CD and then
    EF LF give the two lines AB and CDEF, as bytes out of the accumulator
    and as logical lines in the store of a session without autologin on a
    terminal of 24 rows and 80 columns. *)
Theorem rx_accumulator_lines (chunks : list (list Z)) :
  Forall (fun line => ~ In 10 line) (fst (feed_all [] chunks)) /\
  ~ In 10 (snd (feed_all [] chunks)) /\
  concat (map (fun line => line ++ [10]) (fst (feed_all [] chunks)))
    ++ snd (feed_all [] chunks) = concat chunks /\
  rx_reads tp_init [] [bytes "AB" ++ [13; 10] ++ bytes "CD"; bytes "EF" ++ [10]]
    = ([bytes "AB"; bytes "CDEF"], []) /\
  (forall now t1 t2,
     option_map (fun s => store (s_disp s))
       (run_from (L := sample_locale) default_options
          (start_session None None false now now 24 80)
          [wake_at t1 (SockRead (bytes "AB" ++ [13; 10] ++ bytes "CD")) None;
           wake_at t2 (SockRead (bytes "EF" ++ [10])) None])
     = Some [bytes "AB"; bytes "CDEF"]).
Proof.
  rewrite (feed_all_spec chunks [] (fun H => H)). cbn [app].
  split; [apply split_lf_clean|].
  split; [apply split_lf_clean|].
  split; [apply split_lf_concat|].
  split; [reflexivity|].
  intros now t1 t2. reflexivity.
Qed.

Lemma split_lf_one_line (r : list Z) :
  ~ In 10 r -> split_lf (r ++ [10]) = ([r], []).
Proof.
  induction r as [|c rest IH]; intros Hn; [reflexivity|].
  cbn [app split_lf]. rewrite IH by (intros H; apply Hn; now right).
  destruct (Z.eqb_spec c 10) as [->|_]; [|reflexivity].
  exfalso. apply Hn. now left.
Qed.

Lemma split_lf_terminated (s : list Z) : snd (split_lf (s ++ [10])) = [].
Proof.
  rewrite split_lf_app. cbn [snd].
  rewrite split_lf_one_line by apply split_lf_clean. reflexivity.
Qed.

(** C9. The normaliser keeps nothing between calls. When a chunk ends with
    CR and the next one begins with LF (and the output buffer has room for
    both), the two calls emit a line feed each where a single call on the
    concatenation emits one; fed to the accumulator, the two chunks give the
    lines of the single chunk with one more, empty, line at that place. *)
Theorem normalizer_not_split_invariant (a b : list Z) (outcap : Z) :
  zlen a + zlen b + 2 <= outcap ->
  let first := normalize_incoming (a ++ [13]) outcap in
  let second := normalize_incoming (10 :: b) outcap in
  let whole := normalize_incoming ((a ++ [13]) ++ 10 :: b) outcap in
  first ++ second
    = normalize_incoming a outcap ++ [10; 10] ++ normalize_incoming b outcap /\
  whole = normalize_incoming a outcap ++ [10] ++ normalize_incoming b outcap /\
  zlen (first ++ second) = zlen whole + 1 /\
  exists before after rest,
    feed_all [] [whole] = (before ++ after, rest) /\
    feed_all [] [first; second] = (before ++ [] :: after, rest).
Proof.
  intros Hroom first second whole.
  pose proof (zlen_nonneg a). pose proof (zlen_nonneg b).
  assert (Hf : first = normalize_all a ++ [10]).
  { unfold first. rewrite normalize_incoming_room.
    - now rewrite normalize_all_app_cr.
    - rewrite zlen_app, zlen_cons. change (zlen (@nil Z)) with 0. lia. }
  assert (Hs : second = 10 :: normalize_all b).
  { unfold second. rewrite normalize_incoming_room; [reflexivity|].
    rewrite zlen_cons. lia. }
  assert (Hw : whole = normalize_all a ++ 10 :: normalize_all b).
  { unfold whole. rewrite normalize_incoming_room.
    - rewrite <- app_assoc. cbn [app]. now rewrite normalize_all_app_cr.
    - rewrite !zlen_app, !zlen_cons. change (zlen (@nil Z)) with 0. lia. }
  rewrite !normalize_incoming_room by lia.
  rewrite Hf, Hs, Hw.
  split; [now rewrite <- app_assoc|].
  split; [reflexivity|].
  split; [zlen_norm; lia|].
  set (X := normalize_all a). set (Y := normalize_all b).
  exists (fst (split_lf (X ++ [10]))), (fst (split_lf Y)), (snd (split_lf Y)).
  rewrite !feed_all_spec by (intros []). cbn [app concat].
  rewrite !app_nil_r.
  replace (X ++ 10 :: Y) with ((X ++ [10]) ++ Y) by now rewrite <- app_assoc.
  replace ((X ++ [10]) ++ 10 :: Y) with ((X ++ [10]) ++ [10] ++ Y) by reflexivity.
  rewrite !(split_lf_app (X ++ [10])), split_lf_terminated. cbn [app].
  split; [reflexivity|].
  cbn [split_lf]. destruct (split_lf Y) as [ls r]. reflexivity.
Qed.

(** AB CR in one read and LF CD LF in the next give the lines AB, the empty
    line and CD; the same bytes in one read give AB and CD. *)
Lemma normalizer_not_split_invariant_witness :
  zlen (bytes "AB") + zlen (bytes "CD") + 2 <= OUT_SIZE /\
  normalize_incoming (bytes "AB" ++ [13]) OUT_SIZE
    ++ normalize_incoming (10 :: bytes "CD") OUT_SIZE
  = normalize_incoming (bytes "AB") OUT_SIZE ++ [10; 10]
    ++ normalize_incoming (bytes "CD") OUT_SIZE /\
  rx_reads tp_init [] [bytes "AB" ++ [13]; 10 :: bytes "CD" ++ [10]]
  = ([bytes "AB"; []; bytes "CD"], []) /\
  rx_reads tp_init [] [(bytes "AB" ++ [13]) ++ 10 :: bytes "CD" ++ [10]]
  = ([bytes "AB"; bytes "CD"], []).
Proof.
  assert (H : zlen (bytes "AB") + zlen (bytes "CD") + 2 <= OUT_SIZE)
    by (vm_compute; discriminate).
  split; [exact H|].
  split; [|split; reflexivity].
  exact (proj1 (normalizer_not_split_invariant (bytes "AB") (bytes "CD") OUT_SIZE H)).
Defined.

(** ** Wrap *)

Section WrapProps.
Context {L : Locale}.

Lemma cell_width_nonneg (ch : Z) : 0 <= cell_width ch.
Proof. unfold cell_width. destruct (Z.ltb_spec (wcwidth ch) 0); lia. Qed.

Lemma line_width_app (a b : list Z) :
  line_width (a ++ b) = line_width a + line_width b.
Proof. induction a as [|c a IH]; simpl; [reflexivity|]. rewrite IH. lia. Qed.

Lemma line_width_nonneg (s : list Z) : 0 <= line_width s.
Proof.
  induction s as [|c s IH]; simpl; [lia|].
  pose proof (cell_width_nonneg c). lia.
Qed.

Lemma firstn_snoc (pre rest : list Z) (ch : Z) :
  firstn (S (length pre)) (pre ++ ch :: rest) = pre ++ [ch].
Proof.
  replace (pre ++ ch :: rest) with ((pre ++ [ch]) ++ rest)
    by (rewrite <- app_assoc; reflexivity).
  replace (S (length pre)) with (length (pre ++ [ch]) + 0)%nat
    by (rewrite length_app; simpl; lia).
  rewrite firstn_app_2. simpl. now rewrite app_nil_r.
Qed.

Lemma firstn_exact (pre rest : list Z) : firstn (length pre) (pre ++ rest) = pre.
Proof.
  replace (length pre) with (length pre + 0)%nat by lia.
  rewrite firstn_app_2. simpl. now rewrite app_nil_r.
Qed.

Section Scan.
Variables (width : Z) (start : nat) (all : list Z).

Lemma break_info_weaken (lb cb : Z) (n m : nat) :
  (n <= m)%nat -> break_info width start all lb cb n -> break_info width start all lb cb m.
Proof. intros Hnm [H|(H1 & H2 & H3 & H4)]; [now left|right]. repeat split; auto; lia. Qed.

(** The invariant of the inner loop, for a line whose break opportunities
    are at most one cell wide. *)
Lemma wrap_scan_inv (rest : list Z) :
  forall pre lb cb,
    all = pre ++ rest ->
    line_width pre < width ->
    (forall ch, In ch rest -> is_break ch = true -> cell_width ch <= 1) ->
    break_info width start all lb cb (length pre) ->
    let s := wrap_scan width rest (start + length pre) (line_width pre) lb cb in
    (start + length pre <= sc_i s <= start + length all)%nat /\
    sc_col s = line_width (firstn (sc_i s - start) all) /\
    sc_col s <= width /\
    (sc_overflow s = true ->
     exists ch, nth_error all (sc_i s - start) = Some ch /\
                width < sc_col s + cell_width ch) /\
    break_info width start all (sc_last_break s) (sc_col_at_last_break s) (sc_i s - start).
Proof.
  induction rest as [|ch rest' IH]; intros pre lb cb Hall Hcol Hbrk Hinfo.
  - cbn [wrap_scan]. cbn [sc_i sc_col sc_overflow sc_last_break sc_col_at_last_break].
    rewrite app_nil_r in Hall.
    replace (start + length pre - start)%nat with (length pre) by lia.
    split; [rewrite Hall; lia|].
    split; [rewrite Hall, firstn_all; reflexivity|].
    split; [lia|]. split; [discriminate|exact Hinfo].
  - pose proof (cell_width_nonneg ch) as Hw0.
    pose proof (line_width_nonneg pre) as Hp0.
    assert (Hlen : length all = (length pre + S (length rest'))%nat)
      by (rewrite Hall, length_app; reflexivity).
    assert (Hnew : is_break ch = true ->
                   break_info width start all (Z.of_nat (start + length pre))
                              (line_width pre + cell_width ch) (S (length pre))).
    { intros Hb. right. rewrite Nat2Z.id.
      replace (start + length pre + 1 - start)%nat with (S (length pre)) by lia.
      split; [lia|]. split; [lia|].
      specialize (Hbrk ch (or_introl eq_refl) Hb).
      split; [|lia].
      rewrite Hall, firstn_snoc, line_width_app. simpl. lia. }
    assert (Hinfo' : break_info width start all
              (if is_break ch then Z.of_nat (start + length pre) else lb)
              (if is_break ch then line_width pre + cell_width ch else cb)
              (S (length pre))).
    { destruct (is_break ch); [now apply Hnew|].
      apply (break_info_weaken lb cb (length pre)); [lia|exact Hinfo]. }
    cbn [wrap_scan]. cbv zeta.
    destruct (Z.ltb_spec width (line_width pre + cell_width ch)) as [Hov|Hfit].
    + cbn [sc_i sc_col sc_overflow sc_last_break sc_col_at_last_break].
      replace (start + length pre - start)%nat with (length pre) by lia.
      assert (Hnb : is_break ch = false).
      { destruct (is_break ch) eqn:Hb; [|reflexivity].
        specialize (Hbrk ch (or_introl eq_refl) Hb). lia. }
      rewrite Hnb.
      split; [lia|].
      split; [rewrite Hall, firstn_exact; reflexivity|].
      split; [lia|].
      split; [|exact Hinfo].
      intros _. exists ch. split; [|lia].
      rewrite Hall, nth_error_app2 by lia. now rewrite Nat.sub_diag.
    + destruct (Z.eqb_spec (line_width pre + cell_width ch) width) as [Heq|Hne].
      * cbn [sc_i sc_col sc_overflow sc_last_break sc_col_at_last_break].
        replace (S (start + length pre) - start)%nat with (S (length pre)) by lia.
        split; [lia|].
        split; [rewrite Hall, firstn_snoc, line_width_app; simpl; lia|].
        split; [lia|]. split; [discriminate|exact Hinfo'].
      * specialize (IH (pre ++ [ch])
          (if is_break ch then Z.of_nat (start + length pre) else lb)
          (if is_break ch then line_width pre + cell_width ch else cb)).
        rewrite length_app, line_width_app in IH. simpl in IH.
        replace (start + (length pre + 1))%nat with (S (start + length pre)) in IH by lia.
        replace (line_width pre + (cell_width ch + 0))
          with (line_width pre + cell_width ch) in IH by lia.
        replace (length pre + 1)%nat with (S (length pre)) in IH by lia.
        destruct IH as (Hi & Hc & Hle & Hof & Hbi).
        -- rewrite <- app_assoc. exact Hall.
        -- lia.
        -- intros c Hin. apply Hbrk. now right.
        -- exact Hinfo'.
        -- split; [lia|]. split; [exact Hc|]. split; [exact Hle|].
           split; [exact Hof|exact Hbi].
Qed.

End Scan.

Lemma narrow_breaks_skipn (line : list Z) (n : nat) :
  narrow_breaks line -> narrow_breaks (skipn n line).
Proof.
  intros H ch Hin. apply H. rewrite <- (firstn_skipn n line).
  apply in_or_app. now right.
Qed.

Lemma wrap_cut_segment (width : Z) (line : list Z) (start : nat) :
  1 <= width -> (start < length line)%nat -> narrow_breaks line ->
  fits_or_forced width
    (firstn (fst (wrap_cut width line start) - start) (skipn start line)).
Proof.
  intros Hw Hlt Hnb. unfold wrap_cut. cbn [fst].
  pose proof (wrap_scan_inv width start (skipn start line) (skipn start line)
                [] (-1) 0 eq_refl) as Hinv.
  cbn [length line_width fold_right] in Hinv. rewrite Nat.add_0_r in Hinv.
  specialize (Hinv ltac:(lia) (narrow_breaks_skipn line start Hnb)
                   (or_introl eq_refl)).
  cbv zeta in Hinv.
  set (s := wrap_scan width (skipn start line) start 0 (-1) 0) in *.
  destruct Hinv as (Hi & Hc & Hle & Hof & Hbi). clearbody s.
  unfold segment_end, fits_or_forced.
  destruct (sc_overflow s); [|left; rewrite <- Hc; exact Hle].
  assert (Hforced : sc_i s = start ->
            exists ch, firstn (start + 1 - start) (skipn start line) = [ch]
                       /\ width < cell_width ch).
  { intros Heq. destruct (Hof eq_refl) as (ch & Hnth & Hwide).
    rewrite Heq in Hnth, Hc. rewrite Nat.sub_diag in Hnth, Hc.
    cbn [firstn line_width fold_right] in Hc.
    exists ch. split; [|lia].
    replace (start + 1 - start)%nat with 1%nat by lia.
    destruct (skipn start line) as [|c0 tl0]; [discriminate|].
    simpl in Hnth. inversion Hnth; subst. reflexivity. }
  destruct (Z.leb_spec (Z.of_nat start) (sc_last_break s)) as [Hlb|Hlb];
    cbn [andb].
  - destruct (Z.ltb_spec 0 (sc_col_at_last_break s)) as [Hcb|Hcb].
    + left. destruct Hbi as [Hno|(_ & _ & Heq & Hfit)]; [lia|].
      rewrite <- Heq. exact Hfit.
    + destruct (Nat.eqb_spec (sc_i s) start) as [Heq|Hne].
      * right. now apply Hforced.
      * left. rewrite <- Hc. exact Hle.
  - destruct (Nat.eqb_spec (sc_i s) start) as [Heq|Hne].
    + right. now apply Hforced.
    + left. rewrite <- Hc. exact Hle.
Qed.

Lemma skip_spaces_spec (rest : list Z) :
  forall e, rest = repeat 32 (skip_spaces rest e - e)
                   ++ skipn (skip_spaces rest e - e) rest.
Proof.
  induction rest as [|ch rest' IH]; intros e; cbn [skip_spaces].
  - rewrite Nat.sub_diag. reflexivity.
  - destruct (Z.eqb_spec ch 32) as [->|Hne].
    + pose proof (skip_spaces_ge rest' (S e)) as Hge.
      replace (skip_spaces rest' (S e) - e)%nat
        with (S (skip_spaces rest' (S e) - S e)) by lia.
      cbn [repeat skipn app]. f_equal. apply IH.
    + rewrite Nat.sub_diag. reflexivity.
Qed.

(** One turn of the outer loop splits the rest of the line into the
    segment, the spaces skipped and the rest left to the next turns. *)
Lemma wrap_cut_split (width : Z) (line : list Z) (i : nat) :
  (i < length line)%nat ->
  skipn i line
  = firstn (fst (wrap_cut width line i) - i) (skipn i line)
    ++ repeat 32 (snd (wrap_cut width line i) - fst (wrap_cut width line i))
    ++ skipn (snd (wrap_cut width line i)) line.
Proof.
  intros Hlt. destruct (wrap_cut_progress width line i Hlt) as [Hie Hen].
  set (e := fst (wrap_cut width line i)) in *.
  set (n := snd (wrap_cut width line i)) in *.
  rewrite <- (firstn_skipn (e - i) (skipn i line)) at 1. f_equal.
  rewrite skipn_skipn. replace (e - i + i)%nat with e by lia.
  assert (Hn : n = skip_spaces (skipn e line) e) by reflexivity.
  rewrite (skip_spaces_spec (skipn e line) e) at 1. rewrite <- Hn.
  rewrite skipn_skipn. replace (n - e + e)%nat with n by lia. reflexivity.
Qed.

Lemma wrap_from_fits (width : Z) (line : list Z) (i : nat) :
  1 <= width -> narrow_breaks line ->
  Forall (fits_or_forced width) (wrap_from width line i).
Proof.
  intros Hw Hnb. funelim (wrap_from width line i).
  - match goal with IH : _ -> _ -> Forall _ _ |- _ => specialize (IH Hw Hnb) end.
    constructor; [now apply wrap_cut_segment|assumption].
  - constructor.
Qed.

Lemma wrap_from_shape (width : Z) (line : list Z) (i : nat) :
  Forall (fun seg => seg <> []) (wrap_from width line i) /\
  exists gaps, length gaps = length (wrap_from width line i) /\
               skipn i line = rejoin (wrap_from width line i) gaps.
Proof.
  funelim (wrap_from width line i).
  - match goal with IH : _ /\ _ |- _ =>
      destruct IH as (IHne & gaps & Hglen & Hgeq) end.
    destruct (wrap_cut_progress width line i Hlt) as [Hie Hen].
    split.
    + constructor; [|exact IHne].
      intros Hnil. apply (f_equal (@length Z)) in Hnil.
      rewrite length_firstn, length_skipn in Hnil. cbn [length] in Hnil. lia.
    + exists ((snd (wrap_cut width line i) - fst (wrap_cut width line i))%nat
               :: gaps).
      split; [simpl; now rewrite Hglen|].
      unfold rejoin in *. cbn [combine map concat fst snd].
      rewrite <- Hgeq, <- app_assoc. now apply wrap_cut_split.
  - split; [constructor|].
    exists []. split; [reflexivity|].
    unfold rejoin. cbn. apply skipn_all2. lia.
Qed.

(** C3, as the code has it. For a width of at least one cell: on a line
    whose break opportunities (spaces and punctuation) are at most one cell
    wide, every visual line fits the width or is a single character wider
    than the width; on every line, no visual line is empty, and the visual
    lines, each followed by the spaces skipped after it, give back the
    line. *)
Theorem wrap_bounds (line : list Z) (W : Z) :
  1 <= W ->
  (narrow_breaks line -> Forall (fits_or_forced W) (wrap_segments line W)) /\
  Forall (fun seg => seg <> []) (wrap_segments line W) /\
  exists gaps, length gaps = length (wrap_segments line W) /\
               line = rejoin (wrap_segments line W) gaps.
Proof.
  intros HW. unfold wrap_segments, clamp_width.
  destruct (Z.ltb_spec W 1); [lia|].
  split; [intros Hnb; now apply wrap_from_fits|].
  exact (wrap_from_shape W line 0).
Qed.

End WrapProps.

(** Scenario 4 of the specification, and a line of one ideograph on a pane
    one cell wide. *)
Lemma wrap_bounds_witness :
  1 <= 5 /\
  narrow_breaks (L := sample_locale) (bytes "hello world") /\
  Forall (fits_or_forced (L := sample_locale) 5)
    (wrap_segments (L := sample_locale) (bytes "hello world") 5) /\
  wrap_segments (L := sample_locale) (bytes "hello world") 5
    = [bytes "hello"; bytes "world"] /\
  Forall (fits_or_forced (L := sample_locale) 1)
    (wrap_segments (L := sample_locale) [20013] 1).
Proof.
  assert (HW : 1 <= 5) by lia.
  assert (Hnb : narrow_breaks (L := sample_locale) (bytes "hello world")).
  { intros ch Hin Hb. simpl in Hin.
    repeat (destruct Hin as [<-|Hin]; [vm_compute; discriminate|]).
    destruct Hin. }
  assert (Hnb1 : narrow_breaks (L := sample_locale) [20013]).
  { intros ch Hin Hb. simpl in Hin. destruct Hin as [<-|[]].
    vm_compute in Hb. discriminate. }
  split; [exact HW|]. split; [exact Hnb|].
  split; [exact (proj1 (wrap_bounds (L := sample_locale) _ 5 HW) Hnb)|].
  split; [reflexivity|].
  exact (proj1 (wrap_bounds (L := sample_locale) [20013] 1 ltac:(lia)) Hnb1).
Defined.

(** The first part of C3 fails as stated: on a pane one cell wide, the
    ideograph U+4E2D, two cells wide, is a visual line of width 2. *)
Lemma wrap_bounds_counterexample :
  1 <= 1 /\
  wrap_segments (L := sample_locale) [20013] 1 = [[20013]] /\
  ~ Forall (fun seg => line_width (L := sample_locale) seg <= 1)
      (wrap_segments (L := sample_locale) [20013] 1).
Proof.
  split; [lia|]. split; [reflexivity|].
  intros H. inversion H as [|seg segs Hseg Hrest]; subst.
  vm_compute in Hseg. apply Hseg. reflexivity.
Qed.

(** What happens when a break opportunity is wider than one cell: the
    break is recorded before the test that the character fits, so a
    punctuation mark two cells wide that does not fit is kept on the line.
    Here a fullwidth comma after two letters, on a pane three cells wide. *)
Example wrap_wide_break_overflows :
  wrap_segments (L := sample_locale) [97; 98; 65292; 99] 3
    = [[97; 98; 65292]; [99]] /\
  line_width (L := sample_locale) [97; 98; 65292] = 4.
Proof. split; reflexivity. Qed.

(** ** The rings and the scroll position *)

(** Case analysis on every comparison of the goal. *)
Ltac zcases :=
  repeat match goal with
         | |- context [?a <? ?b] => destruct (Z.ltb_spec a b)
         | |- context [?a <=? ?b] => destruct (Z.leb_spec a b)
         | |- context [?a =? ?b] => destruct (Z.eqb_spec a b)
         | H : context [?a <? ?b] |- _ => destruct (Z.ltb_spec a b)
         | H : context [?a <=? ?b] |- _ => destruct (Z.leb_spec a b)
         | H : context [?a =? ?b] |- _ => destruct (Z.eqb_spec a b)
         end.

Lemma zlen_snoc {A} (l : list A) (x : A) : zlen (l ++ [x]) = zlen l + 1.
Proof. rewrite zlen_app, zlen_cons. reflexivity. Qed.

Lemma zlen_shift {A} (l : list A) (x : A) :
  0 < zlen l -> zlen (tl l ++ [x]) = zlen l.
Proof.
  destruct l as [|a l]; [unfold zlen; simpl; lia|].
  intros _. cbn [tl]. rewrite zlen_snoc, zlen_cons. reflexivity.
Qed.

Section Rings.
Context {L : Locale}.


Lemma push_visual_w_fields (d : display) (s : list Z) :
  store (push_visual_w d s) = store d /\
  rows (push_visual_w d s) = rows d /\
  cols (push_visual_w d s) = cols d /\
  visual (push_visual_w d s)
    = (if vis_count d <? VIS_MAX then visual d else tl (visual d)) ++ [s].
Proof. unfold push_visual_w. destruct (vis_count d <? VIS_MAX); auto. Qed.

(** Pushing a visual line keeps the ring within its capacity, keeps the
    scroll position non-negative, and keeps it below its bound. *)
Lemma push_visual_w_keeps (d : display) (s : list Z) :
  (vis_count d <= VIS_MAX -> vis_count (push_visual_w d s) <= VIS_MAX) /\
  (0 <= view_top d -> 0 <= view_top (push_visual_w d s)) /\
  (view_top d <= max_top d ->
   view_top (push_visual_w d s) <= max_top (push_visual_w d s)).
Proof.
  unfold push_visual_w, max_top, visible_rows, vis_count.
  destruct (Z.ltb_spec (zlen (visual d)) VIS_MAX) as [Hroom|Hfull];
    cbn [visual view_top rows].
  - rewrite zlen_snoc. repeat split; intros; zcases; lia.
  - assert (Hpos : 0 < zlen (visual d)) by (unfold VIS_MAX in Hfull; lia).
    rewrite (zlen_shift _ s Hpos). repeat split; intros; zcases; lia.
Qed.

Lemma wrap_and_push_wide_keeps (line : list Z) (width : Z) (d : display) :
  let d' := wrap_and_push_wide d line width in
  store d' = store d /\ rows d' = rows d /\ cols d' = cols d /\
  (vis_count d <= VIS_MAX -> vis_count d' <= VIS_MAX) /\
  (0 <= view_top d -> 0 <= view_top d') /\
  (view_top d <= max_top d -> view_top d' <= max_top d').
Proof.
  unfold wrap_and_push_wide. generalize (wrap_segments line width) as segs.
  intros segs. revert d. induction segs as [|seg segs IH]; intros d.
  - cbn. tauto.
  - cbn [fold_left]. specialize (IH (push_visual_w d seg)). cbv zeta in *.
    destruct IH as (Hs & Hr & Hc & H1 & H2 & H3).
    destruct (push_visual_w_fields d seg) as (Fs & Fr & Fc & _).
    destruct (push_visual_w_keeps d seg) as (K1 & K2 & K3).
    rewrite Hs, Hr, Hc, Fs, Fr, Fc. repeat split; auto.
Qed.




Lemma add_logical_line_w_store (d : display) (line : list Z) (follow : bool) :
  store (add_logical_line_w d line follow)
  = (if store_count d <? STORE_MAX then store d else tl (store d)) ++ [line].
Proof.
  unfold add_logical_line_w. cbv zeta.
  match goal with
  | |- context [wrap_and_push_wide ?d1 ?l ?w] =>
      destruct (wrap_and_push_wide_keeps l w d1) as (Hs & _)
  end.
  destruct follow; unfold to_bottom, set_view_top; cbn [store]; rewrite Hs;
    destruct (store_count d <? STORE_MAX); reflexivity.
Qed.






End Rings.

(** ** The pane along the session *)

Section SessionPane.
Context {L : Locale}.




Lemma blind_phase_fields (o : options) (s : session) (w : wake) :
  s_disp (blind_phase o s w) = s_disp s /\
  input_locked (blind_phase o s w) = input_locked s.
Proof.
  unfold blind_phase.
  destruct (alb_enabled (s_alb s) && (alb_stage (s_alb s) <? 2)); [|auto].
  destruct (autologin_try_blind o (s_alb s) (w_now_blind w) (s_tx s)). auto.
Qed.









End SessionPane.


(** ** The input lock *)

Section Lock.
Context {L : Locale}.

Lemma rx_phase_lock (o : options) (s : session) (w : wake) (data : list Z) :
  input_locked s = false -> input_locked (rx_phase o s w data) = false.
Proof.
  intros H. unfold rx_phase. cbv zeta.
  destruct (normalize_incoming _ _) as [|b out]; [exact H|].
  destruct (rx_feed (s_rx_acc s) (b :: out)) as [lines acc].
  destruct (if alp_enabled (s_alp s) && (alp_state (s_alp s) <? 2)
            then _ else _) as [al tx1].
  cbn [input_locked]. rewrite H. reflexivity.
Qed.

Lemma unlock_phase_lock (o : options) (s : session) (w : wake) :
  input_locked s = false -> input_locked (unlock_phase o s w) = false.
Proof. intros H. unfold unlock_phase. rewrite H. exact H. Qed.

Lemma auto_help_phase_lock (o : options) (s : session) :
  input_locked (auto_help_phase o s) = input_locked s.
Proof. unfold auto_help_phase. destruct (_ && _); reflexivity. Qed.

Lemma key_phase_lock (o : options) (s s' : session) (w : wake) :
  key_phase o s w = Some s' -> input_locked s' = input_locked s.
Proof.
  unfold key_phase, ctrl_z, submit.
  destruct (w_key w) as [wch|]; [|intros E; inversion E; reflexivity].
  repeat match goal with
         | |- (if ?c then _ else _) = Some _ -> _ => destruct c
         end;
    intros E; inversion E; subst; try reflexivity.
  - destruct (opt_pass_ctrl_z o); reflexivity.
  - destruct (negb (input_locked s)); reflexivity.
  - destruct (zlen (s_ibuf s) <? _); reflexivity.
Qed.

Lemma step_lock (o : options) (s s' : session) (w : wake) :
  input_locked s = false -> step o s w = Some s' -> input_locked s' = false.
Proof.
  intros H. unfold step. cbv zeta.
  set (s1 := match w_resize w with
             | Some (r, c) => set_disp s (resize (s_disp s) r c)
             | None => s
             end).
  assert (H1 : input_locked s1 = false)
    by (unfold s1; destruct (w_resize w) as [[r c]|]; exact H).
  clearbody s1.
  destruct (blind_phase_fields o s1 w) as [_ Hb]. rewrite H1 in Hb.
  destruct (w_sock w) as [| |[|b data]|]; try discriminate; intros E;
    apply key_phase_lock in E; rewrite E, auto_help_phase_lock;
    apply unlock_phase_lock; [exact Hb|].
  apply rx_phase_lock. exact Hb.
Qed.

(** C10. The lock is set from the two enable flags when the session
    starts, and an iteration of the loop that finds it released leaves it
    released: along every run of the loop from a state where the input is
    free, the input is free. *)
Theorem input_lock_monotone (o : options) (ws : list wake) (s s' : session) :
  input_locked s = false -> run o s ws = Some s' ->
  input_locked s' = false /\
  (forall al ab now_rx now_t0 r c,
     input_locked (session_init al ab now_rx now_t0 r c)
     = alp_enabled al || alb_enabled ab).
Proof.
  intros H Hrun. split; [|reflexivity].
  revert s H Hrun. induction ws as [|w ws IH]; intros s H; cbn [run].
  - intros E. inversion E; subst. exact H.
  - destruct (step o s w) as [s1|] eqn:E1; [|discriminate].
    apply IH. exact (step_lock o s s1 w H E1).
Qed.

(** A wake that reads nothing from the socket releases the lock by the
    delay after the login only: while no login is done, it leaves the lock
    as it is, however long the line has been quiet. *)
Lemma idle_wake_keeps_lock (o : options) (s s' : session) (w : wake) :
  w_sock w = SockIdle ->
  login_done_flag s = false ->
  alb_enabled (s_alb s) = false -> alb_stage (s_alb s) <> 2 ->
  step o s w = Some s' -> input_locked s' = input_locked s.
Proof.
  intros Hsock Hdone Hoff Hstage. unfold step. cbv zeta. rewrite Hsock.
  set (s1 := match w_resize w with
             | Some (r, c) => set_disp s (resize (s_disp s) r c)
             | None => s
             end).
  assert (H1 : input_locked s1 = input_locked s /\
               login_done_flag s1 = false /\ s_alb s1 = s_alb s)
    by (unfold s1; destruct (w_resize w) as [[r c]|]; auto).
  clearbody s1. destruct H1 as (Hl1 & Hd1 & Ha1).
  assert (Hb : blind_phase o s1 w = s1)
    by (unfold blind_phase; rewrite Ha1, Hoff; reflexivity).
  rewrite Hb. intros E. apply key_phase_lock in E.
  rewrite E, auto_help_phase_lock. unfold unlock_phase.
  rewrite Hd1, Ha1. destruct (Z.eqb_spec (alb_stage (s_alb s)) 2); [contradiction|].
  now rewrite andb_false_r.
Qed.

End Lock.

(** C4 fails on the code. After the idle wake at 2000 ms the recent text
    holds the marker, 1990 ms (more than the 300 ms of the quiet period)
    have passed since the last inbound byte, and the input is still locked:
    the quiet-period test sits in the branch that has just read bytes and
    has just reset [last_rx]. *)
Lemma quiet_unlock_not_rechecked :
  exists s, quiet_session = Some s /\
            strstr (cstr (s_recent s)) (bytes "> ") = true /\
            since_ms (s_last_rx s) (at_ms 2000) = 1990 /\
            unlock_quiet_ms default_options = 300 /\
            input_locked s = true.
Proof. eexists. repeat split. Qed.

(** A session with blind autologin, released by the delay rule at 2200 ms,
    then a read and two keys. *)
Lemma input_lock_monotone_witness :
  match run_from (L := sample_locale) default_options
          (start_session (Some (bytes "U")) (Some (bytes "P")) true
                         (at_ms 0) (at_ms 0) 24 80)
          [wake_at (at_ms 150) SockIdle None; wake_at (at_ms 1000) SockIdle None;
           wake_at (at_ms 2200) SockIdle None]
  with
  | Some s =>
      input_locked s = false /\
      match run (L := sample_locale) default_options s
              [wake_at (at_ms 2300) (SockRead (bytes "login: ")) (Some 65);
               wake_at (at_ms 2400) SockIdle (Some 10)]
      with
      | Some s' => input_locked s' = false
      | None => False
      end
  | None => False
  end.
Proof.
  destruct (run_from _ _ _) as [s|] eqn:E0; [|vm_compute in E0; discriminate].
  assert (Hfree : input_locked s = false).
  { vm_compute in E0. injection E0 as <-. reflexivity. }
  split; [exact Hfree|].
  destruct (run _ s _) as [s'|] eqn:E1.
  - exact (proj1 (input_lock_monotone (L := sample_locale) default_options _ _ _
                    Hfree E1)).
  - vm_compute in E0. injection E0 as <-. vm_compute in E1. discriminate.
Defined.

(** ** Transmitted lines *)

Lemma write_telnet_safe_app (s : list Z) :
  forall tx, write_telnet_safe s tx = tx ++ write_telnet_safe s [].
Proof.
  induction s as [|c rest IH]; intros tx; cbn [write_telnet_safe].
  - now rewrite app_nil_r.
  - rewrite IH. rewrite (IH (if c =? IAC then _ else _)).
    destruct (c =? IAC); cbn [app]; rewrite <- ?app_assoc; reflexivity.
Qed.

Lemma send_line_app (o : options) (s tx : list Z) :
  send_line_utf8_telnet_safe o s tx = tx ++ send_line_utf8_telnet_safe o s [].
Proof.
  unfold send_line_utf8_telnet_safe, send_eol.
  rewrite write_telnet_safe_app.
  destruct (opt_cr_only o); cbn [app]; now rewrite <- app_assoc.
Qed.

(** ** The clock *)

(** On clock reads that fall on whole milliseconds [since_ms] is the exact
    difference. *)
Lemma since_ms_at_ms (a b : Z) : since_ms (at_ms a) (at_ms b) = b - a.
Proof.
  unfold since_ms, at_ms. cbn [tv_sec tv_nsec].
  rewrite <- Z.mul_sub_distr_r, Z.quot_mul by lia.
  pose proof (Z.quot_rem' a 1000). pose proof (Z.quot_rem' b 1000). lia.
Qed.

(** Between whole milliseconds the division of [since_ms] truncates
    towards zero, so that a read whose nanosecond field has wrapped can
    measure up to one millisecond more than has passed: here 150 for two
    reads 149.000001 ms apart. *)
Remark since_ms_truncates :
  since_ms {| tv_sec := 0; tv_nsec := 999999999 |}
           {| tv_sec := 1; tv_nsec := 149000000 |} = 150.
Proof. reflexivity. Qed.

(** ** The blind machine *)

Section Blind.
Variable o : options.

(** One evaluation, by stage. *)
Lemma blind_tick_idle (ab : autologin_blind_t) (now : timespec) :
  alb_enabled ab = true -> alb_stage ab = 0 ->
  (if alb_enabled ab && (alb_stage ab <? 2)
   then autologin_try_blind o ab now [] else (ab, []))
  = if alb_du_ms ab <=? since_ms (alb_t0 ab) now
    then ({| alb_enabled := alb_enabled ab; alb_stage := 1;
             alb_t0 := alb_t0 ab; alb_t_pass := alb_t_pass ab;
             alb_du_ms := alb_du_ms ab; alb_dp_ms := alb_dp_ms ab;
             alb_user := alb_user ab; alb_pass := alb_pass ab |},
          send_line_utf8_telnet_safe o (alb_user ab) [])
    else (ab, []).
Proof. intros Hen Hst. unfold autologin_try_blind. rewrite Hen, Hst. reflexivity. Qed.

Lemma blind_tick_sent_user (ab : autologin_blind_t) (now : timespec) :
  alb_enabled ab = true -> alb_stage ab = 1 ->
  (if alb_enabled ab && (alb_stage ab <? 2)
   then autologin_try_blind o ab now [] else (ab, []))
  = if alb_dp_ms ab <=? since_ms (alb_t0 ab) now
    then ({| alb_enabled := alb_enabled ab; alb_stage := 2;
             alb_t0 := alb_t0 ab; alb_t_pass := now;
             alb_du_ms := alb_du_ms ab; alb_dp_ms := alb_dp_ms ab;
             alb_user := alb_user ab; alb_pass := alb_pass ab |},
          send_line_utf8_telnet_safe o (alb_pass ab) [])
    else (ab, []).
Proof. intros Hen Hst. unfold autologin_try_blind. rewrite Hen, Hst. reflexivity. Qed.

Lemma blind_ticks_wait_user (ab : autologin_blind_t) (pre rest : list timespec) :
  alb_enabled ab = true -> alb_stage ab = 0 ->
  Forall (fun n => since_ms (alb_t0 ab) n < alb_du_ms ab) pre ->
  blind_ticks o ab (pre ++ rest)
  = (silent pre ++ fst (blind_ticks o ab rest), snd (blind_ticks o ab rest)).
Proof.
  intros Hen Hst Hpre. induction Hpre as [|n pre Hn Hpre IH]; cbn [app].
  - now destruct (blind_ticks o ab rest).
  - cbn [blind_ticks silent map]. rewrite (blind_tick_idle ab n Hen Hst).
    destruct (Z.leb_spec (alb_du_ms ab) (since_ms (alb_t0 ab) n)); [lia|].
    rewrite IH. reflexivity.
Qed.

Lemma blind_ticks_wait_pass (ab : autologin_blind_t) (mid rest : list timespec) :
  alb_enabled ab = true -> alb_stage ab = 1 ->
  Forall (fun n => since_ms (alb_t0 ab) n < alb_dp_ms ab) mid ->
  blind_ticks o ab (mid ++ rest)
  = (silent mid ++ fst (blind_ticks o ab rest), snd (blind_ticks o ab rest)).
Proof.
  intros Hen Hst Hmid. induction Hmid as [|n mid Hn Hmid IH]; cbn [app].
  - now destruct (blind_ticks o ab rest).
  - cbn [blind_ticks silent map]. rewrite (blind_tick_sent_user ab n Hen Hst).
    destruct (Z.leb_spec (alb_dp_ms ab) (since_ms (alb_t0 ab) n)); [lia|].
    rewrite IH. reflexivity.
Qed.

Lemma blind_ticks_done (ab : autologin_blind_t) (post : list timespec) :
  alb_stage ab = 2 -> blind_ticks o ab post = (silent post, ab).
Proof.
  intros Hst. induction post as [|n post IH]; [reflexivity|].
  cbn [blind_ticks silent map]. rewrite Hst, andb_false_r, IH. reflexivity.
Qed.

Lemma configure_blind (user pass : option (list Z))
  (al : autologin_prompt_t) (ab : autologin_blind_t) :
  configure user pass true = Some (al, ab) ->
  alb_enabled ab = true /\ alb_stage ab = 0 /\
  alb_du_ms ab = 150 /\ alb_dp_ms ab = 1000.
Proof.
  unfold configure. destruct (_ && _); [discriminate|].
  intros E. inversion E; subst. cbn. auto.
Qed.

(** X28. The blind machine on its own, by the program's clock. As [main]
    sets it up ([--blind-auto]: delays 150 and 1000, start time [t0]),
    evaluated at the clock reads [pre ++ n1 :: mid ++ n2 :: post], elapsed
    time being the program's own measure [since_ms t0 now], and counting
    what this machine sends: while the measure is below 150 nothing is
    sent; the first evaluation [n1] at 150 or more sends the user line,
    once; the evaluations [mid] that follow below 1000 (from [t0]) send
    nothing; the first evaluation [n2] at 1000 or more sends the password
    line, once, and records [n2] as the password-sent time; the evaluations
    after it send nothing. *)
Theorem blind_schedule (user pass : option (list Z))
  (al : autologin_prompt_t) (ab : autologin_blind_t)
  (now_rx t0 : timespec) (r c : Z)
  (pre mid post : list timespec) (n1 n2 : timespec) :
  configure user pass true = Some (al, ab) ->
  Forall (fun n => since_ms t0 n < 150) pre ->
  150 <= since_ms t0 n1 ->
  Forall (fun n => since_ms t0 n < 1000) mid ->
  1000 <= since_ms t0 n2 ->
  let ab0 := s_alb (session_init al ab now_rx t0 r c) in
  let result := blind_ticks o ab0 (pre ++ n1 :: mid ++ n2 :: post) in
  fst result
  = silent pre ++ send_line_utf8_telnet_safe o (alb_user ab) []
      :: silent mid ++ send_line_utf8_telnet_safe o (alb_pass ab) []
      :: silent post /\
  alb_stage (snd result) = 2 /\
  alb_t_pass (snd result) = n2.
Proof.
  intros Hcfg Hpre Hn1 Hmid Hn2.
  destruct (configure_blind user pass al ab Hcfg) as (Hen & Hst & Hdu & Hdp).
  cbn [session_init s_alb]. rewrite Hen.
  set (ab0 := {| alb_enabled := true; alb_stage := alb_stage ab;
                 alb_t0 := t0;
                 alb_t_pass := alb_t_pass ab; alb_du_ms := alb_du_ms ab;
                 alb_dp_ms := alb_dp_ms ab; alb_user := alb_user ab;
                 alb_pass := alb_pass ab |}).
  cbv zeta.
  assert (Hen0 : alb_enabled ab0 = true) by reflexivity.
  assert (Hst0 : alb_stage ab0 = 0) by exact Hst.
  rewrite (blind_ticks_wait_user ab0 pre (n1 :: mid ++ n2 :: post) Hen0 Hst0)
    by (cbn [alb_t0 alb_du_ms ab0]; rewrite Hdu; exact Hpre).
  cbn [blind_ticks]. rewrite (blind_tick_idle ab0 n1 Hen0 Hst0).
  cbn [alb_enabled alb_stage alb_t0 alb_t_pass alb_du_ms alb_dp_ms alb_user
       alb_pass ab0].
  rewrite Hdu. destruct (Z.leb_spec 150 (since_ms t0 n1)); [|lia].
  set (ab1 := {| alb_enabled := true; alb_stage := 1; alb_t0 := t0;
                 alb_t_pass := alb_t_pass ab; alb_du_ms := 150;
                 alb_dp_ms := alb_dp_ms ab; alb_user := alb_user ab;
                 alb_pass := alb_pass ab |}).
  assert (Hen1 : alb_enabled ab1 = true) by reflexivity.
  assert (Hst1 : alb_stage ab1 = 1) by reflexivity.
  rewrite (blind_ticks_wait_pass ab1 mid (n2 :: post) Hen1 Hst1)
    by (cbn [alb_t0 alb_dp_ms ab1]; rewrite Hdp; exact Hmid).
  cbn [blind_ticks]. rewrite (blind_tick_sent_user ab1 n2 Hen1 Hst1).
  cbn [alb_enabled alb_stage alb_t0 alb_t_pass alb_du_ms alb_dp_ms alb_user
       alb_pass ab1].
  rewrite Hdp. destruct (Z.leb_spec 1000 (since_ms t0 n2)); [|lia].
  rewrite blind_ticks_done by reflexivity.
  cbn [fst snd alb_stage alb_t_pass]. auto.
Qed.

End Blind.

(** In a session the blind machine is evaluated once per iteration, at the
    clock read [w_now_blind], and nothing else touches it: along a run of
    the loop it goes through [blind_ticks]. *)
Section BlindInSession.
Context {L : Locale}.
Variable o : options.

Lemma key_phase_alb (s s' : session) (w : wake) :
  key_phase o s w = Some s' -> s_alb s' = s_alb s.
Proof.
  unfold key_phase, ctrl_z, submit.
  destruct (w_key w) as [wch|]; [|intros E; inversion E; reflexivity].
  repeat match goal with
         | |- (if ?c then _ else _) = Some _ -> _ => destruct c
         end;
    intros E; inversion E; subst; try reflexivity.
  - destruct (opt_pass_ctrl_z o); reflexivity.
  - destruct (negb (input_locked s)); reflexivity.
  - destruct (zlen (s_ibuf s) <? _); reflexivity.
Qed.

Lemma rx_phase_alb (s : session) (w : wake) (data : list Z) :
  s_alb (rx_phase o s w data) = s_alb s.
Proof.
  unfold rx_phase. cbv zeta.
  destruct (normalize_incoming _ _) as [|b out]; [reflexivity|].
  destruct (rx_feed (s_rx_acc s) (b :: out)) as [lines acc].
  destruct (if alp_enabled (s_alp s) && (alp_state (s_alp s) <? 2)
            then _ else _) as [al tx1].
  reflexivity.
Qed.

Lemma unlock_phase_alb (s : session) (w : wake) :
  s_alb (unlock_phase o s w) = s_alb s.
Proof.
  unfold unlock_phase. destruct (input_locked s && _); [|reflexivity].
  destruct (unlock_delay_ms o <=? _); reflexivity.
Qed.

Lemma auto_help_phase_alb (s : session) :
  s_alb (auto_help_phase o s) = s_alb s.
Proof. unfold auto_help_phase. destruct (_ && _); reflexivity. Qed.

Lemma blind_phase_alb (s : session) (w : wake) :
  s_alb (blind_phase o s w) = snd (blind_ticks o (s_alb s) [w_now_blind w]).
Proof.
  unfold blind_phase. cbn [blind_ticks].
  destruct (alb_enabled (s_alb s) && (alb_stage (s_alb s) <? 2)); [|reflexivity].
  unfold autologin_try_blind.
  repeat match goal with
         | |- context [if ?c then _ else _] => destruct c
         end; reflexivity.
Qed.

Lemma step_blind_machine (s s' : session) (w : wake) :
  step o s w = Some s' ->
  s_alb s' = snd (blind_ticks o (s_alb s) [w_now_blind w]).
Proof.
  unfold step. cbv zeta.
  set (s1 := match w_resize w with
             | Some (r, c) => set_disp s (resize (s_disp s) r c)
             | None => s
             end).
  assert (H1 : s_alb s1 = s_alb s)
    by (unfold s1; destruct (w_resize w) as [[r c]|]; reflexivity).
  clearbody s1. rewrite <- H1, <- blind_phase_alb.
  destruct (w_sock w) as [| |[|b data]|]; try discriminate; intros E;
    apply key_phase_alb in E;
    now rewrite E, auto_help_phase_alb, unlock_phase_alb, ?rx_phase_alb.
Qed.

Lemma blind_ticks_app (ab : autologin_blind_t) (n1 n2 : list timespec) :
  snd (blind_ticks o ab (n1 ++ n2))
  = snd (blind_ticks o (snd (blind_ticks o ab n1)) n2).
Proof.
  revert ab. induction n1 as [|n n1 IH]; intros ab; [reflexivity|].
  cbn [app blind_ticks].
  destruct (if alb_enabled ab && (alb_stage ab <? 2) then _ else _) as [ab1 sent].
  specialize (IH ab1).
  destruct (blind_ticks o ab1 (n1 ++ n2)) as [sents ab2].
  destruct (blind_ticks o ab1 n1) as [sents1 ab3]. exact IH.
Qed.

Lemma run_blind_machine (ws : list wake) :
  forall s s', run o s ws = Some s' ->
               s_alb s' = snd (blind_ticks o (s_alb s) (map w_now_blind ws)).
Proof.
  induction ws as [|w ws IH]; intros s s'; cbn [run map].
  - intros E. inversion E. reflexivity.
  - destruct (step o s w) as [s1|] eqn:E1; [|discriminate].
    intros E. rewrite (IH s1 s' E), (step_blind_machine s s1 w E1).
    symmetry. exact (blind_ticks_app (s_alb s) [w_now_blind w] (map w_now_blind ws)).
Qed.

End BlindInSession.

(** Scenario 5: user U, password P, evaluations at 0, 100, 149, 150, 500,
    999, 1000, 1100 and 5000 ms; and the same schedule in the transmit log
    of a session that receives nothing. *)
Lemma blind_schedule_witness :
  configure (Some (bytes "U")) (Some (bytes "P")) true = Some (blind_al, blind_ab) /\
  Forall (fun n => since_ms (at_ms 0) n < 150) (map at_ms [0; 100; 149]) /\
  150 <= since_ms (at_ms 0) (at_ms 150) /\
  Forall (fun n => since_ms (at_ms 0) n < 1000) (map at_ms [500; 999]) /\
  1000 <= since_ms (at_ms 0) (at_ms 1000) /\
  fst (blind_ticks default_options
         (s_alb (session_init blind_al blind_ab (at_ms 0) (at_ms 0) 24 80))
         (map at_ms [0; 100; 149] ++ at_ms 150
            :: map at_ms [500; 999] ++ at_ms 1000 :: map at_ms [1100; 5000]))
  = [[]; []; []; bytes "U" ++ [13; 10]; []; []; bytes "P" ++ [13; 10]; []; []] /\
  option_map s_tx
    (run_from (L := sample_locale) default_options
       (start_session (Some (bytes "U")) (Some (bytes "P")) true
                      (at_ms 0) (at_ms 0) 24 80)
       [wake_at (at_ms 149) SockIdle None]) = Some [] /\
  option_map s_tx
    (run_from (L := sample_locale) default_options
       (start_session (Some (bytes "U")) (Some (bytes "P")) true
                      (at_ms 0) (at_ms 0) 24 80)
       [wake_at (at_ms 149) SockIdle None; wake_at (at_ms 150) SockIdle None;
        wake_at (at_ms 999) SockIdle None]) = Some (bytes "U" ++ [13; 10]) /\
  option_map s_tx
    (run_from (L := sample_locale) default_options
       (start_session (Some (bytes "U")) (Some (bytes "P")) true
                      (at_ms 0) (at_ms 0) 24 80)
       [wake_at (at_ms 149) SockIdle None; wake_at (at_ms 150) SockIdle None;
        wake_at (at_ms 999) SockIdle None; wake_at (at_ms 1000) SockIdle None;
        wake_at (at_ms 1100) SockIdle None])
  = Some (bytes "U" ++ [13; 10] ++ bytes "P" ++ [13; 10]).
Proof.
  assert (Hcfg : configure (Some (bytes "U")) (Some (bytes "P")) true
                 = Some (blind_al, blind_ab)) by reflexivity.
  assert (Hpre : Forall (fun n => since_ms (at_ms 0) n < 150)
                        (map at_ms [0; 100; 149]))
    by (repeat constructor).
  assert (Hn1 : 150 <= since_ms (at_ms 0) (at_ms 150))
    by (vm_compute; discriminate).
  assert (Hmid : Forall (fun n => since_ms (at_ms 0) n < 1000)
                        (map at_ms [500; 999]))
    by (repeat constructor).
  assert (Hn2 : 1000 <= since_ms (at_ms 0) (at_ms 1000))
    by (vm_compute; discriminate).
  split; [exact Hcfg|]. split; [exact Hpre|]. split; [exact Hn1|].
  split; [exact Hmid|]. split; [exact Hn2|].
  split; [|repeat split].
  exact (proj1 (blind_schedule default_options _ _ _ _ (at_ms 0) (at_ms 0) 24 80
                  _ _ (map at_ms [1100; 5000]) _ _ Hcfg Hpre Hn1 Hmid Hn2)).
Defined.

(** C6 fails on the code, in two ways. With the start time read at
    0.999999999 s, the evaluation at 1.149 s, when 149.000001 ms have
    elapsed, already sends the user line: [since_ms] divides the negative
    difference of the nanoseconds towards zero and measures 150. And the
    options [-u] and [-p], without which [--blind-auto] is refused, enable
    the prompt machine as well: when the node prompts login: at 10 ms the
    user line goes out at 10 ms, it goes out again at 150 ms, the password
    line goes out at 1000 ms, and again at 1200 ms when the node prompts for
    it, after the blind machine has finished. *)
Lemma blind_schedule_not_kept :
  ns_between blind_t0 blind_t1 = 149000001 /\
  since_ms blind_t0 blind_t1 = 150 /\
  option_map s_tx early_blind_session = Some (bytes "U" ++ [13; 10]) /\
  option_map s_tx (prompted_blind_session 1) = Some (bytes "U" ++ [13; 10]) /\
  option_map (fun s => alb_stage (s_alb s)) (prompted_blind_session 1)
  = Some 0 /\
  option_map s_tx (prompted_blind_session 2)
  = Some (bytes "U" ++ [13; 10] ++ bytes "U" ++ [13; 10]) /\
  option_map (fun s => alb_stage (s_alb s)) (prompted_blind_session 3)
  = Some 2 /\
  option_map s_tx (prompted_blind_session 3)
  = Some (bytes "U" ++ [13; 10] ++ bytes "U" ++ [13; 10]
          ++ bytes "P" ++ [13; 10]) /\
  option_map s_tx (prompted_blind_session 4)
  = Some (bytes "U" ++ [13; 10] ++ bytes "U" ++ [13; 10]
          ++ bytes "P" ++ [13; 10] ++ bytes "P" ++ [13; 10]).
Proof. vm_compute. repeat split. Qed.

(** ** The prompt machine *)

Lemma tolower_zero (c : Z) : tolower c = 0 -> c = 0.
Proof.
  unfold tolower.
  destruct (Z.leb_spec 65 c); destruct (Z.leb_spec c 90); cbn [andb]; lia.
Qed.

Lemma strncasecmp_eq_prefix (m : list Z) :
  Forall (fun c => c <> 0) m ->
  forall p, strncasecmp_eq p m (length m) = true <->
            exists w rest, p = w ++ rest /\ map tolower w = map tolower m.
Proof.
  induction 1 as [|c2 m' Hc2 Hm' IH]; intros p.
  - split; [intros _; exists [], p; split; reflexivity|reflexivity].
  - cbn [length strncasecmp_eq hd tl]. split.
    + destruct (Z.eqb_spec (tolower (hd 0 p)) (tolower c2)) as [Hlow|]; [|discriminate].
      destruct (Z.eqb_spec (hd 0 p) 0) as [Hz|Hnz].
      { rewrite Hz in Hlow. symmetry in Hlow.
        apply tolower_zero in Hlow. contradiction. }
      destruct p as [|c1 p']; [contradiction|]. cbn [hd tl] in *.
      intros Hrest. apply IH in Hrest. destruct Hrest as (w' & rest & -> & Hw').
      exists (c1 :: w'), rest. split; [reflexivity|]. cbn [map]. congruence.
    + intros (w & rest & -> & Hw). destruct w as [|c1 w']; [discriminate|].
      cbn [map] in Hw. injection Hw as Hlow Hw'. cbn [app hd tl].
      rewrite Hlow, Z.eqb_refl.
      destruct (Z.eqb_spec c1 0) as [Hz|_]; [reflexivity|].
      apply IH. now exists w', rest.
Qed.

Lemma istrstr_found (m : list Z) :
  m <> [] -> Forall (fun c => c <> 0) m ->
  forall hay, found (istrstr hay m) = true <-> ci_occurs m hay.
Proof.
  intros Hne Hnz hay. destruct m as [|m0 m']; [contradiction|].
  cbn [istrstr]. induction hay as [|c rest IH].
  - split; [discriminate|].
    intros (pre & w & post & Heq & Hw).
    destruct pre; [|discriminate]. destruct w; discriminate.
  - cbn [istrstr_loop].
    destruct ((tolower c =? tolower (hd 0 (m0 :: m')))
              && strncasecmp_eq (c :: rest) (m0 :: m') (length (m0 :: m')))
      eqn:Hhere.
    + split; [intros _|reflexivity].
      apply andb_prop in Hhere. destruct Hhere as [_ Hcmp].
      apply (strncasecmp_eq_prefix _ Hnz) in Hcmp.
      destruct Hcmp as (w & post & Heq & Hw). now exists [], w, post.
    + rewrite IH. split.
      * intros (pre & w & post & -> & Hw). now exists (c :: pre), w, post.
      * intros (pre & w & post & Heq & Hw). destruct pre as [|x pre'].
        -- exfalso. cbn [app] in Heq.
           assert (Hcmp : strncasecmp_eq (c :: rest) (m0 :: m')
                            (length (m0 :: m')) = true)
             by (apply (strncasecmp_eq_prefix _ Hnz); now exists w, post).
           rewrite Hcmp, andb_true_r in Hhere.
           destruct w as [|w0 w']; [discriminate|].
           cbn [map] in Hw. injection Hw as Hlow _.
           cbn [app] in Heq. injection Heq as -> _.
           cbn [hd] in Hhere. rewrite Hlow, Z.eqb_refl in Hhere. discriminate.
        -- cbn [app] in Heq. injection Heq as _ ->. now exists pre', w, post.
Qed.

(** A marker of the source: not empty and without NUL. *)
Ltac marker_ok := first [discriminate | repeat constructor; discriminate].

Lemma login_marker_spec (recent : list Z) :
  login_marker recent = true <-> any_marker login_markers recent.
Proof.
  unfold login_marker, any_marker, login_markers.
  rewrite !orb_true_iff, !istrstr_found by marker_ok.
  split.
  - intros [[H|H]|H]; eexists; (split; [|exact H]); simpl; auto.
  - intros (m & Hin & H). simpl in Hin.
    destruct Hin as [<-|[<-|[<-|[]]]]; auto.
Qed.

Lemma password_marker_spec (recent : list Z) :
  password_marker recent = true <-> any_marker password_markers recent.
Proof.
  unfold password_marker, any_marker, password_markers.
  rewrite !orb_true_iff, !istrstr_found by marker_ok.
  split.
  - intros [[[H|H]|H]|H]; eexists; (split; [|exact H]); simpl; auto.
  - intros (m & Hin & H). simpl in Hin.
    destruct Hin as [<-|[<-|[<-|[<-|[]]]]]; auto.
Qed.

(** X29. The prompt machine, enabled, on the C string [recent] that
    [autologin_try_prompt] is given. Idle (state 0): when one of login:, user:,
    callsign: occurs in it, letter case aside, the user name goes out as one
    line and the state becomes 1 (awaiting the password prompt); otherwise
    nothing is sent. In state 1: when one of password:, pass:, pw:,
    enter password occurs, the password goes out as one line and the state
    becomes 2 (done); otherwise nothing is sent. Done: nothing is sent and
    nothing changes. With user N0CALL, the three reads login:, a space and
    CR LF make a session send exactly N0CALL CR LF and end in state 1. *)
Theorem prompt_autologin (o : options) (al : autologin_prompt_t)
  (recent tx : list Z) :
  alp_enabled al = true ->
  (alp_state al = 0 -> any_marker login_markers recent ->
   autologin_try_prompt o al recent tx
   = (alp_set_state al 1,
      tx ++ send_line_utf8_telnet_safe o (alp_user al) [])) /\
  (alp_state al = 0 -> ~ any_marker login_markers recent ->
   autologin_try_prompt o al recent tx = (al, tx)) /\
  (alp_state al = 1 -> any_marker password_markers recent ->
   autologin_try_prompt o al recent tx
   = (alp_set_state al 2,
      tx ++ send_line_utf8_telnet_safe o (alp_pass al) [])) /\
  (alp_state al = 1 -> ~ any_marker password_markers recent ->
   autologin_try_prompt o al recent tx = (al, tx)) /\
  (2 <= alp_state al -> autologin_try_prompt o al recent tx = (al, tx)) /\
  (let final :=
     run_from (L := sample_locale) default_options
       (start_session (Some (bytes "N0CALL")) (Some (bytes "SECRET")) false
                      (at_ms 0) (at_ms 0) 24 80)
       [wake_at (at_ms 10) (SockRead (bytes "login:")) None;
        wake_at (at_ms 20) (SockRead (bytes " ")) None;
        wake_at (at_ms 30) (SockRead [13; 10]) None] in
   option_map s_tx final = Some (bytes "N0CALL" ++ [13; 10]) /\
   option_map (fun s => alp_state (s_alp s)) final = Some 1).
Proof.
  intros Hen. unfold autologin_try_prompt. rewrite Hen. cbn [negb orb].
  pose proof (login_marker_spec recent) as Hlogin.
  pose proof (password_marker_spec recent) as Hpass.
  repeat split.
  - intros Hst Hm. rewrite Hst. cbn. apply Hlogin in Hm. rewrite Hm.
    now rewrite send_line_app.
  - intros Hst Hm. rewrite Hst. cbn.
    destruct (login_marker recent); [|reflexivity].
    exfalso. apply Hm, Hlogin. reflexivity.
  - intros Hst Hm. rewrite Hst. cbn. apply Hpass in Hm. rewrite Hm.
    now rewrite send_line_app.
  - intros Hst Hm. rewrite Hst. cbn.
    destruct (password_marker recent); [|reflexivity].
    exfalso. apply Hm, Hpass. reflexivity.
  - intros Hst. destruct (Z.leb_spec 2 (alp_state al)); [reflexivity|lia].
Qed.

(** A node that greets with a capitalised prompt. *)
Lemma prompt_autologin_witness :
  any_marker login_markers (bytes "BPQ node Login: ") /\
  autologin_try_prompt default_options
    {| alp_enabled := true; alp_state := 0;
       alp_user := bytes "N0CALL"; alp_pass := bytes "SECRET" |}
    (bytes "BPQ node Login: ") []
  = ({| alp_enabled := true; alp_state := 1;
        alp_user := bytes "N0CALL"; alp_pass := bytes "SECRET" |},
     bytes "N0CALL" ++ [13; 10]).
Proof.
  assert (Hm : any_marker login_markers (bytes "BPQ node Login: ")).
  { exists (bytes "login:"). split; [left; reflexivity|].
    exists (bytes "BPQ node "), (bytes "Login:"), (bytes " ").
    split; reflexivity. }
  split; [exact Hm|].
  exact (proj1 (prompt_autologin default_options
                  {| alp_enabled := true; alp_state := 0;
                     alp_user := bytes "N0CALL"; alp_pass := bytes "SECRET" |}
                  (bytes "BPQ node Login: ") [] eq_refl) eq_refl Hm).
Defined.

(** The recent text in [main] is the window [recent] read as a C string,
    that is, up to its first NUL. Once 8192 bytes have been received the
    terminator is written over the last byte of the window and is shifted
    with it, so that what arrives later lies behind a NUL: after 8192
    letters A, the bytes login: are in the window and the machine does not
    see them. *)
Remark recent_window_full_hides_marker :
  let window := recent_update (recent_update [] (repeat 65 (Z.to_nat 8192)))
                              (bytes "login:") in
  zlen window = 8192 /\
  firstn 5 (skipn (Z.to_nat 8186) window) = bytes "login" /\
  login_marker (cstr window) = false.
Proof. vm_compute. repeat split. Qed.

(** C7 fails on the code. Telnet sends a bare carriage return as CR NUL.
    After the greeting Welcome CR NUL and the prompt login: and a space,
    the window [recent[0..rlen)] holds the marker login:, the machine is
    still idle and nothing has been sent: the NUL of the greeting is copied
    into the window, and [istrstr] reads the window as a C string, which
    ends there. With CR LF in place of CR NUL the same prompt is answered
    with the user name. *)
Lemma prompt_marker_hidden_by_nul :
  option_map s_recent (greeted_session [13; 0])
  = Some (bytes "Welcome" ++ [10; 0] ++ bytes "login: ") /\
  ci_occurs (bytes "login:")
    (bytes "Welcome" ++ [10; 0] ++ bytes "login: ") /\
  option_map (fun s => cstr (s_recent s)) (greeted_session [13; 0])
  = Some (bytes "Welcome" ++ [10]) /\
  option_map (fun s => alp_enabled (s_alp s)) (greeted_session [13; 0])
  = Some true /\
  option_map (fun s => alp_state (s_alp s)) (greeted_session [13; 0])
  = Some 0 /\
  option_map s_tx (greeted_session [13; 0]) = Some [] /\
  option_map (fun s => alp_state (s_alp s)) (greeted_session [13; 10])
  = Some 1 /\
  option_map s_tx (greeted_session [13; 10])
  = Some (bytes "N0CALL" ++ [13; 10]).
Proof.
  split; [reflexivity|]. split.
  { exists (bytes "Welcome" ++ [10; 0]), (bytes "login:"), (bytes " ").
    split; reflexivity. }
  vm_compute. repeat split.
Qed.

(* ===================================================================== *)
(** * Part IV. Further properties of the program                          *)
(* ===================================================================== *)

(** ** The newline normaliser *)

Lemma put_Forall (P : Z -> Prop) (outcap : Z) (out : list Z) (ch : Z) :
  Forall P out -> P ch -> Forall P (put outcap out ch).
Proof.
  intros Ho Hc. unfold put. destruct (zlen out <? outcap); [|exact Ho].
  apply Forall_app. split; [exact Ho|]. constructor; [exact Hc|constructor].
Qed.

Lemma put_bounds (outcap : Z) (out : list Z) (ch : Z) :
  zlen (put outcap out ch) <= Z.max (zlen out) outcap.
Proof.
  unfold put. destruct (Z.ltb_spec (zlen out) outcap); [rewrite zlen_snoc|]; lia.
Qed.

Lemma normalize_loop_shape (outcap : Z) (input : list Z) :
  forall out,
    Forall (fun c => c <> 13) out ->
    Forall (fun c => c <> 13) (normalize_loop outcap input out) /\
    zlen (normalize_loop outcap input out) <= zlen out + zlen input /\
    zlen (normalize_loop outcap input out) <= Z.max (zlen out) outcap.
Proof.
  induction input as [|a|a b l IHl IHbl] using list_pair_ind; intros out Hout.
  - cbn [normalize_loop]. rewrite zlen_nil. repeat split; [exact Hout|lia|lia].
  - pose proof (put_length outcap out 10) as L10.
    pose proof (put_length outcap out a) as La.
    pose proof (put_bounds outcap out 10) as B10.
    pose proof (put_bounds outcap out a) as Ba.
    rewrite zlen_cons, zlen_nil. cbn [normalize_loop].
    destruct (Z.eqb_spec a 13) as [->|Hne]; [|destruct (Z.eqb_spec a 10) as [->|Hnl]];
      (split; [apply put_Forall; [exact Hout|lia]|lia]).
  - rewrite (normalize_loop_step outcap a (b :: l) out). cbv beta iota.
    pose proof (put_length outcap out 10) as L10.
    pose proof (put_length outcap out a) as La.
    pose proof (put_bounds outcap out 10) as B10.
    pose proof (put_bounds outcap out a) as Ba.
    assert (H10 : Forall (fun c => c <> 13) (put outcap out 10))
      by (apply put_Forall; [exact Hout|lia]).
    rewrite !zlen_cons. pose proof (zlen_nonneg l).
    destruct (Z.eqb_spec a 13) as [->|Hne].
    + destruct (b =? 10).
      * destruct (IHl _ H10) as (F & L1 & L2). repeat split; [exact F|lia|lia].
      * destruct (IHbl _ H10) as (F & L1 & L2). rewrite zlen_cons in L1.
        repeat split; [exact F|lia|lia].
    + destruct (Z.eqb_spec a 10) as [->|Hnl].
      * destruct (IHbl _ H10) as (F & L1 & L2). rewrite zlen_cons in L1.
        repeat split; [exact F|lia|lia].
      * assert (Ha : Forall (fun c => c <> 13) (put outcap out a))
          by (apply put_Forall; [exact Hout|exact Hne]).
        destruct (IHbl _ Ha) as (F & L1 & L2). rewrite zlen_cons in L1.
        repeat split; [exact F|lia|lia].
Qed.

(** X1. Whatever the capacity, the output of the normaliser holds no
    carriage return, is no longer than its input and stays within the
    capacity. *)
Theorem normalize_incoming_shape (input : list Z) (outcap : Z) :
  Forall (fun c => c <> 13) (normalize_incoming input outcap) /\
  zlen (normalize_incoming input outcap) <= zlen input /\
  zlen (normalize_incoming input outcap) <= Z.max 0 outcap.
Proof.
  unfold normalize_incoming.
  destruct (normalize_loop_shape outcap input [] (Forall_nil _)) as (F & L1 & L2).
  rewrite zlen_nil in *. auto.
Qed.

Lemma normalize_all_fixed (l : list Z) :
  Forall (fun c => c <> 13) l -> normalize_all l = l.
Proof.
  induction 1 as [|c l Hc Hl IH]; [reflexivity|].
  rewrite normalize_all_step, IH.
  destruct (Z.eqb_spec c 13); [contradiction|].
  destruct (Z.eqb_spec c 10) as [->|]; reflexivity.
Qed.

(** X2. With room for its input the normaliser is idempotent: normalising
    its own output changes nothing. *)
Theorem normalize_incoming_idempotent (input : list Z) (outcap : Z) :
  zlen input <= outcap ->
  normalize_incoming (normalize_incoming input outcap) outcap
  = normalize_incoming input outcap.
Proof.
  intros Hroom.
  destruct (normalize_incoming_shape input outcap) as (F & L & _).
  rewrite (normalize_incoming_room outcap (normalize_incoming input outcap))
    by lia.
  now apply normalize_all_fixed.
Qed.

Lemma normalize_incoming_idempotent_witness :
  zlen (bytes "AB" ++ [13; 10; 13] ++ bytes "CD" ++ [10]) <= OUT_SIZE /\
  normalize_incoming (bytes "AB" ++ [13; 10; 13] ++ bytes "CD" ++ [10]) OUT_SIZE
  = bytes "AB" ++ [10; 10] ++ bytes "CD" ++ [10] /\
  normalize_incoming
    (normalize_incoming (bytes "AB" ++ [13; 10; 13] ++ bytes "CD" ++ [10]) OUT_SIZE)
    OUT_SIZE
  = normalize_incoming (bytes "AB" ++ [13; 10; 13] ++ bytes "CD" ++ [10]) OUT_SIZE.
Proof.
  assert (H : zlen (bytes "AB" ++ [13; 10; 13] ++ bytes "CD" ++ [10]) <= OUT_SIZE)
    by (vm_compute; discriminate).
  split; [exact H|]. split; [reflexivity|].
  exact (normalize_incoming_idempotent _ OUT_SIZE H).
Defined.

(** ** The Telnet filter and the escaping of the transmit path *)

Lemma write_telnet_safe_cons (c : Z) (rest : list Z) :
  write_telnet_safe (c :: rest) []
  = (if c =? IAC then [c; c] else [c]) ++ write_telnet_safe rest [].
Proof.
  cbn [write_telnet_safe]. rewrite write_telnet_safe_app.
  destruct (c =? IAC); reflexivity.
Qed.

Lemma telnet_byte_data (outcap cmd : Z) (out tx : list Z) (c : Z) :
  c <> IAC ->
  telnet_byte outcap
    {| f_tp := {| tp_state := 0; tp_cmd := cmd |}; f_out := out; f_tx := tx |} c
  = {| f_tp := {| tp_state := 0; tp_cmd := cmd |};
       f_out := put outcap out c; f_tx := tx |}.
Proof.
  intros Hne. unfold telnet_byte. cbn [f_tp tp_state tp_cmd f_out f_tx].
  destruct (Z.eqb_spec c IAC); [contradiction|reflexivity].
Qed.

Lemma telnet_byte_iac_iac (outcap cmd : Z) (out tx : list Z) :
  telnet_byte outcap
    (telnet_byte outcap
       {| f_tp := {| tp_state := 0; tp_cmd := cmd |}; f_out := out; f_tx := tx |}
       IAC) IAC
  = {| f_tp := {| tp_state := 0; tp_cmd := IAC |};
       f_out := put outcap out IAC; f_tx := tx |}.
Proof. reflexivity. Qed.

Lemma filter_escaped (outcap : Z) (s : list Z) :
  forall cmd out tx,
    zlen out + zlen s <= outcap ->
    exists cmd',
      fold_left (telnet_byte outcap) (write_telnet_safe s [])
        {| f_tp := {| tp_state := 0; tp_cmd := cmd |}; f_out := out; f_tx := tx |}
      = {| f_tp := {| tp_state := 0; tp_cmd := cmd' |};
           f_out := out ++ s; f_tx := tx |}.
Proof.
  induction s as [|c rest IH]; intros cmd out tx Hroom.
  - exists cmd. cbn. now rewrite app_nil_r.
  - rewrite zlen_cons in Hroom. pose proof (zlen_nonneg rest).
    rewrite write_telnet_safe_cons, fold_left_app.
    assert (Hput : forall x, put outcap out x = out ++ [x])
      by (intros x; apply put_room; lia).
    destruct (Z.eqb_spec c IAC) as [->|Hne].
    + cbn [fold_left]. rewrite telnet_byte_iac_iac, Hput.
      destruct (IH IAC (out ++ [IAC]) tx) as [cmd' Hrun];
        [rewrite zlen_snoc; lia|].
      exists cmd'. rewrite Hrun, <- app_assoc. reflexivity.
    + cbn [fold_left]. rewrite (telnet_byte_data outcap cmd out tx c Hne), Hput.
      destruct (IH cmd (out ++ [c]) tx) as [cmd' Hrun];
        [rewrite zlen_snoc; lia|].
      exists cmd'. rewrite Hrun, <- app_assoc. reflexivity.
Qed.

(** X3. What [write_telnet_safe] puts on the wire, a filter in the Data
    state with room for the text reads back as the text itself: the same
    bytes as data, no reply, and the Data state again. *)
Theorem telnet_escape_round_trip (s : list Z) (cmd outcap : Z) :
  zlen s <= outcap ->
  let r := telnet_filter_and_reply {| tp_state := 0; tp_cmd := cmd |}
             (write_telnet_safe s []) outcap in
  f_out r = s /\ f_tx r = [] /\ tp_state (f_tp r) = 0.
Proof.
  intros Hroom r. unfold r, telnet_filter_and_reply.
  destruct (filter_escaped outcap s cmd [] []) as [cmd' Hrun];
    [rewrite zlen_nil; lia|].
  rewrite Hrun. cbn. auto.
Qed.

Lemma telnet_escape_round_trip_witness :
  zlen [65; 255; 66; 255; 255] <= TMP_SIZE /\
  write_telnet_safe [65; 255; 66; 255; 255] []
    = [65; 255; 255; 66; 255; 255; 255; 255] /\
  f_out (telnet_filter_and_reply tp_init
           (write_telnet_safe [65; 255; 66; 255; 255] []) TMP_SIZE)
    = [65; 255; 66; 255; 255].
Proof.
  assert (H : zlen [65; 255; 66; 255; 255] <= TMP_SIZE)
    by (vm_compute; discriminate).
  split; [exact H|]. split; [reflexivity|].
  exact (proj1 (telnet_escape_round_trip [65; 255; 66; 255; 255] 0 TMP_SIZE H)).
Defined.

Lemma refusals_nil : refusals [].
Proof. exists []. split; [reflexivity|constructor]. Qed.

Lemma refusals_snoc (tx : list Z) (c opt : Z) :
  refusals tx -> c = WONT \/ c = DONT -> refusals (tx ++ [IAC; c; opt]).
Proof.
  intros (l & -> & Hl) Hc. exists (l ++ [(c, opt)]). split.
  - rewrite map_app, concat_app. cbn. reflexivity.
  - apply Forall_app. split; [exact Hl|]. constructor; [exact Hc|constructor].
Qed.

Lemma telnet_byte_keeps (outcap : Z) (r : filter_run) (ch : Z) :
  (refusals (f_tx r) -> refusals (f_tx (telnet_byte outcap r ch))) /\
  (0 <= tp_state (f_tp r) <= 4 ->
   0 <= tp_state (f_tp (telnet_byte outcap r ch)) <= 4) /\
  zlen (f_out (telnet_byte outcap r ch)) <= Z.max (zlen (f_out r)) outcap.
Proof.
  destruct r as [[st cmd] out tx].
  pose proof (put_bounds outcap out ch).
  pose proof (put_bounds outcap out IAC).
  unfold telnet_byte, telnet_send3. cbn [f_tp f_out f_tx tp_state tp_cmd].
  repeat match goal with
         | |- context [match ?x with _ => _ end] => destruct x
         end; cbn [f_tp f_out f_tx tp_state];
    (split; [intros Hr; try exact Hr; apply refusals_snoc; auto|split; lia]).
Qed.

Lemma telnet_run_keeps (outcap : Z) (input : list Z) :
  forall r,
    let r' := fold_left (telnet_byte outcap) input r in
    (refusals (f_tx r) -> refusals (f_tx r')) /\
    (0 <= tp_state (f_tp r) <= 4 -> 0 <= tp_state (f_tp r') <= 4) /\
    zlen (f_out r') <= Z.max (zlen (f_out r)) outcap.
Proof.
  induction input as [|ch rest IH]; intros r; cbn [fold_left].
  - cbv zeta. repeat split; auto; lia.
  - specialize (IH (telnet_byte outcap r ch)). cbv zeta in *.
    destruct IH as (I1 & I2 & I3).
    destruct (telnet_byte_keeps outcap r ch) as (K1 & K2 & K3).
    repeat split; auto; lia.
Qed.

(** X4. The filter only ever refuses: the replies of a call are triples
    IAC WONT opt and IAC DONT opt and nothing else; the data it returns
    are no more than the bytes it was given and no more than the capacity;
    and a parser in one of the five states 0..4 stays in one of them. *)
Theorem telnet_filter_only_refuses (tp : telnet_parser_t) (input : list Z)
  (outcap : Z) :
  let r := telnet_filter_and_reply tp input outcap in
  refusals (f_tx r) /\
  zlen (f_out r) <= zlen input /\
  zlen (f_out r) <= Z.max 0 outcap /\
  (0 <= tp_state tp <= 4 -> 0 <= tp_state (f_tp r) <= 4).
Proof.
  intros r. unfold r, telnet_filter_and_reply.
  destruct (telnet_run_keeps outcap input
              {| f_tp := tp; f_out := []; f_tx := [] |}) as (K1 & K2 & K3).
  pose proof (telnet_run_out_length outcap input
                {| f_tp := tp; f_out := []; f_tx := [] |}) as Hlen.
  cbn [f_tp f_out f_tx] in *. rewrite zlen_nil in *.
  repeat split; try (apply K2; assumption); try lia.
  apply K1, refusals_nil.
Qed.

Lemma telnet_filter_only_refuses_witness :
  0 <= tp_state tp_init <= 4 /\
  0 <= tp_state (f_tp (telnet_filter_and_reply tp_init
                         [255; 253; 1; 255; 251; 3; 255; 250; 24] TMP_SIZE)) <= 4 /\
  f_tx (telnet_filter_and_reply tp_init
          [255; 253; 1; 255; 251; 3; 255; 250; 24] TMP_SIZE)
  = [255; 252; 1; 255; 254; 3].
Proof.
  assert (H : 0 <= tp_state tp_init <= 4) by (cbn; lia).
  split; [exact H|]. split; [|reflexivity].
  exact (proj2 (proj2 (proj2 (telnet_filter_only_refuses tp_init
           [255; 253; 1; 255; 251; 3; 255; 250; 24] TMP_SIZE))) H).
Defined.

Lemma telnet_byte_in_sb (outcap cmd : Z) (out tx : list Z) (c : Z) :
  c <> IAC ->
  telnet_byte outcap
    {| f_tp := {| tp_state := 3; tp_cmd := cmd |}; f_out := out; f_tx := tx |} c
  = {| f_tp := {| tp_state := 3; tp_cmd := cmd |}; f_out := out; f_tx := tx |}.
Proof.
  intros Hne. unfold telnet_byte. cbn [f_tp tp_state].
  destruct (Z.eqb_spec c IAC); [contradiction|reflexivity].
Qed.

Lemma subnegotiation_payload (outcap : Z) (payload : list Z) :
  ~ In IAC payload ->
  forall cmd out tx,
    fold_left (telnet_byte outcap) payload
      {| f_tp := {| tp_state := 3; tp_cmd := cmd |}; f_out := out; f_tx := tx |}
    = {| f_tp := {| tp_state := 3; tp_cmd := cmd |}; f_out := out; f_tx := tx |}.
Proof.
  induction payload as [|c rest IH]; intros Hno cmd out tx; [reflexivity|].
  cbn [fold_left]. rewrite telnet_byte_in_sb.
  - apply IH. intros H. apply Hno. now right.
  - intros ->. apply Hno. now left.
Qed.

(** X5. A subnegotiation is thrown away: from the Data state, IAC SB, a
    payload without IAC, and IAC SE give no data and no reply and leave the
    parser in the Data state, whatever the capacity. *)
Theorem subnegotiation_discarded (payload : list Z) (cmd outcap : Z) :
  ~ In IAC payload ->
  telnet_filter_and_reply {| tp_state := 0; tp_cmd := cmd |}
    ([IAC; SB] ++ payload ++ [IAC; SE]) outcap
  = {| f_tp := {| tp_state := 0; tp_cmd := SB |}; f_out := []; f_tx := [] |}.
Proof.
  intros Hno. unfold telnet_filter_and_reply.
  rewrite fold_left_app. cbn [fold_left app].
  change (telnet_byte outcap
            (telnet_byte outcap
               {| f_tp := {| tp_state := 0; tp_cmd := cmd |};
                  f_out := []; f_tx := [] |} IAC) SB)
    with {| f_tp := {| tp_state := 3; tp_cmd := SB |};
            f_out := @nil Z; f_tx := @nil Z |}.
  rewrite fold_left_app, (subnegotiation_payload outcap payload Hno).
  reflexivity.
Qed.

Lemma subnegotiation_discarded_witness :
  ~ In IAC [24; 1] /\
  telnet_filter_and_reply tp_init ([IAC; SB] ++ [24; 1] ++ [IAC; SE]) TMP_SIZE
  = {| f_tp := {| tp_state := 0; tp_cmd := SB |}; f_out := []; f_tx := [] |}.
Proof.
  assert (H : ~ In IAC [24; 1]).
  { intros [H|[H|[]]]; discriminate. }
  split; [exact H|].
  exact (subnegotiation_discarded [24; 1] 0 TMP_SIZE H).
Defined.

(** ** The receive path across reads *)

(** X6. Packet boundaries do not show in the lines: fed chunk by chunk the
    accumulator emits the same lines, and keeps the same rest, as fed the
    concatenation of the chunks at once; and the rest it keeps never holds
    a line feed. *)
Theorem rx_accumulator_chunk_invariance (chunks : list (list Z)) :
  feed_all [] chunks = feed_all [] [concat chunks] /\
  ~ In 10 (snd (feed_all [] chunks)).
Proof.
  rewrite !feed_all_spec by (intros []). cbn [concat app].
  rewrite app_nil_r. split; [reflexivity|apply split_lf_clean].
Qed.

(** Away from a carriage return the normaliser distributes over an
    append. *)
Lemma normalize_all_app (a b : list Z) :
  last a 0 <> 13 -> normalize_all (a ++ b) = normalize_all a ++ normalize_all b.
Proof.
  induction a as [|x|x y l IHl IHyl] using list_pair_ind; intros Hlast.
  - reflexivity.
  - cbn [last] in Hlast. cbn [app]. rewrite (normalize_all_step x b).
    rewrite (normalize_all_step x []).
    destruct (Z.eqb_spec x 13); [contradiction|].
    destruct (x =? 10); reflexivity.
  - assert (Hyl : last (y :: l) 0 <> 13) by exact Hlast.
    assert (Hl : last l 0 <> 13).
    { destruct l as [|z l']; [cbn; lia|exact Hlast]. }
    change ((x :: y :: l) ++ b) with (x :: y :: (l ++ b)).
    rewrite (normalize_all_step x (y :: l ++ b)).
    rewrite (normalize_all_step x (y :: l)). cbv beta iota.
    change (y :: l ++ b) with ((y :: l) ++ b).
    destruct (x =? 13).
    + destruct (y =? 10); [rewrite (IHl Hl)|rewrite (IHyl Hyl)]; reflexivity.
    + destruct (x =? 10); rewrite (IHyl Hyl); reflexivity.
Qed.

Lemma rx_reads_one (tp : telnet_parser_t) (rx_acc data : list Z) :
  rx_reads tp rx_acc [data]
  = rx_feed rx_acc
      (normalize_incoming (f_out (telnet_filter_and_reply tp data TMP_SIZE))
         OUT_SIZE).
Proof.
  cbn [rx_reads]. destruct (rx_feed _ _) as [l a]. now rewrite app_nil_r.
Qed.

Lemma telnet_filter_out_le (outcap : Z) (tp : telnet_parser_t)
  (input : list Z) :
  zlen (f_out (telnet_filter_and_reply tp input outcap)) <= zlen input.
Proof.
  pose proof (telnet_run_out_length outcap input
                {| f_tp := tp; f_out := []; f_tx := [] |}) as Hlen.
  cbn [f_out] in Hlen. change (zlen (@nil Z)) with 0 in Hlen.
  unfold telnet_filter_and_reply. lia.
Qed.

Lemma telnet_filter_out_app (outcap : Z) (tp : telnet_parser_t)
  (B1 B2 : list Z) :
  zlen (B1 ++ B2) <= outcap ->
  f_out (telnet_filter_and_reply tp (B1 ++ B2) outcap)
  = f_out (telnet_filter_and_reply tp B1 outcap)
    ++ f_out (telnet_filter_and_reply
                (f_tp (telnet_filter_and_reply tp B1 outcap)) B2 outcap).
Proof.
  intros Hroom. pose proof (telnet_filter_out_le outcap tp B1) as Hlen.
  unfold telnet_filter_and_reply at 1. rewrite fold_left_app.
  fold (telnet_filter_and_reply tp B1 outcap).
  destruct (telnet_filter_and_reply tp B1 outcap) as [tp1 o1 t1].
  cbn [f_out f_tp] in *.
  rewrite <- (app_nil_r o1) at 1. rewrite <- (app_nil_r t1).
  rewrite (telnet_run_shift outcap B2 tp1 o1 [] t1 []).
  - reflexivity.
  - rewrite app_nil_r. rewrite zlen_app in Hroom. lia.
Qed.

Lemma rx_reads_two (tp : telnet_parser_t) (B1 B2 : list Z) :
  rx_reads tp [] [B1; B2]
  = feed_all []
      [normalize_incoming (f_out (telnet_filter_and_reply tp B1 TMP_SIZE)) OUT_SIZE;
       normalize_incoming
         (f_out (telnet_filter_and_reply
                   (f_tp (telnet_filter_and_reply tp B1 TMP_SIZE)) B2 TMP_SIZE))
         OUT_SIZE].
Proof.
  cbn [rx_reads feed_all].
  destruct (rx_feed [] _) as [l1 a1]. destruct (rx_feed a1 _) as [l2 a2].
  reflexivity.
Qed.

(** X7. The whole receive path does not see where a read ends, unless it
    ends on a carriage return: when the data of the first read do not end
    with CR and the two reads fit the buffers of [main], the two reads give
    the same lines and the same rest as the one read of their
    concatenation. *)
Theorem rx_path_split_invariance (tp : telnet_parser_t) (B1 B2 : list Z) :
  zlen (B1 ++ B2) <= TMP_SIZE ->
  last (f_out (telnet_filter_and_reply tp B1 TMP_SIZE)) 0 <> 13 ->
  rx_reads tp [] [B1; B2] = rx_reads tp [] [B1 ++ B2].
Proof.
  intros Hroom Hlast.
  rewrite rx_reads_two, rx_reads_one.
  rewrite (telnet_filter_out_app TMP_SIZE tp B1 B2 Hroom).
  set (o1 := f_out (telnet_filter_and_reply tp B1 TMP_SIZE)) in *.
  set (o2 := f_out (telnet_filter_and_reply _ B2 TMP_SIZE)) in *.
  assert (H1 : zlen o1 <= zlen B1)
    by (unfold o1; apply telnet_filter_out_le).
  assert (H2 : zlen o2 <= zlen B2)
    by (unfold o2; apply telnet_filter_out_le).
  rewrite zlen_app in Hroom.
  pose proof (zlen_nonneg B1). pose proof (zlen_nonneg B2).
  pose proof (zlen_nonneg o1). pose proof (zlen_nonneg o2).
  assert (Hsame : TMP_SIZE = OUT_SIZE) by reflexivity.
  rewrite !normalize_incoming_room by (rewrite ?zlen_app; lia).
  rewrite (normalize_all_app o1 o2 Hlast).
  rewrite (feed_all_spec [normalize_all o1; normalize_all o2] [])
    by (intros []).
  rewrite rx_feed_spec by (intros []).
  cbn [concat app]. now rewrite app_nil_r.
Qed.

(** The reads AB CR LF C and then D LF. *)
Lemma rx_path_split_invariance_witness :
  rx_reads tp_init [] [[65; 66; 13; 10; 67]; [68; 10]]
  = rx_reads tp_init [] [[65; 66; 13; 10; 67] ++ [68; 10]].
Proof.
  apply rx_path_split_invariance.
  - vm_compute. discriminate.
  - vm_compute. discriminate.
Defined.

(** ** Decoding, tabs and the input row *)

Lemma cstr_length (s : list Z) : zlen (cstr s) <= zlen s.
Proof.
  induction s as [|c s IH]; cbn [cstr]; [lia|].
  destruct (c =? 0); rewrite ?zlen_cons; [|lia].
  pose proof (zlen_nonneg s). unfold zlen at 1. simpl. lia.
Qed.

Lemma cstr_no_nul (s : list Z) : Forall (fun c => c <> 0) (cstr s).
Proof.
  induction s as [|c s IH]; cbn [cstr]; [constructor|].
  destruct (Z.eqb_spec c 0); constructor; assumption.
Qed.

Lemma cstr_id (s : list Z) : Forall (fun c => c <> 0) s -> cstr s = s.
Proof.
  induction 1 as [|c s Hc Hs IH]; cbn [cstr]; [reflexivity|].
  destruct (Z.eqb_spec c 0); [contradiction|now rewrite IH].
Qed.

Section WideProps.
Context {L : Locale}.

Lemma mb_advance_pos (m : mb_result) : (1 <= mb_advance m)%nat.
Proof.
  unfold mb_advance. destruct m as [wc r| |]; try lia.
  destruct (Nat.eqb_spec r 0); lia.
Qed.

Lemma utf8_loop_length (p : list Z) : (length (utf8_loop p) <= length p)%nat.
Proof.
  funelim (utf8_loop p); [simpl; lia|].
  cbn [length]. rewrite length_skipn in H. cbn [length] in H.
  pose proof (mb_advance_pos (mbrtowc (b :: rest))). lia.
Qed.

(** X8. Decoding never lengthens: the wide string holds at most one
    character per byte of the C string it is decoded from, so the
    [n+1] characters allocated at the start always suffice; and it holds no
    null character. *)
Theorem utf8_to_wcs_lossy_bounds (s : list Z) :
  zlen (utf8_to_wcs_lossy s) <= zlen (cstr s) /\
  zlen (cstr s) <= zlen s /\
  Forall (fun c => c <> 0) (utf8_to_wcs_lossy s).
Proof.
  unfold utf8_to_wcs_lossy. split; [|split].
  - pose proof (cstr_length (utf8_loop (cstr s))).
    pose proof (utf8_loop_length (cstr s)). unfold zlen in *. lia.
  - apply cstr_length.
  - apply cstr_no_nul.
Qed.

Lemma utf8_loop_ascii (s : list Z) :
  (forall b rest, 0 < b < 128 -> mbrtowc (b :: rest) = MbChar b 1) ->
  Forall (fun b => 0 < b < 128) s -> utf8_loop s = s.
Proof.
  intros Hloc. induction 1 as [|b rest Hb Hrest IH]; simp utf8_loop;
    [reflexivity|].
  cbv zeta. rewrite (Hloc b rest Hb). cbn [mb_char mb_advance Nat.eqb skipn].
  now rewrite IH.
Qed.

(** X9. In a locale that decodes the bytes 1..127 as themselves, one byte
    each (as the C and the UTF-8 locales do), a string of such bytes is
    decoded to itself. *)
Theorem utf8_to_wcs_lossy_ascii (s : list Z) :
  (forall b rest, 0 < b < 128 -> mbrtowc (b :: rest) = MbChar b 1) ->
  Forall (fun b => 0 < b < 128) s ->
  utf8_to_wcs_lossy s = s.
Proof.
  intros Hloc Hs.
  assert (Hnz : Forall (fun c => c <> 0) s)
    by (eapply Forall_impl; [|exact Hs]; cbv beta; intros; lia).
  unfold utf8_to_wcs_lossy. rewrite (cstr_id s Hnz).
  rewrite (utf8_loop_ascii s Hloc Hs). now apply cstr_id.
Qed.

Lemma expand_tabs_loop_no_tab (tabstop : Z) (input : list Z) :
  forall col, ~ In 9 (expand_tabs_loop tabstop input col).
Proof.
  induction input as [|ch rest IH]; intros col; cbn [expand_tabs_loop].
  - intros [].
  - destruct (Z.eqb_spec ch 9) as [->|Hne].
    + cbv zeta. intros Hin. apply in_app_or in Hin. destruct Hin as [Hin|Hin].
      * apply repeat_spec in Hin. discriminate.
      * exact (IH _ Hin).
    + intros [Heq|Hin]; [congruence|exact (IH _ Hin)].
Qed.

Lemma expand_tabs_loop_id (tabstop : Z) (input : list Z) :
  ~ In 9 input -> forall col, expand_tabs_loop tabstop input col = input.
Proof.
  induction input as [|ch rest IH]; intros Hno col; cbn [expand_tabs_loop];
    [reflexivity|].
  destruct (Z.eqb_spec ch 9) as [->|Hne]; [exfalso; apply Hno; now left|].
  rewrite IH; [reflexivity|]. intros Hin. apply Hno. now right.
Qed.

(** X10. After the expansion no tab is left, whatever the tab stop; and a
    line without tabs is not changed. *)
Theorem expand_tabs_no_tab (input : list Z) (tabstop : Z) :
  ~ In 9 (expand_tabs_wcs input tabstop) /\
  (~ In 9 input -> expand_tabs_wcs input tabstop = input).
Proof.
  unfold expand_tabs_wcs. split.
  - apply expand_tabs_loop_no_tab.
  - intros Hno. now apply expand_tabs_loop_id.
Qed.

Lemma line_width_spaces (n : nat) :
  cell_width 32 = 1 -> line_width (repeat 32 n) = Z.of_nat n.
Proof.
  intros H32. induction n as [|n IH]; [reflexivity|].
  cbn [repeat]. unfold line_width in *. cbn [fold_right]. rewrite IH, H32. lia.
Qed.

(** The distance to the next tab stop, from a column that is not
    negative. *)
Lemma tab_spaces (tabstop col : Z) :
  0 < tabstop -> 0 <= col ->
  let next := (Z.quot col tabstop + 1) * tabstop in
  1 <= next - col <= tabstop /\ next mod tabstop = 0.
Proof.
  intros Hts Hcol next. unfold next.
  pose proof (Z.quot_rem' col tabstop) as Hqr.
  pose proof (Z.rem_bound_pos col tabstop Hcol Hts) as Hrem.
  split; [nia|]. apply Z.mod_mul. lia.
Qed.

(** The loop keeps [col] equal to the width of what it has written. *)
Lemma expand_tabs_loop_app (tabstop : Z) (a b : list Z) :
  0 < tabstop -> cell_width 32 = 1 ->
  forall col, 0 <= col ->
    expand_tabs_loop tabstop (a ++ b) col
    = expand_tabs_loop tabstop a col
      ++ expand_tabs_loop tabstop b
           (col + line_width (expand_tabs_loop tabstop a col)).
Proof.
  intros Hts H32. induction a as [|ch rest IH]; intros col Hcol.
  - cbn [app expand_tabs_loop line_width fold_right]. now rewrite Z.add_0_r.
  - cbn [app expand_tabs_loop]. destruct (Z.eqb_spec ch 9) as [->|Hne].
    + destruct (Z.ltb_spec 0 tabstop); [|lia]. cbv zeta.
      destruct (tab_spaces tabstop col Hts Hcol) as [Hsp _]. cbv zeta in Hsp.
      set (next := (Z.quot col tabstop + 1) * tabstop) in *.
      destruct (Z.ltb_spec (next - col) 1); [lia|].
      rewrite IH by lia. rewrite <- app_assoc. do 2 f_equal.
      rewrite line_width_app, (line_width_spaces _ H32). f_equal. lia.
    + pose proof (cell_width_nonneg ch).
      rewrite IH by lia. cbn [app]. do 3 f_equal.
      change (line_width (ch :: ?l)) with (cell_width ch + line_width l). lia.
Qed.

(** X11. With a positive tab stop and spaces one cell wide, a tab is
    replaced by between one and [tabstop] spaces, as many as bring the
    width of the line so far to a multiple of the tab stop. *)
Theorem expand_tabs_aligns (before : list Z) (tabstop : Z) :
  0 < tabstop -> cell_width 32 = 1 ->
  exists n,
    1 <= n <= tabstop /\
    expand_tabs_wcs (before ++ [9]) tabstop
    = expand_tabs_wcs before tabstop ++ repeat 32 (Z.to_nat n) /\
    line_width (expand_tabs_wcs (before ++ [9]) tabstop) mod tabstop = 0.
Proof.
  intros Hts H32. unfold expand_tabs_wcs.
  rewrite (expand_tabs_loop_app tabstop before [9] Hts H32 0 (Z.le_refl 0)).
  set (out := expand_tabs_loop tabstop before 0).
  pose proof (line_width_nonneg out) as Hout.
  cbn [expand_tabs_loop]. change (9 =? 9) with true. cbv iota zeta.
  destruct (Z.ltb_spec 0 tabstop); [|lia].
  assert (Hcol : 0 <= 0 + line_width out) by lia.
  destruct (tab_spaces tabstop (0 + line_width out) Hts Hcol) as [Hsp Hmod].
  cbv zeta in Hsp, Hmod.
  set (next := (Z.quot (0 + line_width out) tabstop + 1) * tabstop) in *.
  destruct (Z.ltb_spec (next - (0 + line_width out)) 1); [lia|].
  exists (next - (0 + line_width out)). rewrite app_nil_r.
  split; [exact Hsp|]. split; [reflexivity|].
  rewrite line_width_app, (line_width_spaces _ H32), Z2Nat.id by lia.
  replace (line_width out + (next - (0 + line_width out))) with next by lia.
  exact Hmod.
Qed.

(** The loop of [tail_offset_fit] when it has taken the characters [suf]
    and still has [pre] before them. *)
Lemma tail_scan_spec (maxcols : Z) (pre : list Z) :
  forall suf,
    line_width suf <= maxcols ->
    let k := tail_scan maxcols (rev pre) (line_width suf) (length pre) in
    (k <= length pre)%nat /\
    line_width (skipn k (pre ++ suf)) <= maxcols /\
    ((0 < k)%nat -> maxcols < line_width (skipn (k - 1) (pre ++ suf))).
Proof.
  induction pre as [|ch pre' IH] using rev_ind; intros suf Hfit.
  - cbn. split; [lia|]. split; [exact Hfit|lia].
  - rewrite rev_unit. cbn [tail_scan]. cbv zeta.
    rewrite length_app, length_rev. cbn [length].
    destruct (Z.ltb_spec maxcols (line_width suf + cell_width ch)) as [Hov|Hok].
    + split; [lia|]. split.
      * replace (length pre' + 1)%nat with (length (pre' ++ [ch]))
          by (rewrite length_app; reflexivity).
        rewrite skipn_app, skipn_all, Nat.sub_diag. exact Hfit.
      * intros _. replace (length pre' + 1 - 1)%nat with (length pre') by lia.
        rewrite <- app_assoc, skipn_app, skipn_all, Nat.sub_diag.
        cbn [skipn app].
        change (line_width (ch :: suf)) with (cell_width ch + line_width suf).
        lia.
    + specialize (IH (ch :: suf)).
      change (line_width (ch :: suf)) with (cell_width ch + line_width suf) in IH.
      rewrite (Z.add_comm (cell_width ch)) in IH.
      specialize (IH Hok). cbv zeta in IH.
      destruct IH as (Hk & Hw & Hmax).
      rewrite <- app_assoc. cbn [app]. split; [lia|]. split; assumption.
Qed.

Lemma tail_offset_fit_spec (buf : list Z) (maxcols : Z) :
  let k := tail_offset_fit buf maxcols in
  (k <= length (cstr buf))%nat /\
  line_width (skipn k (cstr buf)) <= Z.max 0 maxcols /\
  (0 < maxcols -> (0 < k)%nat ->
   maxcols < line_width (skipn (k - 1) (cstr buf))).
Proof.
  unfold tail_offset_fit. destruct (Z.leb_spec maxcols 0) as [Hle|Hpos].
  - cbv zeta. split; [lia|]. split; [|lia]. rewrite skipn_all. cbn. lia.
  - pose proof (tail_scan_spec maxcols (cstr buf) [] ltac:(cbn; lia)) as H.
    cbv zeta in H. rewrite app_nil_r in H. cbn [line_width fold_right] in H.
    destruct H as (Hk & Hw & Hmax). cbv zeta.
    split; [exact Hk|]. split; [lia|]. intros _. exact Hmax.
Qed.

(** X12. The input row never runs over and shows the longest tail that
    fits: on a terminal of at least three columns the prompt and the text
    drawn after it leave the last column free; the text drawn is a tail of
    the buffer; and on a terminal of at least four columns, when a part of
    the buffer is hidden, the tail one character longer would not fit. *)
Theorem render_input_fits (d : display) (buf : list Z) :
  3 <= cols d ->
  PROMPT_LEN + line_width (render_input d buf) <= cols d - 1 /\
  exists hidden,
    cstr buf = hidden ++ render_input d buf /\
    (4 <= cols d -> hidden <> [] ->
     cols d - 1
     < PROMPT_LEN + line_width (last hidden 0 :: render_input d buf)).
Proof.
  intros Hcols. unfold render_input.
  destruct (tail_offset_fit_spec buf (input_room d)) as (Hk & Hw & Hmax).
  assert (Hroom : input_room d = cols d - PROMPT_LEN - 1).
  { unfold input_room, PROMPT_LEN in *.
    destruct (Z.ltb_spec (cols d - 2 - 1) 0); lia. }
  set (k := tail_offset_fit buf (input_room d)) in *.
  split; [rewrite Hroom in Hw; unfold PROMPT_LEN in *; lia|].
  exists (firstn k (cstr buf)). split; [now rewrite firstn_skipn|].
  intros Hwide Hne.
  assert (Hkpos : (0 < k)%nat).
  { destruct k; [contradiction Hne; reflexivity|lia]. }
  assert (Hlast : skipn (k - 1) (cstr buf)
                  = last (firstn k (cstr buf)) 0 :: skipn k (cstr buf)).
  { rewrite <- (firstn_skipn (k - 1) (firstn k (cstr buf))) at 1.
    rewrite firstn_firstn, Nat.min_l by lia.
    assert (Hone : length (skipn (k - 1) (firstn k (cstr buf))) = 1%nat)
      by (rewrite length_skipn, length_firstn; lia).
    destruct (skipn (k - 1) (firstn k (cstr buf))) as [|x [|y t]] eqn:Hsk;
      try discriminate Hone.
    rewrite last_last.
    rewrite <- (firstn_skipn k (cstr buf)) at 1.
    rewrite skipn_app, length_firstn, Nat.min_l by lia.
    replace (k - 1 - k)%nat with 0%nat by lia. cbn [skipn].
    rewrite Hsk. reflexivity. }
  assert (Hpos : 0 < input_room d) by (rewrite Hroom; unfold PROMPT_LEN; lia).
  specialize (Hmax Hpos Hkpos). rewrite Hlast, Hroom in Hmax. lia.
Qed.

End WideProps.

Lemma sample_mbrtowc_ascii (b : Z) (rest : list Z) :
  0 < b < 128 -> mbrtowc (Locale := sample_locale) (b :: rest) = MbChar b 1.
Proof.
  intros Hb. cbn [mbrtowc sample_locale]. unfold sample_mbrtowc.
  destruct (Z.eqb_spec b 0); [lia|].
  destruct (Z.ltb_spec b 128); [reflexivity|lia].
Qed.

(** The word login: in the sample locale. *)
Lemma utf8_to_wcs_lossy_ascii_witness :
  utf8_to_wcs_lossy (L := sample_locale) (bytes "login:") = bytes "login:".
Proof.
  apply (utf8_to_wcs_lossy_ascii (L := sample_locale)).
  - exact sample_mbrtowc_ascii.
  - simpl. repeat (constructor; [lia|]). constructor.
Defined.

Lemma expand_tabs_no_tab_witness :
  expand_tabs_wcs (L := sample_locale) [65; 66] 8 = [65; 66].
Proof.
  apply (proj2 (expand_tabs_no_tab (L := sample_locale) [65; 66] 8)).
  intros [H|[H|[]]]; discriminate H.
Defined.

(** AB and a tab, at the tab stop of [main]. *)
Lemma expand_tabs_aligns_witness :
  exists n,
    1 <= n <= 8 /\
    expand_tabs_wcs (L := sample_locale) ([65; 66] ++ [9]) 8
    = expand_tabs_wcs (L := sample_locale) [65; 66] 8 ++ repeat 32 (Z.to_nat n) /\
    line_width (L := sample_locale)
      (expand_tabs_wcs (L := sample_locale) ([65; 66] ++ [9]) 8) mod 8 = 0.
Proof.
  apply (expand_tabs_aligns (L := sample_locale) [65; 66] 8);
    [lia|reflexivity].
Defined.

(** Eleven characters typed on a terminal ten columns wide. *)
Lemma render_input_fits_witness :
  3 <= cols (display_init 24 10) /\
  PROMPT_LEN
  + line_width (L := sample_locale)
      (render_input (L := sample_locale) (display_init 24 10)
         (bytes "hello world"))
  <= cols (display_init 24 10) - 1.
Proof.
  assert (H : 3 <= cols (display_init 24 10)) by (cbn; lia).
  split; [exact H|].
  exact (proj1 (render_input_fits (L := sample_locale) (display_init 24 10)
                  (bytes "hello world") H)).
Defined.

(** ** Wrap: short lines and continuation lines *)

Section WrapMore.
Context {L : Locale}.

Lemma wrap_from_lt (width : Z) (line : list Z) (i : nat) :
  (i < length line)%nat ->
  wrap_from width line i
  = firstn (fst (wrap_cut width line i) - i) (skipn i line)
      :: wrap_from width line (snd (wrap_cut width line i)).
Proof. intros Hlt. funelim (wrap_from width line i); [reflexivity|lia]. Qed.

Lemma wrap_from_ge (width : Z) (line : list Z) (i : nat) :
  (length line <= i)%nat -> wrap_from width line i = [].
Proof. intros Hge. funelim (wrap_from width line i); [lia|reflexivity]. Qed.

(** The inner loop on a rest that fits and does not fill the width before
    its last character: it runs to the end without overflow. *)
Lemma wrap_scan_fits (width : Z) (rest : list Z) :
  forall i col lb cb,
    col + line_width rest <= width ->
    col + line_width (removelast rest) < width ->
    let s := wrap_scan width rest i col lb cb in
    sc_overflow s = false /\ sc_i s = (i + length rest)%nat.
Proof.
  induction rest as [|ch rest' IH]; intros i col lb cb Hfit Hpre; cbv zeta.
  - cbn. split; [reflexivity|lia].
  - pose proof (cell_width_nonneg ch) as Hw.
    pose proof (line_width_nonneg rest') as Hr.
    change (line_width (ch :: rest')) with (cell_width ch + line_width rest')
      in Hfit.
    cbn [wrap_scan]. cbv zeta.
    destruct (Z.ltb_spec width (col + cell_width ch)); [lia|].
    destruct rest' as [|c2 rest''].
    + destruct (col + cell_width ch =? width); cbn; split; try reflexivity; lia.
    + change (removelast (ch :: c2 :: rest''))
        with (ch :: removelast (c2 :: rest'')) in Hpre.
      change (line_width (ch :: ?l)) with (cell_width ch + line_width l) in Hpre.
      pose proof (line_width_nonneg (removelast (c2 :: rest''))).
      destruct (Z.eqb_spec (col + cell_width ch) width); [lia|].
      match goal with
      | |- context [wrap_scan width _ (S i) _ ?lb' ?cb'] =>
          specialize (IH (S i) (col + cell_width ch) lb' cb')
      end.
      cbv zeta in IH. destruct IH as [Ho Hi]; [lia|lia|].
      split; [exact Ho|]. rewrite Hi. cbn [length]. lia.
Qed.

(** X13. Short lines. An empty line gives no visual line at all, so a
    blank line received from the node is stored but never drawn, with or
    without follow; a line
    that is not empty, fits the width and does not fill it before its last
    character is one visual line, itself. *)
Theorem wrap_short_line (line : list Z) (W : Z) (d : display) :
  wrap_segments [] W = [] /\
  (forall follow, visual (add_logical_line_w d [] follow) = visual d) /\
  (line <> [] ->
   line_width line <= clamp_width W ->
   line_width (removelast line) < clamp_width W ->
   wrap_segments line W = [line]).
Proof.
  split; [|split].
  - unfold wrap_segments. now apply wrap_from_ge.
  - intros follow.
    unfold add_logical_line_w, wrap_and_push_wide, wrap_segments. cbv zeta.
    rewrite wrap_from_ge by (cbn; lia). cbn [fold_left].
    destruct follow; destruct (store_count d <? STORE_MAX); reflexivity.
  - intros Hne Hfit Hpre. unfold wrap_segments.
    assert (Hlen : (0 < length line)%nat)
      by (destruct line; [contradiction|cbn; lia]).
    rewrite (wrap_from_lt _ _ _ Hlen).
    destruct (wrap_scan_fits (clamp_width W) line 0 0 (-1) 0) as [Ho Hi];
      [lia|lia|].
    unfold wrap_cut. cbn [skipn fst snd]. unfold segment_end.
    rewrite Ho, Hi. cbn [Nat.add]. rewrite skipn_all. cbn [skip_spaces].
    rewrite Nat.sub_0_r, firstn_all.
    now rewrite wrap_from_ge by lia.
Qed.

Lemma skip_spaces_stops (rest : list Z) :
  forall e, hd 0 (skipn (skip_spaces rest e - e) rest) <> 32.
Proof.
  induction rest as [|ch rest' IH]; intros e; cbn [skip_spaces].
  - rewrite Nat.sub_diag. cbn. lia.
  - destruct (Z.eqb_spec ch 32) as [->|Hne].
    + pose proof (skip_spaces_ge rest' (S e)) as Hge.
      replace (skip_spaces rest' (S e) - e)%nat
        with (S (skip_spaces rest' (S e) - S e)) by lia.
      cbn [skipn]. apply IH.
    + rewrite Nat.sub_diag. exact Hne.
Qed.

(** The segments from [i] on, when the line has no space at [i]. *)
Lemma wrap_from_no_leading_space (width : Z) (line : list Z) (i : nat) :
  hd 0 (skipn i line) <> 32 ->
  Forall (fun seg => hd 0 seg <> 32) (wrap_from width line i).
Proof.
  funelim (wrap_from width line i); intros Hhd; [|constructor].
  destruct (wrap_cut_progress width line i Hlt) as [Hie Hen].
  constructor.
  - destruct (skipn i line) as [|c0 t0] eqn:Hsk;
      [rewrite firstn_nil; exact Hhd|].
    destruct (fst (wrap_cut width line i) - i)%nat eqn:Hd; [lia|].
    exact Hhd.
  - apply H. unfold wrap_cut in *. cbn [fst snd] in *.
    set (e := segment_end i _) in *.
    pose proof (skip_spaces_stops (skipn e line) e) as Hstop.
    rewrite skipn_skipn in Hstop.
    replace (skip_spaces (skipn e line) e - e + e)%nat
      with (skip_spaces (skipn e line) e) in Hstop by lia.
    exact Hstop.
Qed.

(** X14. No continuation line starts with a space: of the visual lines of
    a logical line, only the first can begin with one. *)
Theorem wrap_no_leading_space (line : list Z) (W : Z) :
  Forall (fun seg => hd 0 seg <> 32) (tl (wrap_segments line W)).
Proof.
  unfold wrap_segments. destruct (lt_dec 0 (length line)) as [Hlt|Hge].
  - rewrite (wrap_from_lt _ _ _ Hlt). cbn [tl].
    apply wrap_from_no_leading_space.
    unfold wrap_cut. cbn [fst snd].
    set (e := segment_end 0 _).
    pose proof (skip_spaces_stops (skipn e line) e) as Hstop.
    pose proof (skip_spaces_ge (skipn e line) e).
    rewrite skipn_skipn in Hstop.
    replace (skip_spaces (skipn e line) e - e + e)%nat
      with (skip_spaces (skipn e line) e) in Hstop by lia.
    exact Hstop.
  - rewrite wrap_from_ge by lia. constructor.
Qed.

End WrapMore.

(** The word hello on a pane of 80 columns. *)
Lemma wrap_short_line_witness :
  wrap_segments (L := sample_locale) (bytes "hello") 79 = [bytes "hello"].
Proof.
  apply (proj2 (proj2 (wrap_short_line (L := sample_locale) (bytes "hello") 79
                         (display_init 24 80)))).
  - discriminate.
  - vm_compute. discriminate.
  - vm_compute. reflexivity.
Defined.

(** ** The visual ring as a function of what was pushed *)

Section PaneMore.
Context {L : Locale}.

(** Pushing [segs] drops from the front of the ring as many lines as run
    over its capacity, and moves the scroll position back by as many. *)
Lemma push_all_spec (segs : list (list Z)) :
  forall d,
    vis_count d <= VIS_MAX ->
    let d' := fold_left push_visual_w segs d in
    let e := Z.to_nat (vis_count d + zlen segs - VIS_MAX) in
    visual d' = skipn e (visual d ++ segs) /\
    store d' = store d /\ rows d' = rows d /\ cols d' = cols d /\
    (0 <= view_top d -> view_top d' = Z.max 0 (view_top d - Z.of_nat e)).
Proof.
  induction segs as [|s rest IH]; intros d Hv; cbv zeta.
  - cbn [fold_left]. rewrite zlen_nil, app_nil_r.
    replace (Z.to_nat (vis_count d + 0 - VIS_MAX)) with 0%nat by lia.
    cbn [skipn]. repeat split; try reflexivity. intros; lia.
  - cbn [fold_left]. rewrite zlen_cons.
    pose proof (zlen_nonneg rest) as Hrest.
    unfold push_visual_w at 2 4 6 8 10.
    destruct (Z.ltb_spec (vis_count d) VIS_MAX) as [Hroom|Hfull].
    + match goal with |- context [fold_left _ rest ?d1] =>
        specialize (IH d1) end.
      unfold vis_count in IH at 1 2. cbn [visual store rows cols view_top] in IH.
      rewrite zlen_snoc in IH. fold (vis_count d) in IH.
      cbv zeta in IH. destruct IH as (H1 & H2 & H3 & H4 & H5); [lia|].
      replace (vis_count d + (zlen rest + 1) - VIS_MAX)
        with (vis_count d + 1 + zlen rest - VIS_MAX) by lia.
      rewrite H1, <- app_assoc. repeat split; assumption.
    + assert (Hvc : vis_count d = VIS_MAX) by lia.
      match goal with |- context [fold_left _ rest ?d1] =>
        specialize (IH d1) end.
      unfold vis_count in IH at 1 2. cbn [visual store rows cols view_top] in IH.
      unfold vis_count in Hvc.
      destruct (visual d) as [|x v'] eqn:Hvis;
        [unfold zlen, VIS_MAX in Hvc; cbn in Hvc; lia|].
      cbn [tl] in IH |- *. rewrite zlen_snoc in IH. rewrite zlen_cons in Hvc.
      cbv zeta in IH. destruct IH as (H1 & H2 & H3 & H4 & H5); [lia|].
      unfold vis_count. rewrite Hvis, zlen_cons.
      replace (Z.to_nat (zlen v' + 1 + (zlen rest + 1) - VIS_MAX))
        with (S (Z.to_nat (zlen v' + 1 + zlen rest - VIS_MAX))) by lia.
      rewrite H1, <- app_assoc. cbn [app skipn].
      repeat split; try assumption.
      intros Hvt. rewrite H5 by (destruct (Z.ltb_spec 0 (view_top d)); lia).
      destruct (Z.ltb_spec 0 (view_top d)); lia.
Qed.

Lemma wrap_all_is_push_all (width : Z) (lines : list (list Z)) :
  forall d,
    fold_left (fun a line => wrap_and_push_wide a line width) lines d
    = fold_left push_visual_w
        (concat (map (fun line => wrap_segments line width) lines)) d.
Proof.
  induction lines as [|line rest IH]; intros d; cbn [fold_left map concat];
    [reflexivity|].
  rewrite fold_left_app, IH. reflexivity.
Qed.

(** X15. After a reflow the visual ring is a function of the store and the
    width alone: it holds the visual lines of all stored lines, in order,
    the last [VIS_MAX] of them when there are more; the store and the size
    are not touched. *)
Theorem reflow_visual (d : display) (keep_bottom : bool) :
  let d' := reflow d keep_bottom in
  visual d'
  = keep_last VIS_MAX
      (concat (map (fun line => wrap_segments line (cols d - 1)) (store d))) /\
  store d' = store d /\ rows d' = rows d /\ cols d' = cols d.
Proof.
  cbv zeta. unfold reflow. cbv zeta. rewrite wrap_all_is_push_all.
  destruct (push_all_spec
              (concat (map (fun line => wrap_segments line (cols d - 1))
                           (store (free_visual d))))
              (free_visual d)) as (H1 & H2 & H3 & H4 & _).
  { unfold vis_count, free_visual, VIS_MAX. cbn. lia. }
  unfold vis_count in H1. cbn [free_visual visual store app] in *.
  rewrite zlen_nil, Z.add_0_l in H1.
  destruct keep_bottom; unfold to_bottom, set_view_top;
    cbn [visual store rows cols]; rewrite H1, H2, H3, H4;
    repeat split; reflexivity.
Qed.

(** X16. A pane that is scrolled back keeps its place when a line is
    appended without follow: the ring drops [e] lines from its front, as
    many as run over [VIS_MAX], the scroll position moves back by [e] and
    stops at zero, and while the line at the top of the view is not
    dropped the same line stays at the top. *)
Theorem append_keeps_place (d : display) (line : list Z) :
  vis_count d <= VIS_MAX -> 0 <= view_top d ->
  let segs := wrap_segments line (cols d - 1) in
  let e := Z.max 0 (vis_count d + zlen segs - VIS_MAX) in
  let d' := add_logical_line_w d line false in
  visual d' = skipn (Z.to_nat e) (visual d ++ segs) /\
  view_top d' = Z.max 0 (view_top d - e) /\
  (e <= view_top d -> view_top d < vis_count d ->
   nth_error (visual d') (Z.to_nat (view_top d'))
   = nth_error (visual d) (Z.to_nat (view_top d))).
Proof.
  intros Hv Hvt. cbv zeta.
  unfold add_logical_line_w, wrap_and_push_wide. cbv zeta.
  set (d1 := if store_count d <? STORE_MAX then _ else _).
  assert (Hd1 : visual d1 = visual d /\ view_top d1 = view_top d /\
                cols d1 = cols d).
  { unfold d1. destruct (store_count d <? STORE_MAX); cbn; auto. }
  destruct Hd1 as (Hd1v & Hd1t & Hd1c).
  destruct (push_all_spec (wrap_segments line (cols d1 - 1)) d1)
    as (H1 & _ & _ & _ & H5).
  { unfold vis_count. rewrite Hd1v. exact Hv. }
  unfold vis_count in H1, H5. rewrite Hd1v, Hd1t, Hd1c in *.
  fold (vis_count d) in H1, H5.
  set (segs := wrap_segments line (cols d - 1)) in *.
  pose proof (zlen_nonneg segs) as Hsegs.
  assert (He : Z.to_nat (Z.max 0 (vis_count d + zlen segs - VIS_MAX))
               = Z.to_nat (vis_count d + zlen segs - VIS_MAX)) by lia.
  rewrite He. specialize (H5 Hvt).
  split; [exact H1|]. split; [rewrite H5; lia|].
  intros Hkeep Htop. rewrite H1, H5, nth_error_skipn.
  rewrite nth_error_app1 by (unfold vis_count, zlen in Htop; lia).
  f_equal. lia.
Qed.

Lemma to_bottom_following (d : display) : is_following (to_bottom d) = true.
Proof.
  unfold is_following, to_bottom, set_view_top, max_top, visible_rows, vis_count.
  cbn [visual view_top rows]. zcases; lia.
Qed.

Lemma show_line_follows (d : display) (line8 : list Z) :
  is_following d = true ->
  is_following (show_line d line8) = true /\
  view_top (show_line d line8) = max_top (show_line d line8).
Proof.
  intros Hf. unfold show_line. cbv zeta. rewrite Hf.
  unfold add_logical_line_w. cbv zeta.
  split; [apply to_bottom_following|reflexivity].
Qed.

(** X17. A pane that follows the tail keeps following it: after any
    number of received lines it still follows, and once a line has been
    shown the view is at the bottom. *)
Theorem following_is_kept (lines : list (list Z)) (d : display) :
  is_following d = true ->
  let d' := fold_left show_line lines d in
  is_following d' = true /\ (lines <> [] -> view_top d' = max_top d').
Proof.
  revert d. induction lines as [|l rest IH] using rev_ind; intros d Hf;
    cbv zeta.
  - cbn [fold_left]. split; [exact Hf|]. intros H. now contradiction H.
  - rewrite fold_left_app. cbn [fold_left].
    destruct (IH d Hf) as [Hf' _].
    destruct (show_line_follows (fold_left show_line rest d) l Hf') as [H1 H2].
    split; [exact H1|]. intros _. exact H2.
Qed.

End PaneMore.

(** A line appended to a pane that is scrolled back: the view stays at
    its sixth line. *)
Lemma append_keeps_place_witness :
  is_following scrolled_pane = false /\
  view_top (add_logical_line_w (L := sample_locale) scrolled_pane
              (bytes "hello") false) = 5 /\
  nth_error (visual (add_logical_line_w (L := sample_locale) scrolled_pane
                       (bytes "hello") false)) 5
  = nth_error (visual scrolled_pane) 5.
Proof.
  assert (H1 : vis_count scrolled_pane <= VIS_MAX)
    by (vm_compute; discriminate).
  assert (H2 : 0 <= view_top scrolled_pane) by (cbn; lia).
  destruct (append_keeps_place (L := sample_locale) scrolled_pane
              (bytes "hello") H1 H2) as (_ & Hv & Hline).
  split; [reflexivity|].
  assert (Hv5 : view_top (add_logical_line_w (L := sample_locale)
                            scrolled_pane (bytes "hello") false) = 5)
    by (rewrite Hv; vm_compute; reflexivity).
  split; [exact Hv5|].
  rewrite Hv5 in Hline. apply Hline; vm_compute; [discriminate|reflexivity].
Defined.

Lemma following_is_kept_witness :
  is_following
    (fold_left (show_line (L := sample_locale)) [bytes "one"; bytes "two"]
       (display_init 24 80)) = true.
Proof.
  apply (following_is_kept (L := sample_locale) [bytes "one"; bytes "two"]
           (display_init 24 80)).
  reflexivity.
Defined.

(** ** The clock, the recent window and the options *)

(** X18. [since_ms] is within one millisecond of the time elapsed, on
    either side: it is not ahead when the nanoseconds of the later read are
    not below those of the earlier one, and not behind otherwise, so that a
    delay can be taken as elapsed up to one millisecond early. *)
Theorem since_ms_within_one_ms (a b : timespec) :
  ns_between a b - 1000000 < since_ms a b * 1000000 < ns_between a b + 1000000 /\
  (tv_nsec a <= tv_nsec b -> since_ms a b * 1000000 <= ns_between a b) /\
  (tv_nsec b <= tv_nsec a -> ns_between a b <= since_ms a b * 1000000).
Proof.
  unfold ns_between, since_ms.
  pose proof (Z.quot_rem' (tv_nsec b - tv_nsec a) 1000000) as Hqr.
  pose proof (Z.rem_bound_abs (tv_nsec b - tv_nsec a) 1000000) as Habs.
  split; [lia|]. split; intros Hord.
  - pose proof (Z.rem_bound_pos (tv_nsec b - tv_nsec a) 1000000). lia.
  - pose proof (Z.rem_bound_pos (tv_nsec a - tv_nsec b) 1000000) as Hpos.
    pose proof (Z.rem_opp_l (tv_nsec a - tv_nsec b) 1000000) as Hopp.
    replace (- (tv_nsec a - tv_nsec b)) with (tv_nsec b - tv_nsec a) in Hopp
      by lia.
    lia.
Qed.

(** From 0.9995 s to 1 s: half a millisecond, measured as one. *)
Lemma since_ms_within_one_ms_witness :
  ns_between {| tv_sec := 0; tv_nsec := 999500000 |}
             {| tv_sec := 1; tv_nsec := 0 |} = 500000 /\
  500000 <= since_ms {| tv_sec := 0; tv_nsec := 999500000 |}
                     {| tv_sec := 1; tv_nsec := 0 |} * 1000000.
Proof.
  split; [reflexivity|].
  apply (proj2 (proj2 (since_ms_within_one_ms
                         {| tv_sec := 0; tv_nsec := 999500000 |}
                         {| tv_sec := 1; tv_nsec := 0 |}))).
  cbn. lia.
Defined.

Lemma keep_last_all {A} (n : Z) (l : list A) : zlen l <= n -> keep_last n l = l.
Proof.
  intros H. unfold keep_last.
  replace (Z.to_nat (zlen l - n)) with 0%nat by lia. reflexivity.
Qed.

Lemma zlen_skipn {A} (n : nat) (l : list A) :
  zlen (skipn n l) = Z.max 0 (zlen l - Z.of_nat n).
Proof. unfold zlen. rewrite length_skipn. lia. Qed.

(** X19. The window [recent] holds the last 8192 bytes received, and once
    it is full the newest byte is lost: an update leaves the last
    [RECENT_SIZE] bytes of the old window followed by the new bytes, whole
    when they are fewer than [RECENT_SIZE], otherwise with the last of them
    replaced by the terminator. *)
Theorem recent_window (recent out : list Z) :
  zlen recent <= RECENT_SIZE ->
  let all := keep_last RECENT_SIZE (recent ++ out) in
  recent_update recent out
  = (if zlen all <? RECENT_SIZE then all
     else firstn (Z.to_nat (RECENT_SIZE - 1)) all ++ [0]) /\
  zlen (recent_update recent out) <= RECENT_SIZE.
Proof.
  intros Hr. cbv zeta.
  assert (Hfilled :
    (if RECENT_SIZE <? zlen recent
                       + (if RECENT_SIZE <? zlen out then RECENT_SIZE
                          else zlen out)
     then skipn (Z.to_nat
                   (let sh := zlen recent
                              + (if RECENT_SIZE <? zlen out then RECENT_SIZE
                                 else zlen out) - RECENT_SIZE in
                    if zlen recent <? sh then zlen recent else sh)) recent
     else recent)
    ++ skipn (Z.to_nat (zlen out - (if RECENT_SIZE <? zlen out then RECENT_SIZE
                                    else zlen out))) out
    = keep_last RECENT_SIZE (recent ++ out)).
  { unfold keep_last. rewrite zlen_app, skipn_app.
    pose proof (zlen_nonneg recent). pose proof (zlen_nonneg out).
    cbv zeta. unfold RECENT_SIZE in *.
    destruct (Z.ltb_spec 8192 (zlen out)) as [Hbig|Hsmall].
    - destruct (Z.ltb_spec 8192 (zlen recent + 8192)) as [H1|H1].
      + destruct (Z.ltb_spec (zlen recent) (zlen recent + 8192 - 8192)); [lia|].
        rewrite !(skipn_all2 recent) by (unfold zlen in *; lia).
        cbn [app]. f_equal. unfold zlen in *. lia.
      + assert (Hnil : recent = []).
        { destruct recent as [|c0 r0]; [reflexivity|].
          pose proof (zlen_nonneg r0). rewrite zlen_cons in *. lia. }
        subst recent. rewrite !skipn_nil. cbn [app length].
        change (zlen (@nil Z)) with 0. f_equal. lia.
    - destruct (Z.ltb_spec 8192 (zlen recent + zlen out)) as [H1|H1].
      + destruct (Z.ltb_spec (zlen recent) (zlen recent + zlen out - 8192));
          [lia|].
        replace (Z.to_nat (zlen out - zlen out)) with 0%nat by lia.
        replace (Z.to_nat (zlen recent + zlen out - 8192) - length recent)%nat
          with 0%nat by (unfold zlen in *; lia).
        reflexivity.
      + replace (Z.to_nat (zlen out - zlen out)) with 0%nat by lia.
        replace (Z.to_nat (zlen recent + zlen out - 8192)) with 0%nat by lia.
        reflexivity. }
  unfold recent_update. cbv zeta. cbv zeta in Hfilled. rewrite Hfilled.
  split; [reflexivity|].
  set (all := keep_last RECENT_SIZE (recent ++ out)).
  destruct (Z.ltb_spec (zlen all) RECENT_SIZE); [lia|].
  rewrite zlen_snoc. unfold zlen. rewrite length_firstn.
  unfold RECENT_SIZE. lia.
Qed.

(** The first bytes of a session: the window is not full. *)
Lemma recent_window_witness :
  recent_update (bytes "log") (bytes "in:") = bytes "login:".
Proof.
  assert (H : zlen (bytes "log") <= RECENT_SIZE) by (vm_compute; discriminate).
  rewrite (proj1 (recent_window (bytes "log") (bytes "in:") H)).
  reflexivity.
Defined.

Lemma Forall_firstn_keeps {A} (P : A -> Prop) (l : list A) :
  Forall P l -> forall n, Forall P (firstn n l).
Proof.
  induction 1 as [|x l Hx Hl IH]; intros [|n]; cbn [firstn]; constructor; auto.
Qed.

(** X20. What the command line leaves behind when it is accepted: the
    blind machine is enabled exactly by [--blind-auto] and never without
    the prompt machine; an enabled machine has a user name and a password
    that are not empty; both machines hold the same credentials, each of
    at most 127 bytes and without NUL. *)
Theorem configure_credentials (user pass : option (list Z)) (blind_auto : bool)
  (al : autologin_prompt_t) (ab : autologin_blind_t) :
  configure user pass blind_auto = Some (al, ab) ->
  alb_enabled ab = blind_auto /\
  (alb_enabled ab = true -> alp_enabled al = true) /\
  (alp_enabled al = true -> alp_user al <> [] /\ alp_pass al <> []) /\
  alb_user ab = alp_user al /\ alb_pass ab = alp_pass al /\
  zlen (alp_user al) <= 127 /\ zlen (alp_pass al) <= 127 /\
  Forall (fun c => c <> 0) (alp_user al) /\
  Forall (fun c => c <> 0) (alp_pass al).
Proof.
  unfold configure. cbv zeta.
  set (u := match user with Some s => firstn 127 (cstr s) | None => [] end).
  set (p := match pass with Some s => firstn 127 (cstr s) | None => [] end).
  set (alp_on := match user, pass with None, None => false | _, _ => true end).
  assert (Hlen : forall x, zlen (match x with
                                 | Some s => firstn 127 (cstr s)
                                 | None => []
                                 end) <= 127).
  { intros [x|]; unfold zlen; [rewrite length_firstn|cbn]; lia. }
  assert (Hnz : forall x, Forall (fun c => c <> 0)
                            (match x with
                             | Some s => firstn 127 (cstr s)
                             | None => []
                             end)).
  { intros [x|]; [|constructor]. apply Forall_firstn_keeps, cstr_no_nul. }
  destruct ((alp_on || blind_auto) && _) eqn:Hrefuse; [discriminate|].
  intros E. inversion E; subst al ab. cbn.
  apply andb_false_iff in Hrefuse.
  assert (Hcred : alp_on || blind_auto = true -> u <> [] /\ p <> []).
  { intros Hon. destruct Hrefuse as [Hoff|Hempty]; [congruence|].
    apply orb_false_iff in Hempty. destruct Hempty as [Hu Hp].
    split; intros Heq; [rewrite Heq in Hu|rewrite Heq in Hp]; discriminate. }
  split; [reflexivity|]. split; [|split].
  - intros ->. rewrite orb_true_r in Hcred. destruct (Hcred eq_refl) as [Hu _].
    unfold alp_on. unfold u in Hu. destruct user; [reflexivity|].
    now contradiction Hu.
  - intros Hon. rewrite Hon in Hcred. now apply Hcred.
  - repeat split; try reflexivity; try apply Hlen; apply Hnz.
Qed.

Lemma configure_credentials_witness :
  match configure (Some (bytes "N0CALL")) (Some (bytes "secret")) true with
  | Some (al, ab) => alb_enabled ab = true /\ alp_enabled al = true
  | None => False
  end.
Proof.
  destruct (configure (Some (bytes "N0CALL")) (Some (bytes "secret")) true)
    as [[al ab]|] eqn:E; [|vm_compute in E; discriminate E].
  destruct (configure_credentials _ _ _ al ab E) as (H1 & H2 & _).
  split; [exact H1|exact (H2 H1)].
Defined.

(** ** Low-level output *)

Lemma write_all_prefix (ws : list write_outcome) :
  forall buf wire r ok,
    write_all ws buf wire = Some (r, ok) ->
    (ok = true -> r = wire ++ buf) /\
    exists unsent, wire ++ buf = r ++ unsent.
Proof.
  induction ws as [|w later IH]; intros buf wire r ok.
  - destruct buf as [|b buf']; cbn [write_all]; [|discriminate].
    intros E. inversion E; subst. rewrite app_nil_r.
    split; [reflexivity|]. exists []. now rewrite app_nil_r.
  - destruct buf as [|b buf'].
    { cbn [write_all]. intros E. inversion E; subst. rewrite app_nil_r.
      split; [reflexivity|]. exists []. now rewrite app_nil_r. }
    cbn [write_all]. destruct w as [n| |].
    + intros E. apply IH in E. rewrite <- app_assoc, firstn_skipn in E. exact E.
    + intros E. apply IH in E. exact E.
    + intros E. inversion E; subst. split; [discriminate|].
      now exists (b :: buf').
Qed.

Lemma write_all_done (ws : list write_outcome) :
  forall buf wire,
    Forall (fun w => exists n, w = WBytes (S n)) ws ->
    (length buf <= length ws)%nat ->
    write_all ws buf wire = Some (wire ++ buf, true).
Proof.
  induction ws as [|w later IH]; intros buf wire Hall Hlen.
  - destruct buf; [|cbn in Hlen; lia]. cbn. now rewrite app_nil_r.
  - destruct buf as [|b buf']; [cbn; now rewrite app_nil_r|].
    inversion Hall as [|w' l' [n ->] Hlater]; subst.
    cbn [write_all]. rewrite IH; [|exact Hlater|].
    + now rewrite <- app_assoc, firstn_skipn.
    + rewrite length_skipn. cbn [length] in *. lia.
Qed.

(** X21. [write_all] resumes short writes and retries interrupted ones
    without losing, repeating or reordering a byte: when it returns [len]
    the socket has received exactly the buffer, when it returns -1 a prefix
    of it; and when every [write] takes at least one byte it returns [len]
    after at most [len] writes. *)
Theorem write_all_resumes (ws : list write_outcome) (buf : list Z) :
  (forall r ok,
     write_all ws buf [] = Some (r, ok) ->
     (ok = true -> r = buf) /\ exists unsent, buf = r ++ unsent) /\
  (Forall (fun w => exists n, w = WBytes (S n)) ws ->
   (length buf <= length ws)%nat ->
   write_all ws buf [] = Some (buf, true)).
Proof.
  split.
  - intros r ok E. exact (write_all_prefix ws buf [] r ok E).
  - intros Hall Hlen. exact (write_all_done ws buf [] Hall Hlen).
Qed.

(** A write of two bytes, an interruption, and a write of the rest. *)
Lemma write_all_resumes_witness :
  write_all [WBytes 2; WEintr; WBytes 5] (bytes "hello") []
  = Some (bytes "hello", true) /\
  exists unsent, bytes "hello" = bytes "hello" ++ unsent.
Proof.
  assert (E : write_all [WBytes 2; WEintr; WBytes 5] (bytes "hello") []
              = Some (bytes "hello", true)) by reflexivity.
  split; [exact E|].
  exact (proj2 (proj1 (write_all_resumes [WBytes 2; WEintr; WBytes 5]
                         (bytes "hello")) _ _ E)).
Defined.

(** ** The keyboard and the session as a whole *)

Section SessionMore.
Context {L : Locale}.

Lemma render_out_rings (d : display) :
  store (render_out d) = store d /\ visual (render_out d) = visual d.
Proof. unfold render_out. destruct (max_top d <? view_top d); now split. Qed.

(** Under the lock a key other than Control-Z changes neither the transmit
    log nor the rings. *)
Lemma locked_key_quiet (o : options) (s s' : session) (w : wake) :
  input_locked s = true ->
  key_phase o s w = Some s' ->
  w_key w <> Some 26 -> w_key w <> Some KEY_SUSPEND ->
  s_tx s' = s_tx s /\
  store (s_disp s') = store (s_disp s) /\
  visual (s_disp s') = visual (s_disp s).
Proof.
  intros Hlock. unfold key_phase.
  destruct (w_key w) as [wch|];
    [|intros E _ _; inversion E; subst; repeat split; reflexivity].
  intros E Hz Hs.
  destruct ((wch =? KEY_F10) || (wch =? 3)); [discriminate|].
  destruct ((wch =? 26) || (wch =? KEY_SUSPEND)) eqn:Hcz.
  { exfalso. apply orb_true_iff in Hcz.
    destruct Hcz as [H|H]; apply Z.eqb_eq in H; subst wch;
      [apply Hz|apply Hs]; reflexivity. }
  unfold key_ppage, key_npage, key_home, key_end, key_up, key_down,
    to_bottom, submit in E.
  rewrite Hlock in E. cbn [negb] in E.
  repeat match type of E with
         | (if ?c then _ else _) = Some _ => destruct c
         end;
    inversion E; subst; cbn [s_tx s_disp set_disp set_ibuf];
    try (split; [reflexivity|]);
    try match goal with
        | |- context [render_out ?d] =>
            destruct (render_out_rings d) as [-> ->]
        end;
    try (split; reflexivity);
    try (destruct (0 <? view_top _); split; reflexivity);
    try (destruct (view_top _ <? max_top _); split; reflexivity);
    try (destruct (zlen (s_ibuf s) <? _); repeat split; reflexivity).
Qed.

(** X22. The lock guards the keyboard: while the input is locked no key
    except Control-Z sends a byte or changes the rings, and Enter throws
    the typed line away without sending or echoing it. *)
Theorem locked_keys_send_nothing (o : options) (s s' : session) (w : wake) :
  input_locked s = true ->
  key_phase o s w = Some s' ->
  w_key w <> Some 26 -> w_key w <> Some KEY_SUSPEND ->
  s_tx s' = s_tx s /\
  store (s_disp s') = store (s_disp s) /\
  visual (s_disp s') = visual (s_disp s) /\
  (w_key w = Some 10 \/ w_key w = Some 13 -> s_ibuf s' = []).
Proof.
  intros Hlock E Hz Hs.
  destruct (locked_key_quiet o s s' w Hlock E Hz Hs) as (H1 & H2 & H3).
  split; [exact H1|]. split; [exact H2|]. split; [exact H3|].
  intros Hk. unfold key_phase in E.
  destruct Hk as [Hk|Hk]; rewrite Hk in E; cbn in E; inversion E; subst;
    unfold submit; rewrite Hlock; reflexivity.
Qed.

Lemma encode_loop_room (src : list Z) :
  (forall wc b, In wc src -> wcrtomb wc = Some b -> zlen b <= 4) ->
  forall left, 4 * zlen src <= left -> encode_loop src left = encode_all src.
Proof.
  induction src as [|wc rest IH]; intros Hmax left Hleft; [reflexivity|].
  cbn [encode_loop]. cbv zeta. unfold encode_all. cbn [map concat].
  fold (encode_all rest).
  set (buf := match wcrtomb wc with Some b => b | None => [63] end).
  assert (Hbuf : zlen buf <= 4).
  { unfold buf. destruct (wcrtomb wc) as [b|] eqn:Hw.
    - apply (Hmax wc b); [now left|exact Hw].
    - unfold zlen. cbn. lia. }
  rewrite zlen_cons in Hleft. pose proof (zlen_nonneg rest).
  destruct (Z.ltb_spec left (zlen buf)); [lia|].
  rewrite IH; [reflexivity| |lia].
  intros wc' b' Hin. apply Hmax. now right.
Qed.

(** X23. The submitted line is never cut short by the size of its buffer:
    when no character takes more than four bytes, the [4*len+1] bytes
    allocated hold the encoding of every character of the line. *)
Theorem encode_never_truncates (src : list Z) :
  (forall wc b, In wc src -> wcrtomb wc = Some b -> zlen b <= 4) ->
  encode_loop src (4 * zlen src + 1) = encode_all src.
Proof. intros Hmax. apply encode_loop_room; [exact Hmax|lia]. Qed.

Lemma not_behind_refl (s : session) : not_behind s s.
Proof. unfold not_behind. repeat split; auto; lia. Qed.

Lemma not_behind_trans (a b c : session) :
  not_behind a b -> not_behind b c -> not_behind a c.
Proof.
  unfold not_behind.
  intros (A1 & A2 & A3 & A4 & A5 & A6) (B1 & B2 & B3 & B4 & B5 & B6).
  repeat split; auto; try lia; congruence.
Qed.

Ltac eqb_props :=
  repeat match goal with
         | H : (_ && _) = true |- _ => apply andb_prop in H; destruct H
         | H : (_ =? _) = true |- _ => apply Z.eqb_eq in H
         | H : (_ <? _) = true |- _ => apply Z.ltb_lt in H
         | H : (_ <=? _) = true |- _ => apply Z.leb_le in H
         end.

Lemma blind_phase_not_behind (o : options) (s : session) (w : wake) :
  not_behind s (blind_phase o s w) /\
  s_ibuf (blind_phase o s w) = s_ibuf s.
Proof.
  unfold blind_phase, autologin_try_blind.
  destruct (alb_enabled (s_alb s) && (alb_stage (s_alb s) <? 2)) eqn:Hon;
    [|split; [apply not_behind_refl|reflexivity]].
  destruct (negb (alb_enabled (s_alb s)) || (2 <=? alb_stage (s_alb s)));
    [split; [|reflexivity]; unfold not_behind; cbn;
     destruct (s_alb s); repeat split; auto; lia|].
  destruct ((alb_stage (s_alb s) =? 0) && _) eqn:H0.
  { eqb_props. split; [|reflexivity]. unfold not_behind. cbn.
    repeat split; auto; lia. }
  destruct ((alb_stage (s_alb s) =? 1) && _) eqn:H1.
  { eqb_props. split; [|reflexivity]. unfold not_behind. cbn.
    repeat split; auto; lia. }
  split; [|reflexivity]. unfold not_behind. cbn.
  destruct (s_alb s); repeat split; auto; lia.
Qed.

Lemma try_prompt_not_behind (o : options) (al : autologin_prompt_t)
  (recent tx : list Z) :
  let al' := fst (autologin_try_prompt o al recent tx) in
  alp_state al <= alp_state al' /\
  (alp_enabled al', alp_user al', alp_pass al')
  = (alp_enabled al, alp_user al, alp_pass al).
Proof.
  cbv zeta. unfold autologin_try_prompt.
  destruct (negb (alp_enabled al) || (2 <=? alp_state al));
    [cbn; split; [lia|reflexivity]|].
  destruct (Z.eqb_spec (alp_state al) 0) as [E0|_].
  { destruct (login_marker recent); cbn; split; try reflexivity; lia. }
  destruct (Z.eqb_spec (alp_state al) 1) as [E1|_];
    [|cbn; split; [lia|reflexivity]].
  destruct (password_marker recent); cbn; split; try reflexivity; lia.
Qed.

Lemma rx_phase_not_behind (o : options) (s : session) (w : wake)
  (data : list Z) :
  not_behind s (rx_phase o s w data) /\
  s_ibuf (rx_phase o s w data) = s_ibuf s.
Proof.
  unfold rx_phase. cbv zeta.
  destruct (normalize_incoming _ _) as [|b out];
    [split; [|reflexivity]; unfold not_behind; cbn; repeat split; auto; lia|].
  destruct (rx_feed (s_rx_acc s) (b :: out)) as [lines acc].
  set (recent := recent_update (s_recent s) (b :: out)).
  set (tx0 := s_tx s ++ _).
  pose proof (try_prompt_not_behind o (s_alp s) (cstr recent) tx0) as Htry.
  cbv zeta in Htry.
  destruct (alp_enabled (s_alp s) && (alp_state (s_alp s) <? 2)).
  - destruct (autologin_try_prompt o (s_alp s) (cstr recent) tx0) as [al tx1].
    cbn [fst] in Htry. destruct Htry as [H1 H2].
    split; [|reflexivity]. unfold not_behind. cbn.
    repeat split; auto; try lia.
    intros ->. now destruct (alp_state al =? 2).
  - split; [|reflexivity]. unfold not_behind. cbn.
    repeat split; auto; lia.
Qed.

Lemma unlock_phase_not_behind (o : options) (s : session) (w : wake) :
  not_behind s (unlock_phase o s w) /\
  s_ibuf (unlock_phase o s w) = s_ibuf s.
Proof.
  unfold unlock_phase.
  destruct (input_locked s && _);
    [|split; [apply not_behind_refl|reflexivity]].
  destruct (unlock_delay_ms o <=? _);
    (split; [|reflexivity]); unfold not_behind; cbn; repeat split; auto; lia.
Qed.

Lemma auto_help_phase_not_behind (o : options) (s : session) :
  not_behind s (auto_help_phase o s) /\
  s_ibuf (auto_help_phase o s) = s_ibuf s.
Proof.
  unfold auto_help_phase.
  destruct (_ && _); [|split; [apply not_behind_refl|reflexivity]].
  split; [|reflexivity]. unfold not_behind. cbn. repeat split; auto; lia.
Qed.

Lemma zlen_removelast {A} (l : list A) : zlen (removelast l) <= zlen l.
Proof.
  induction l as [|x l IH]; [cbn; lia|].
  destruct l as [|y l']; [unfold zlen; cbn; lia|].
  change (removelast (x :: y :: l')) with (x :: removelast (y :: l')).
  rewrite (zlen_cons x (removelast (y :: l'))), (zlen_cons x (y :: l')). lia.
Qed.

Lemma key_phase_not_behind (o : options) (s s' : session) (w : wake) :
  key_phase o s w = Some s' ->
  not_behind s s' /\ (ibuf_ok s -> ibuf_ok s').
Proof.
  unfold key_phase, ctrl_z, submit, ibuf_ok.
  destruct (w_key w) as [wch|];
    [|intros E; inversion E; subst; split; [apply not_behind_refl|auto]].
  pose proof (zlen_removelast (s_ibuf s)) as Hrl.
  repeat match goal with
         | |- (if ?c then _ else _) = Some _ -> _ => destruct c eqn:?
         end;
    intros E; inversion E; subst; clear E;
    repeat match goal with
           | |- context [if ?c then _ else _] => destruct c eqn:?
           end;
    (split;
     [unfold not_behind;
      cbn [s_alp s_alb login_done_flag auto_help_sent
           set_tx set_disp set_ibuf set_locked];
      repeat split; auto; lia
     |cbn [s_ibuf set_tx set_disp set_ibuf set_locked]; intros Hok;
      rewrite ?zlen_snoc; eqb_props;
      unfold zlen, IBUF_SIZE in *; cbn [length] in *; lia]).
Qed.

Lemma step_not_behind (o : options) (s s' : session) (w : wake) :
  step o s w = Some s' -> not_behind s s' /\ (ibuf_ok s -> ibuf_ok s').
Proof.
  unfold step. cbv zeta.
  set (s1 := match w_resize w with
             | Some (r, c) => set_disp s (resize (s_disp s) r c)
             | None => s
             end).
  assert (H1 : not_behind s s1 /\ s_ibuf s1 = s_ibuf s).
  { unfold s1. destruct (w_resize w) as [[r c]|];
      (split; [|reflexivity]); unfold not_behind; cbn;
      repeat split; auto; lia. }
  destruct H1 as [N1 I1]. clearbody s1.
  destruct (blind_phase_not_behind o s1 w) as [N2 I2].
  destruct (w_sock w) as [| |[|b data]|]; try discriminate.
  - destruct (unlock_phase_not_behind o (blind_phase o s1 w) w) as [N3 I3].
    destruct (auto_help_phase_not_behind o
                (unlock_phase o (blind_phase o s1 w) w)) as [N4 I4].
    intros E. destruct (key_phase_not_behind o _ s' w E) as [N5 I5].
    split.
    + exact (not_behind_trans _ _ _ N1
               (not_behind_trans _ _ _ N2
                  (not_behind_trans _ _ _ N3
                     (not_behind_trans _ _ _ N4 N5)))).
    + intros Hok. apply I5. unfold ibuf_ok in *. rewrite I4, I3, I2, I1.
      exact Hok.
  - destruct (rx_phase_not_behind o (blind_phase o s1 w) w (b :: data))
      as [Nr Ir].
    destruct (unlock_phase_not_behind o
                (rx_phase o (blind_phase o s1 w) w (b :: data)) w) as [N3 I3].
    destruct (auto_help_phase_not_behind o
                (unlock_phase o
                   (rx_phase o (blind_phase o s1 w) w (b :: data)) w))
      as [N4 I4].
    intros E. destruct (key_phase_not_behind o _ s' w E) as [N5 I5].
    split.
    + exact (not_behind_trans _ _ _ N1
               (not_behind_trans _ _ _ N2
                  (not_behind_trans _ _ _ Nr
                     (not_behind_trans _ _ _ N3
                        (not_behind_trans _ _ _ N4 N5))))).
    + intros Hok. apply I5. unfold ibuf_ok in *. rewrite I4, I3, Ir, I2, I1.
      exact Hok.
Qed.

Lemma run_not_behind (o : options) (ws : list wake) :
  forall s s', run o s ws = Some s' ->
               not_behind s s' /\ (ibuf_ok s -> ibuf_ok s').
Proof.
  induction ws as [|w rest IH]; intros s s'; cbn [run].
  - intros E. inversion E; subst. split; [apply not_behind_refl|auto].
  - destruct (step o s w) as [s1|] eqn:Hstep; [|discriminate].
    intros E. destruct (step_not_behind o s s1 w Hstep) as [N1 I1].
    destruct (IH s1 s' E) as [N2 I2].
    split; [exact (not_behind_trans _ _ _ N1 N2)|auto].
Qed.

(** X24. A session never goes back: along any run of the loop neither
    login machine returns to an earlier state, so that no credential is
    asked for again, the login-done and help-sent flags are never cleared,
    and the machines stay enabled or disabled and keep their credentials. *)
Theorem session_never_goes_back (o : options) (ws : list wake)
  (s s' : session) :
  run o s ws = Some s' -> not_behind s s'.
Proof. intros E. exact (proj1 (run_not_behind o ws s s' E)). Qed.

(** X25. The input buffer never overflows: along any run of the loop it
    holds at most [IBUF_SIZE - 1] characters, whatever is typed. *)
Theorem input_buffer_bounded (o : options) (ws : list wake) (s s' : session) :
  run o s ws = Some s' ->
  zlen (s_ibuf s) <= IBUF_SIZE - 1 ->
  zlen (s_ibuf s') <= IBUF_SIZE - 1.
Proof. intros E. exact (proj2 (run_not_behind o ws s s' E)). Qed.

End SessionMore.

(** The letter A typed while the input is locked. *)
Lemma locked_keys_send_nothing_witness :
  match key_phase (L := sample_locale) default_options locked_session
          (wake_at timespec0 SockIdle (Some 65)) with
  | Some s' => s_tx s' = s_tx locked_session
  | None => False
  end.
Proof.
  destruct (key_phase (L := sample_locale) default_options locked_session
              (wake_at timespec0 SockIdle (Some 65))) as [s'|] eqn:E;
    [|vm_compute in E; discriminate E].
  apply (locked_keys_send_nothing (L := sample_locale) default_options
           locked_session s' (wake_at timespec0 SockIdle (Some 65)));
    [reflexivity|exact E|cbn; discriminate|cbn; discriminate].
Defined.

(** The letters h, e-acute and the euro sign in the sample locale. *)
Lemma encode_never_truncates_witness :
  encode_loop (L := sample_locale) [104; 233; 8364] (4 * zlen [104; 233; 8364] + 1)
  = encode_all (L := sample_locale) [104; 233; 8364].
Proof.
  apply (encode_never_truncates (L := sample_locale)).
  intros wc b Hin Hw. cbn [In] in Hin.
  destruct Hin as [<-|[<-|[<-|[]]]]; vm_compute in Hw;
    injection Hw as <-; vm_compute; discriminate.
Defined.

(** The session of the quiet prompt: it has sent the user name and is in
    state 1. *)
Lemma session_never_goes_back_witness :
  match start_session (Some (bytes "U")) (Some (bytes "P")) false
          (at_ms 0) (at_ms 0) 24 80 with
  | Some s =>
      match run (L := sample_locale) default_options s
              [wake_at (at_ms 10) (SockRead (bytes "login:")) None] with
      | Some s' => not_behind s s'
      | None => False
      end
  | None => False
  end.
Proof.
  destruct (start_session _ _ _ _ _ _ _) as [s|] eqn:E0;
    [|vm_compute in E0; discriminate E0].
  destruct (run (L := sample_locale) default_options s _) as [s'|] eqn:E.
  - exact (session_never_goes_back (L := sample_locale) default_options _ s s' E).
  - vm_compute in E0. injection E0 as <-. vm_compute in E. discriminate E.
Defined.

(** Two letters typed into the empty buffer of the locked session. *)
Lemma input_buffer_bounded_witness :
  match run (L := sample_locale) default_options locked_session
          [wake_at timespec0 SockIdle (Some 65);
           wake_at timespec0 SockIdle (Some 66)] with
  | Some s' => zlen (s_ibuf s') <= IBUF_SIZE - 1
  | None => False
  end.
Proof.
  destruct (run (L := sample_locale) default_options locked_session _)
    as [s'|] eqn:E; [|vm_compute in E; discriminate E].
  apply (input_buffer_bounded (L := sample_locale) default_options _
           locked_session s' E).
  vm_compute. discriminate.
Defined.

(** ** From the keyboard of one client to the pane of another *)

Lemma write_telnet_safe_concat (a b : list Z) :
  write_telnet_safe (a ++ b) []
  = write_telnet_safe a [] ++ write_telnet_safe b [].
Proof.
  induction a as [|c a IH]; [reflexivity|].
  cbn [app]. rewrite !write_telnet_safe_cons, IH. now rewrite app_assoc.
Qed.

Lemma write_telnet_safe_longer (s : list Z) :
  zlen s <= zlen (write_telnet_safe s []).
Proof.
  induction s as [|c s IH]; [cbn; lia|].
  rewrite write_telnet_safe_cons, zlen_app, zlen_cons.
  destruct (c =? IAC); unfold zlen at 2; cbn [length]; lia.
Qed.

Lemma last_Forall {A} (P : A -> Prop) (l : list A) (d : A) :
  Forall P l -> P d -> P (last l d).
Proof.
  induction 1 as [|x l Hx Hl IH]; intros Hd; [exact Hd|].
  destruct l as [|y l']; [exact Hx|]. now apply IH.
Qed.

Section Loopback.
Context {L : Locale}.

Lemma encode_all_cons (wc : Z) (rest : list Z) :
  encode_all (wc :: rest)
  = match wcrtomb wc with Some b => b | None => [63] end ++ encode_all rest.
Proof. reflexivity. Qed.

Lemma encode_all_bytes (src : list Z) :
  Forall wire_safe src ->
  Forall (fun b => b <> 0 /\ b <> 10 /\ b <> 13) (encode_all src) /\
  zlen (encode_all src) <= 4 * zlen src.
Proof.
  induction 1 as [|wc rest Hwc Hrest [IH1 IH2]].
  - split; [constructor|cbn; lia].
  - destruct Hwc as (_ & _ & bs & Hw & _ & Hlen & Hbs & _).
    rewrite encode_all_cons, Hw, zlen_app, zlen_cons.
    split; [apply Forall_app; now split|lia].
Qed.

Lemma utf8_loop_encode_all (src : list Z) :
  Forall wire_safe src -> utf8_loop (encode_all src) = src.
Proof.
  induction 1 as [|wc rest Hwc Hrest IH]; [now simp utf8_loop|].
  destruct Hwc as (_ & _ & bs & Hw & Hne & _ & _ & Hback).
  rewrite encode_all_cons, Hw.
  specialize (Hback (encode_all rest)).
  destruct bs as [|b bs']; [contradiction|].
  cbn [app] in *. simp utf8_loop. cbv zeta. rewrite Hback.
  cbn [mb_char mb_advance length Nat.eqb skipn].
  rewrite skipn_app, skipn_all, Nat.sub_diag. cbn [skipn app].
  now rewrite IH.
Qed.

(** X26. What is typed on one client arrives on the pane of another. When
    the input is not locked and every character of the line survives the
    wire, Enter appends to the transmit log the encoded line, IAC bytes
    doubled, and the end of line; a client that receives these bytes in one
    read takes exactly one line from them, the encoded line, and keeps
    nothing back; and that line, shown, adds the typed line to the store. *)
Theorem submitted_line_arrives (o : options) (s : session) (d : display) :
  input_locked s = false ->
  let src := if opt_upper o then cstr (map towupper (cstr (s_ibuf s)))
             else cstr (s_ibuf s) in
  Forall wire_safe src ->
  let wire := write_telnet_safe (encode_all src) []
              ++ (if opt_cr_only o then [13] else [13; 10]) in
  s_tx (submit o s) = s_tx s ++ wire /\
  (zlen wire <= IN_SIZE ->
   rx_reads tp_init [] [wire] = ([encode_all src], [])) /\
  store (show_line d (encode_all src))
  = (if store_count d <? STORE_MAX then store d else tl (store d)) ++ [src].
Proof.
  intros Hfree src Hsafe wire.
  destruct (encode_all_bytes src Hsafe) as [Hbytes Hlen].
  assert (Hnz : Forall (fun b => b <> 0) (encode_all src))
    by (eapply Forall_impl; [|exact Hbytes]; cbv beta; tauto).
  assert (Hncr : Forall (fun b => b <> 13) (encode_all src))
    by (eapply Forall_impl; [|exact Hbytes]; cbv beta; tauto).
  assert (Hnlf : ~ In 10 (encode_all src)).
  { intros Hin. rewrite Forall_forall in Hbytes.
    destruct (Hbytes 10 Hin) as (_ & H10 & _). now apply H10. }
  assert (Henc : encode_loop src (4 * zlen src + 1) = encode_all src).
  { apply encode_loop_room; [|lia]. intros wc b Hin Hw.
    rewrite Forall_forall in Hsafe.
    destruct (Hsafe wc Hin) as (_ & _ & bs & Hw' & _ & Hle & _).
    congruence. }
  split; [|split].
  - unfold submit. rewrite Hfree. cbn [negb]. fold src.
    cbn [s_tx set_ibuf set_tx]. rewrite Henc, (cstr_id _ Hnz).
    unfold send_eol, wire. rewrite write_telnet_safe_app.
    destruct (opt_cr_only o); now rewrite <- app_assoc.
  - intros Hread. rewrite rx_reads_one.
    set (eol := if opt_cr_only o then [13] else [13; 10]) in *.
    assert (Heol : write_telnet_safe eol [] = eol /\ normalize_all eol = [10] /\
                   1 <= zlen eol <= 2)
      by (unfold eol; destruct (opt_cr_only o); repeat split;
          unfold zlen; cbn; lia).
    destruct Heol as (Heol & Hneol & Hzeol).
    assert (Hwire : wire = write_telnet_safe (encode_all src ++ eol) [])
      by (unfold wire; now rewrite write_telnet_safe_concat, Heol).
    pose proof (write_telnet_safe_longer (encode_all src ++ eol)) as Hlong.
    rewrite <- Hwire, zlen_app in Hlong.
    assert (Hroom : zlen (encode_all src ++ eol) <= TMP_SIZE)
      by (rewrite zlen_app; unfold IN_SIZE, TMP_SIZE in *; lia).
    destruct (filter_escaped TMP_SIZE (encode_all src ++ eol) 0 [] [])
      as [cmd' Hrun]; [rewrite zlen_nil; lia|].
    unfold telnet_filter_and_reply, tp_init. rewrite Hwire, Hrun.
    cbn [f_out app].
    rewrite normalize_incoming_room by exact Hroom.
    rewrite normalize_all_app, (normalize_all_fixed _ Hncr), Hneol.
    + rewrite rx_feed_spec by (intros []). cbn [app].
      now apply split_lf_one_line.
    + apply (last_Forall (fun b => b <> 13)); [exact Hncr|lia].
  - unfold show_line. cbv zeta. rewrite add_logical_line_w_store. f_equal.
    f_equal. unfold utf8_to_wcs_lossy.
    rewrite (cstr_id _ Hnz), (utf8_loop_encode_all src Hsafe).
    assert (Hsrc : Forall (fun c => c <> 0) src /\ ~ In 9 src).
    { rewrite Forall_forall in *. split.
      - intros c Hin. now destruct (Hsafe c Hin).
      - intros Hin. destruct (Hsafe 9 Hin) as (_ & H9 & _). now apply H9. }
    destruct Hsrc as [Hs0 Hs9]. rewrite (cstr_id _ Hs0).
    unfold expand_tabs_wcs. now apply expand_tabs_loop_id.
Qed.

End Loopback.

Lemma sample_wire_safe_ascii (c : Z) :
  32 <= c < 128 -> wire_safe (L := sample_locale) c.
Proof.
  intros Hc. split; [lia|]. split; [lia|]. exists [c]. split.
  { cbn [wcrtomb sample_locale]. unfold sample_wcrtomb.
    destruct (Z.ltb_spec c 0); [lia|].
    destruct (Z.ltb_spec c 128); [reflexivity|lia]. }
  split; [discriminate|]. split; [unfold zlen; cbn; lia|].
  split; [repeat constructor; lia|].
  intros rest. cbn [app length]. apply sample_mbrtowc_ascii. lia.
Qed.

(** The word hi, typed and sent with the default options, as the other
    side reads it. *)
Lemma submitted_line_arrives_witness :
  s_tx (submit (L := sample_locale) default_options typing_session)
  = s_tx typing_session ++ bytes "hi" ++ [13; 10] /\
  rx_reads tp_init [] [bytes "hi" ++ [13; 10]] = ([bytes "hi"], []).
Proof.
  assert (Hsafe : Forall (wire_safe (L := sample_locale))
                    (if opt_upper default_options
                     then cstr (map (towupper (Locale := sample_locale))
                                    (cstr (s_ibuf typing_session)))
                     else cstr (s_ibuf typing_session))).
  { change (Forall (wire_safe (L := sample_locale)) [104; 105]).
    repeat constructor; apply sample_wire_safe_ascii; lia. }
  destruct (submitted_line_arrives (L := sample_locale) default_options
              typing_session (display_init 24 80) eq_refl Hsafe)
    as (H1 & H2 & _).
  split; [exact H1|]. apply H2. vm_compute. discriminate.
Defined.

(** ** The release of the lock after the login *)

Section DelayUnlock.
Context {L : Locale}.

(** What the keyboard part of an iteration adds to the transmit log. *)
Lemma key_phase_tx_grows (o : options) (s s' : session) (w : wake) :
  key_phase o s w = Some s' ->
  exists sent, s_tx s' = s_tx s ++ sent /\ (w_key w = None -> sent = []).
Proof.
  unfold key_phase, ctrl_z, submit.
  destruct (w_key w) as [wch|];
    [|intros E; inversion E; subst; exists []; now rewrite app_nil_r].
  repeat match goal with
         | |- (if ?c then _ else _) = Some _ -> _ => destruct c eqn:?
         end;
    intros E; inversion E; subst; clear E;
    repeat match goal with
           | |- context [if ?c then _ else _] => destruct c eqn:?
           end;
    cbn [s_tx set_tx set_disp set_ibuf]; unfold send_eol;
    try rewrite (write_telnet_safe_app _ (s_tx s));
    try destruct (opt_cr_only o);
    rewrite <- ?app_assoc;
    first [ eexists; split; [reflexivity|intros H; discriminate H]
          | exists []; split;
            [now rewrite app_nil_r|intros H; discriminate H] ].
Qed.

(** What the blind machine adds to the transmit log in an iteration. *)
Lemma blind_phase_tx_grows (o : options) (s : session) (w : wake) :
  exists sent,
    s_tx (blind_phase o s w) = s_tx s ++ sent /\
    (alb_enabled (s_alb s) = false \/ 2 <= alb_stage (s_alb s) -> sent = []) /\
    input_locked (blind_phase o s w) = input_locked s /\
    login_done_flag (blind_phase o s w) = login_done_flag s /\
    t_login_done (blind_phase o s w) = t_login_done s /\
    auto_help_sent (blind_phase o s w) = auto_help_sent s.
Proof.
  unfold blind_phase.
  destruct (alb_enabled (s_alb s) && (alb_stage (s_alb s) <? 2)) eqn:Hon.
  - apply andb_prop in Hon. destruct Hon as [Hen Hst]. apply Z.ltb_lt in Hst.
    unfold autologin_try_blind. rewrite Hen. cbn [negb orb].
    destruct (Z.leb_spec 2 (alb_stage (s_alb s))); [lia|].
    repeat match goal with
           | |- context [if ?c then _ else _] => destruct c
           end;
      cbn [s_tx input_locked login_done_flag t_login_done auto_help_sent];
      try rewrite (send_line_app _ _ (s_tx s));
      first [ eexists; split; [reflexivity|];
              split; [intros [Hoff|Hdone]; [congruence|lia]|auto]
            | exists []; split; [now rewrite app_nil_r|];
              split; [reflexivity|auto] ].
  - exists []. split; [now rewrite app_nil_r|]. split; [reflexivity|auto].
Qed.

(** X27. The delay after the login is checked on every wake: once the
    login is done and the delay has elapsed, a wake with nothing to read
    releases the lock; with the help option on, the help flag is set by the
    end of that wake, and when it was not set before, the question-mark
    line is sent in that wake: the transmit log grows by what the blind
    machine sends (nothing when it is off or done), then the line of the
    question mark, then what the key sends (nothing without a key). *)
Theorem delay_unlock_on_idle_wake (o : options) (s s' : session) (w : wake) :
  w_sock w = SockIdle ->
  input_locked s = true -> login_done_flag s = true ->
  unlock_delay_ms o <= since_ms (t_login_done s) (w_now_unlock w) ->
  step o s w = Some s' ->
  input_locked s' = false /\
  (opt_auto_help o = true -> auto_help_sent s' = true) /\
  (opt_auto_help o = true -> auto_help_sent s = false ->
   exists before after,
     s_tx s'
     = s_tx s ++ before
       ++ send_line_utf8_telnet_safe o (bytes "?") [] ++ after /\
     (alb_enabled (s_alb s) = false \/ 2 <= alb_stage (s_alb s) ->
      before = []) /\
     (w_key w = None -> after = [])).
Proof.
  intros Hsock Hlock Hdone Hdelay. unfold step. cbv zeta. rewrite Hsock.
  set (s1 := match w_resize w with
             | Some (r, c) => set_disp s (resize (s_disp s) r c)
             | None => s
             end).
  assert (H1 : input_locked s1 = true /\ login_done_flag s1 = true /\
               t_login_done s1 = t_login_done s /\
               auto_help_sent s1 = auto_help_sent s /\
               s_tx s1 = s_tx s /\ s_alb s1 = s_alb s).
  { unfold s1. destruct (w_resize w) as [[r c]|]; repeat split; auto. }
  clearbody s1. destruct H1 as (Hl1 & Hd1 & Ht1 & Hh1 & Htx1 & Hab1).
  destruct (blind_phase_tx_grows o s1 w)
    as (before & Htx2 & Hbefore & Hl2 & Hd2 & Ht2 & Hh2).
  set (s2 := blind_phase o s1 w) in *. clearbody s2.
  rewrite Hl1 in Hl2. rewrite Hd1 in Hd2. rewrite Ht1 in Ht2.
  rewrite Hh1 in Hh2. rewrite Htx1 in Htx2. rewrite Hab1 in Hbefore.
  assert (H3 : unlock_phase o s2 w = set_locked s2 false).
  { unfold unlock_phase. rewrite Hl2, Hd2, Ht2. cbn [andb orb].
    destruct (Z.leb_spec (unlock_delay_ms o)
                (since_ms (t_login_done s) (w_now_unlock w))); [reflexivity|lia]. }
  rewrite H3. intros E.
  destruct (key_phase_not_behind o _ s' w E) as [(_ & _ & _ & Hsent & _) _].
  destruct (key_phase_tx_grows o _ s' w E) as (after & Htx4 & Hafter).
  apply key_phase_lock in E. rewrite auto_help_phase_lock in E.
  split; [exact E|]. split.
  - intros Hopt. apply Hsent.
    unfold auto_help_phase.
    cbn [input_locked set_locked negb andb auto_help_sent].
    rewrite Hopt. destruct (auto_help_sent s2) eqn:Hs; cbn;
      [exact Hs|reflexivity].
  - intros Hopt Hnot. exists before, after.
    split; [|split; [exact Hbefore|exact Hafter]].
    rewrite Htx4. unfold auto_help_phase.
    cbn [input_locked set_locked negb andb auto_help_sent].
    rewrite Hh2, Hnot, Hopt. cbn [negb andb s_tx set_locked].
    rewrite send_line_app, Htx2. now rewrite <- !app_assoc.
Qed.

End DelayUnlock.

(** Two seconds after the login, a wake with nothing to read: the lock is
    released and the question mark follows the two credentials. *)
Lemma delay_unlock_on_idle_wake_witness :
  match logged_in_session with
  | Some s =>
      match step (L := sample_locale) default_options s
              (wake_at (at_ms 2000) SockIdle None) with
      | Some s' =>
          input_locked s = true /\ input_locked s' = false /\
          s_tx s' = bytes "U" ++ [13; 10] ++ bytes "P" ++ [13; 10]
                    ++ bytes "?" ++ [13; 10]
      | None => False
      end
  | None => False
  end.
Proof.
  destruct logged_in_session as [s|] eqn:E0;
    [|vm_compute in E0; discriminate E0].
  vm_compute in E0. injection E0 as <-.
  match goal with
  | |- match ?st with _ => _ end => destruct st as [s'|] eqn:E
  end; [|vm_compute in E; discriminate E].
  split; [reflexivity|].
  destruct (fun a b c d =>
              delay_unlock_on_idle_wake (L := sample_locale)
                default_options _ s'
                (wake_at (at_ms 2000) SockIdle None) a b c d E)
    as (Hfree & _ & Hsent);
    [reflexivity|reflexivity|reflexivity|vm_compute; discriminate|].
  split; [exact Hfree|].
  destruct (Hsent eq_refl eq_refl) as (before & after & Htx & Hb & Ha).
  rewrite Htx, (Hb (or_introl eq_refl)), (Ha eq_refl). reflexivity.
Defined.
